(** * dingo-store: the SDK raw key-value orchestrator and the integer row codec

    A shallow embedding of [src/sdk/raw_kv_impl.cc] (batch scatter/gather and
    the multi-region [DeleteRange] walker) and of the integer schema codec
    [DingoSchema<optional<int32_t>>], with the properties stated about them. *)

From Stdlib Require Import ZArith String List Lia.
From Stdlib Require OrderedTypeEx.
From stdpp Require Import base gmap list strings pretty.

Local Open Scope Z_scope.

(** ** Integer row codec: [DingoSchema<optional<int32_t>>] *)

Module IntegerSchema.

(** The buffer class [Buf] is declared outside the shown sources.  The codec
    only calls [EnsureRemainder] and [Write] on it, so both are taken as
    operations of an arbitrary buffer type. *)
Record BufOps (Buf : Type) : Type := {
  EnsureRemainder : Buf -> Z -> Buf;
  Write : Buf -> Z -> Buf
}.
Arguments EnsureRemainder {Buf} _ _ _.
Arguments Write {Buf} _ _ _.

(** [Read] hands back the byte read and the buffer behind it. *)
Record BufReadOps (Buf : Type) : Type := {
  Read : Buf -> Z * Buf;
  Skip : Buf -> Z -> Buf
}.
Arguments Read {Buf} _ _.
Arguments Skip {Buf} _ _ _.

(** The members of the schema object the codec reads. *)
Record DingoSchema : Type := {
  index_ : Z;
  key_ : bool;
  allow_null_ : bool
}.

Definition GetDataLength : Z := 4.
Definition GetWithNullTagLength : Z := 5.

Definition GetLength (this : DingoSchema) : Z :=
  if allow_null_ this then GetWithNullTagLength else GetDataLength.

(** [uint32_t* i = (uint32_t* )&data]: the two's complement bit pattern. *)
Definition as_uint32 (data : Z) : Z := data mod 2 ^ 32.

Section Codec.
Context {Buf : Type} (ops : BufOps Buf).
(** The tag bytes [k_null] and [k_not_null] are constants of the class
    declaration, which is not among the shown sources. *)
Context (k_null k_not_null : Z).

Definition InternalEncodeNull (buf : Buf) : Buf :=
  let buf := Write ops buf 0 in
  let buf := Write ops buf 0 in
  let buf := Write ops buf 0 in
  Write ops buf 0.

Definition InternalEncodeKey (buf : Buf) (data : Z) : Buf :=
  let i := as_uint32 data in
  let buf := Write ops buf (Z.lxor (Z.shiftr i 24) 128) in
  let buf := Write ops buf (Z.shiftr i 16) in
  let buf := Write ops buf (Z.shiftr i 8) in
  Write ops buf i.

Definition InternalEncodeValue (buf : Buf) (data : Z) : Buf :=
  let i := as_uint32 data in
  let buf := Write ops buf (Z.shiftr i 24) in
  let buf := Write ops buf (Z.shiftr i 16) in
  let buf := Write ops buf (Z.shiftr i 8) in
  Write ops buf i.

(** [void EncodeKey(Buf* buf, optional<int32_t> data)]: the function has no
    result and no error channel; its whole effect is the new buffer. *)
Definition EncodeKey (this : DingoSchema) (buf : Buf) (data : option Z) : Buf :=
  if allow_null_ this then
    let buf := EnsureRemainder ops buf GetWithNullTagLength in
    match data with
    | Some v => InternalEncodeKey (Write ops buf k_not_null) v
    | None => InternalEncodeNull (Write ops buf k_null)
    end
  else
    match data with
    | Some v => InternalEncodeKey (EnsureRemainder ops buf GetDataLength) v
    | None => buf (* WRONG EMPTY DATA *)
    end.

Definition EncodeValue (this : DingoSchema) (buf : Buf) (data : option Z) : Buf :=
  if allow_null_ this then
    let buf := EnsureRemainder ops buf GetWithNullTagLength in
    match data with
    | Some v => InternalEncodeValue (Write ops buf k_not_null) v
    | None => InternalEncodeNull (Write ops buf k_null)
    end
  else
    match data with
    | Some v => InternalEncodeValue (EnsureRemainder ops buf GetDataLength) v
    | None => buf (* WRONG EMPTY DATA *)
    end.

(** The reading side.  [DecodeKey] and [DecodeValue] combine four [Read]s
    with [|]; the reads are taken in the order they are written, first to
    last. *)
Context (rops : BufReadOps Buf).

(** [return r;] with [uint32_t r] from a function returning
    [optional<int32_t>]: the two's complement reading of the bit pattern. *)
Definition as_int32 (r : Z) : Z := (r + 2 ^ 31) mod 2 ^ 32 - 2 ^ 31.

Definition read_key_bits (buf : Buf) : option Z * Buf :=
  let '(b0, buf) := Read rops buf in
  let '(b1, buf) := Read rops buf in
  let '(b2, buf) := Read rops buf in
  let '(b3, buf) := Read rops buf in
  let r :=
    Z.lor (Z.lor (Z.lor (Z.shiftl (Z.lxor (Z.land b0 255) 128) 24)
                        (Z.shiftl (Z.land b1 255) 16))
                 (Z.shiftl (Z.land b2 255) 8))
          (Z.land b3 255) in
  (Some (as_int32 (as_uint32 r)), buf).

Definition read_value_bits (buf : Buf) : option Z * Buf :=
  let '(b0, buf) := Read rops buf in
  let '(b1, buf) := Read rops buf in
  let '(b2, buf) := Read rops buf in
  let '(b3, buf) := Read rops buf in
  let r :=
    Z.lor (Z.lor (Z.lor (Z.shiftl (Z.land b0 255) 24)
                        (Z.shiftl (Z.land b1 255) 16))
                 (Z.shiftl (Z.land b2 255) 8))
          (Z.land b3 255) in
  (Some (as_int32 (as_uint32 r)), buf).

Definition DecodeKey (this : DingoSchema) (buf : Buf) : option Z * Buf :=
  if allow_null_ this then
    let '(tag, buf) := Read rops buf in
    if tag =? k_null then (None, Skip rops buf GetDataLength)
    else read_key_bits buf
  else read_key_bits buf.

Definition DecodeValue (this : DingoSchema) (buf : Buf) : option Z * Buf :=
  if allow_null_ this then
    let '(tag, buf) := Read rops buf in
    if tag =? k_null then (None, Skip rops buf GetDataLength)
    else read_value_bits buf
  else read_value_bits buf.

Definition SkipKey (this : DingoSchema) (buf : Buf) : Buf :=
  Skip rops buf (GetLength this).

Definition SkipValue (this : DingoSchema) (buf : Buf) : Buf :=
  Skip rops buf (GetLength this).

(** What the codec relies on from a buffer: it holds a sequence of bytes,
    [Write] appends one (its argument is a [uint8_t]), [EnsureRemainder]
    only reserves room, [Read] takes the first byte off and [Skip] the first
    [n]. *)
Definition buf_laws (contents : Buf -> list Z) : Prop :=
  (forall b x, contents (Write ops b x) = contents b ++ [x mod 256]) /\
  (forall b n, contents (EnsureRemainder ops b n) = contents b) /\
  (forall b x l, contents b = x :: l ->
     exists b', Read rops b = (x, b') /\ contents b' = l) /\
  (forall b n, 0 <= n -> contents (Skip rops b n) = drop (Z.to_nat n) (contents b)).

(** Data the schema can hold: a 32-bit value, or null when nulls are
    allowed. *)
Definition encodable (this : DingoSchema) (data : option Z) : Prop :=
  match data with
  | Some v => - 2 ^ 31 <= v < 2 ^ 31
  | None => allow_null_ this = true
  end.

(** The tag bytes are two different bytes. *)
Definition tags_ok : Prop :=
  0 <= k_null < 256 /\ 0 <= k_not_null < 256 /\ k_null <> k_not_null.

(** The bytes one field takes, by schema and data. *)
Definition field_bytes (bits : Z -> list Z) (this : DingoSchema) (data : option Z)
  : list Z :=
  match allow_null_ this, data with
  | true, Some v => k_not_null mod 256 :: bits v
  | true, None => [k_null mod 256; 0; 0; 0; 0]
  | false, Some v => bits v
  | false, None => []
  end.
End Codec.

(** A concrete buffer: the bytes written so far; [Write] takes a [uint8_t]. *)
Definition ListBuf : BufOps (list Z) := {|
  EnsureRemainder := fun buf _ => buf;
  Write := fun buf b => (buf ++ [b mod 256])%list
|}.

(** The bytes [InternalEncodeKey] and [InternalEncodeValue] hand to [Write],
    as the buffer stores them. *)
Definition key_bytes (data : Z) : list Z :=
  let i := as_uint32 data in
  [Z.lxor (Z.shiftr i 24) 128 mod 256; Z.shiftr i 16 mod 256;
   Z.shiftr i 8 mod 256; i mod 256].

Definition value_bytes (data : Z) : list Z :=
  let i := as_uint32 data in
  [Z.shiftr i 24 mod 256; Z.shiftr i 16 mod 256; Z.shiftr i 8 mod 256; i mod 256].

Definition ListBufRead : BufReadOps (list Z) := {|
  Read := fun buf => match buf with x :: l => (x, l) | [] => (0, []) end;
  Skip := fun buf n => drop (Z.to_nat n) buf
|}.

(** Lexicographic order on byte strings, as [memcmp] and [std::string]
    compare them. *)
Fixpoint bytes_lt (a b : list Z) : bool :=
  match a, b with
  | _, [] => false
  | [], _ :: _ => true
  | x :: a', y :: b' => (x <? y) || ((x =? y) && bytes_lt a' b')
  end.

Definition nullable_schema : DingoSchema :=
  {| index_ := 0; key_ := true; allow_null_ := true |}.

Definition non_null_schema : DingoSchema :=
  {| index_ := 0; key_ := true; allow_null_ := false |}.

(** *** The non-null branch with no data *)

(** C9 (as the code behaves): with [allow_null_] false and a value-less
    optional, [EncodeKey] and [EncodeValue] hand back the buffer they were
    given: nothing is written, nothing is reserved, and the [void] result
    reports no error.  The source marks the branch [WRONG EMPTY DATA]. *)
Theorem encode_null_when_not_nullable_writes_nothing :
  forall (Buf : Type) (ops : BufOps Buf) (k_null k_not_null : Z)
         (this : DingoSchema) (buf : Buf),
    allow_null_ this = false ->
    EncodeKey ops k_null k_not_null this buf None = buf /\
    EncodeValue ops k_null k_not_null this buf None = buf.
Proof.
  intros Buf ops kn knn this buf Hnull.
  unfold EncodeKey, EncodeValue. rewrite Hnull. split; reflexivity.
Qed.

Lemma encode_null_when_not_nullable_witness :
  EncodeKey ListBuf 0 1 non_null_schema [7] None = [7] /\
  EncodeValue ListBuf 0 1 non_null_schema [7] None = [7].
Proof.
  apply (encode_null_when_not_nullable_writes_nothing
           (list Z) ListBuf 0 1 non_null_schema [7]).
  reflexivity.
Defined.

(** The sibling branches do write: a present value takes four bytes, and a
    null under [allow_null_] takes the tag and four zero bytes. *)
Example encode_key_present :
  EncodeKey ListBuf 0 1 non_null_schema [] (Some 1) = [128; 0; 0; 1].
Proof. reflexivity. Qed.

Example encode_key_negative :
  EncodeKey ListBuf 0 1 non_null_schema [] (Some (-1)) = [127; 255; 255; 255].
Proof. reflexivity. Qed.

Example encode_key_nullable_null :
  EncodeKey ListBuf 0 1 {| index_ := 0; key_ := true; allow_null_ := true |} [] None
  = [0; 0; 0; 0; 0].
Proof. reflexivity. Qed.

(** *** Bit patterns *)

Lemma xor_128 x :
  0 <= x < 256 -> Z.lxor x 128 = if x <? 128 then x + 128 else x - 128.
Proof.
  intros Hx.
  assert (H : forallb (fun n => Z.lxor (Z.of_nat n) 128
                                =? (if Z.of_nat n <? 128 then Z.of_nat n + 128
                                    else Z.of_nat n - 128))
                (seq 0 256) = true) by (vm_compute; reflexivity).
  rewrite forallb_forall in H.
  specialize (H (Z.to_nat x)). rewrite Z2Nat.id in H by lia.
  apply Z.eqb_eq, H, in_seq. lia.
Qed.

Lemma land_255 x : Z.land x 255 = x mod 256.
Proof. change 255 with (Z.ones 8). by rewrite Z.land_ones. Qed.

Lemma lor_low hi lo k :
  0 <= k -> hi mod 2 ^ k = 0 -> 0 <= lo < 2 ^ k -> Z.lor hi lo = hi + lo.
Proof.
  intros Hk Hhi Hlo. symmetry. apply Z.add_nocarry_lor, Z.bits_inj'. intros n Hn.
  rewrite Z.land_spec, Z.bits_0.
  destruct (Z.lt_ge_cases n k) as [Hlt|Hge].
  - assert (hi = Z.shiftl (hi / 2 ^ k) k) as ->.
    { rewrite Z.shiftl_mul_pow2 by done.
      pose proof (Z.div_mod hi (2 ^ k)) as E. rewrite Hhi in E.
      assert (2 ^ k <> 0) by lia. specialize (E ltac:(done)). lia. }
    by rewrite Z.shiftl_spec_low.
  - rewrite <- (Z.mod_small lo (2 ^ k)) by done.
    rewrite Z.mod_pow2_bits_high by lia. apply andb_false_r.
Qed.

Lemma as_uint32_range v : 0 <= as_uint32 v < 2 ^ 32.
Proof. unfold as_uint32. apply Z.mod_pos_bound. lia. Qed.

Lemma pack_bytes a3 a2 a1 a0 :
  0 <= a3 < 256 -> 0 <= a2 < 256 -> 0 <= a1 < 256 -> 0 <= a0 < 256 ->
  Z.lor (Z.lor (Z.lor (Z.shiftl a3 24) (Z.shiftl a2 16)) (Z.shiftl a1 8)) a0
  = a3 * 2 ^ 24 + a2 * 2 ^ 16 + a1 * 2 ^ 8 + a0.
Proof.
  intros H3 H2 H1 H0. rewrite !Z.shiftl_mul_pow2 by lia.
  change (2 ^ 24) with 16777216. change (2 ^ 16) with 65536. change (2 ^ 8) with 256.
  rewrite (lor_low (a3 * 16777216) (a2 * 65536) 24);
    [| lia | change (2 ^ 24) with 16777216; Z.div_mod_to_equations; lia
     | change (2 ^ 24) with 16777216; lia].
  rewrite (lor_low _ (a1 * 256) 16);
    [| lia | change (2 ^ 16) with 65536; Z.div_mod_to_equations; lia
     | change (2 ^ 16) with 65536; lia].
  rewrite (lor_low _ a0 8);
    [| lia | change (2 ^ 8) with 256; Z.div_mod_to_equations; lia
     | change (2 ^ 8) with 256; lia].
  done.
Qed.

Ltac unfold_powers :=
  change (2 ^ 32) with 4294967296 in *; change (2 ^ 31) with 2147483648 in *;
  change (2 ^ 24) with 16777216 in *; change (2 ^ 16) with 65536 in *;
  change (2 ^ 8) with 256 in *.

(** Reading back the bit pattern of a 32-bit value. *)
Lemma unpack_value v :
  - 2 ^ 31 <= v < 2 ^ 31 ->
  let i := as_uint32 v in
  as_int32 (as_uint32
    ((Z.shiftr i 24 mod 256) * 2 ^ 24 + (Z.shiftr i 16 mod 256) * 2 ^ 16
     + (Z.shiftr i 8 mod 256) * 2 ^ 8 + i mod 256)) = v.
Proof.
  intros Hv i. rewrite !Z.shiftr_div_pow2 by lia.
  pose proof (as_uint32_range v) as Hi. fold i in Hi.
  assert (Hiv : i = v \/ i = v + 2 ^ 32).
  { unfold i, as_uint32. unfold_powers. Z.div_mod_to_equations. lia. }
  unfold as_int32, as_uint32. unfold_powers.
  Z.div_mod_to_equations. lia.
Qed.

Lemma unpack_key v :
  - 2 ^ 31 <= v < 2 ^ 31 ->
  let i := as_uint32 v in
  let b0 := Z.lxor (Z.shiftr i 24) 128 mod 256 in
  as_int32 (as_uint32
    (Z.lxor (b0 mod 256) 128 * 2 ^ 24 + (Z.shiftr i 16 mod 256) * 2 ^ 16
     + (Z.shiftr i 8 mod 256) * 2 ^ 8 + i mod 256)) = v.
Proof.
  intros Hv i b0.
  pose proof (as_uint32_range v) as Hi. fold i in Hi.
  assert (Ha : 0 <= Z.shiftr i 24 < 256).
  { rewrite Z.shiftr_div_pow2 by lia. unfold_powers. Z.div_mod_to_equations. lia. }
  assert (Hb0 : Z.lxor (b0 mod 256) 128 = Z.shiftr i 24 mod 256).
  { unfold b0. rewrite Z.mod_mod by lia.
    assert (0 <= Z.lxor (Z.shiftr i 24) 128 < 256) as Hx.
    { rewrite xor_128 by done. destruct (Z.shiftr i 24 <? 128) eqn:E; lia. }
    rewrite (Z.mod_small _ 256 Hx), Z.lxor_assoc, Z.lxor_nilpotent, Z.lxor_0_r.
    by rewrite Z.mod_small. }
  rewrite Hb0. by apply unpack_value.
Qed.

(** The key bytes are the big-endian digits of [v + 2^31]. *)
Lemma key_bytes_digits v :
  - 2 ^ 31 <= v < 2 ^ 31 ->
  exists d3 d2 d1 d0,
    key_bytes v = [d3; d2; d1; d0] /\
    0 <= d3 < 256 /\ 0 <= d2 < 256 /\ 0 <= d1 < 256 /\ 0 <= d0 < 256 /\
    d3 * 2 ^ 24 + d2 * 2 ^ 16 + d1 * 2 ^ 8 + d0 = v + 2 ^ 31.
Proof.
  intros Hv. unfold key_bytes. eexists _, _, _, _. split; [reflexivity|].
  pose proof (as_uint32_range v) as Hi.
  assert (Hiv : as_uint32 v = v \/ as_uint32 v = v + 2 ^ 32).
  { unfold as_uint32. unfold_powers. Z.div_mod_to_equations. lia. }
  set (i := as_uint32 v) in *.
  assert (Ha : 0 <= Z.shiftr i 24 < 256).
  { rewrite Z.shiftr_div_pow2 by lia. unfold_powers. Z.div_mod_to_equations. lia. }
  rewrite (xor_128 _ Ha). rewrite !Z.shiftr_div_pow2 in * by lia.
  unfold_powers.
  destruct (i / 16777216 <? 128) eqn:E;
    [apply Z.ltb_lt in E | apply Z.ltb_ge in E];
    repeat split; Z.div_mod_to_equations; lia.
Qed.

Lemma bytes_lt_digits x3 x2 x1 x0 y3 y2 y1 y0 :
  0 <= x3 < 256 -> 0 <= x2 < 256 -> 0 <= x1 < 256 -> 0 <= x0 < 256 ->
  0 <= y3 < 256 -> 0 <= y2 < 256 -> 0 <= y1 < 256 -> 0 <= y0 < 256 ->
  bytes_lt [x3; x2; x1; x0] [y3; y2; y1; y0] = true <->
  x3 * 2 ^ 24 + x2 * 2 ^ 16 + x1 * 2 ^ 8 + x0
  < y3 * 2 ^ 24 + y2 * 2 ^ 16 + y1 * 2 ^ 8 + y0.
Proof.
  intros. unfold_powers. simpl.
  destruct (Z.ltb_spec x3 y3), (Z.eqb_spec x3 y3),
    (Z.ltb_spec x2 y2), (Z.eqb_spec x2 y2),
    (Z.ltb_spec x1 y1), (Z.eqb_spec x1 y1),
    (Z.ltb_spec x0 y0); simpl; split; intros; try done; lia.
Qed.

Lemma bytes_lt_same_head t a b : bytes_lt (t :: a) (t :: b) = bytes_lt a b.
Proof. simpl. by rewrite Z.ltb_irrefl, Z.eqb_refl. Qed.

(** *** Writing and reading through a buffer *)

Section RoundTrip.
Context {Buf : Type} (ops : BufOps Buf) (rops : BufReadOps Buf).
Context (k_null k_not_null : Z) (contents : Buf -> list Z).
Hypothesis laws : buf_laws ops rops contents.

Lemma contents_Write b x : contents (Write ops b x) = contents b ++ [x mod 256].
Proof. by destruct laws as (H & _). Qed.

Lemma contents_EnsureRemainder b n : contents (EnsureRemainder ops b n) = contents b.
Proof. by destruct laws as (_ & H & _). Qed.

Lemma contents_Read b x l :
  contents b = x :: l -> exists b', Read rops b = (x, b') /\ contents b' = l.
Proof. destruct laws as (_ & _ & H & _). apply H. Qed.

Lemma contents_Skip b n :
  0 <= n -> contents (Skip rops b n) = drop (Z.to_nat n) (contents b).
Proof. destruct laws as (_ & _ & _ & H). apply H. Qed.

Lemma contents_InternalEncodeKey b v :
  contents (InternalEncodeKey ops b v) = contents b ++ key_bytes v.
Proof.
  unfold InternalEncodeKey, key_bytes. rewrite !contents_Write.
  by rewrite <- !app_assoc.
Qed.

Lemma contents_InternalEncodeValue b v :
  contents (InternalEncodeValue ops b v) = contents b ++ value_bytes v.
Proof.
  unfold InternalEncodeValue, value_bytes. rewrite !contents_Write.
  by rewrite <- !app_assoc.
Qed.

Lemma contents_InternalEncodeNull b :
  contents (InternalEncodeNull ops b) = contents b ++ [0; 0; 0; 0].
Proof.
  unfold InternalEncodeNull. rewrite !contents_Write. by rewrite <- !app_assoc.
Qed.

Lemma contents_EncodeKey this b data :
  contents (EncodeKey ops k_null k_not_null this b data)
  = contents b ++ field_bytes k_null k_not_null key_bytes this data.
Proof.
  unfold EncodeKey, field_bytes. destruct (allow_null_ this), data as [v|].
  - rewrite contents_InternalEncodeKey, contents_Write, contents_EnsureRemainder.
    by rewrite <- app_assoc.
  - rewrite contents_InternalEncodeNull, contents_Write, contents_EnsureRemainder.
    by rewrite <- app_assoc.
  - by rewrite contents_InternalEncodeKey, contents_EnsureRemainder.
  - by rewrite app_nil_r.
Qed.

Lemma contents_EncodeValue this b data :
  contents (EncodeValue ops k_null k_not_null this b data)
  = contents b ++ field_bytes k_null k_not_null value_bytes this data.
Proof.
  unfold EncodeValue, field_bytes. destruct (allow_null_ this), data as [v|].
  - rewrite contents_InternalEncodeValue, contents_Write, contents_EnsureRemainder.
    by rewrite <- app_assoc.
  - rewrite contents_InternalEncodeNull, contents_Write, contents_EnsureRemainder.
    by rewrite <- app_assoc.
  - by rewrite contents_InternalEncodeValue, contents_EnsureRemainder.
  - by rewrite app_nil_r.
Qed.

Lemma length_field_bytes bits this data :
  (forall v, length (bits v) = 4%nat) ->
  encodable this data ->
  Z.of_nat (length (field_bytes k_null k_not_null bits this data)) = GetLength this.
Proof.
  intros Hbits Henc. unfold field_bytes, GetLength.
  destruct (allow_null_ this) eqn:Ea, data as [v|]; simpl in Henc;
    rewrite ?length_cons, ?Hbits; try done; congruence.
Qed.

Lemma read4 b x0 x1 x2 x3 rest :
  contents b = x0 :: x1 :: x2 :: x3 :: rest ->
  exists b0 b1 b2 b3,
    Read rops b = (x0, b0) /\ Read rops b0 = (x1, b1) /\
    Read rops b1 = (x2, b2) /\ Read rops b2 = (x3, b3) /\ contents b3 = rest.
Proof.
  intros H.
  destruct (contents_Read _ _ _ H) as (b0 & R0 & H0).
  destruct (contents_Read _ _ _ H0) as (b1 & R1 & H1).
  destruct (contents_Read _ _ _ H1) as (b2 & R2 & H2).
  destruct (contents_Read _ _ _ H2) as (b3 & R3 & H3).
  eauto 10.
Qed.

Lemma byte_mod_range x : 0 <= x mod 256 < 256.
Proof. apply Z.mod_pos_bound. lia. Qed.

Lemma read_key_bits_key_bytes b v rest :
  - 2 ^ 31 <= v < 2 ^ 31 ->
  contents b = key_bytes v ++ rest ->
  exists b', read_key_bits rops b = (Some v, b') /\ contents b' = rest.
Proof.
  intros Hv H. unfold key_bytes in H. simpl in H.
  destruct (read4 _ _ _ _ _ _ H) as (b0 & b1 & b2 & b3 & R0 & R1 & R2 & R3 & Hrest).
  exists b3. split; [|done].
  unfold read_key_bits. rewrite R0, R1, R2, R3. do 2 f_equal.
  rewrite !land_255.
  assert (0 <= Z.lxor (Z.lxor (Z.shiftr (as_uint32 v) 24) 128 mod 256 mod 256) 128 < 256)
    as Hx.
  { rewrite xor_128 by apply byte_mod_range.
    pose proof (byte_mod_range (Z.lxor (Z.shiftr (as_uint32 v) 24) 128 mod 256)).
    destruct (_ <? 128) eqn:E; [apply Z.ltb_lt in E | apply Z.ltb_ge in E]; lia. }
  rewrite pack_bytes by (done || apply byte_mod_range).
  rewrite !(Z.mod_mod _ 256) by lia.
  pose proof (unpack_key v Hv) as Hk. simpl in Hk.
  rewrite !(Z.mod_mod _ 256) in Hk by lia. exact Hk.
Qed.

Lemma read_value_bits_value_bytes b v rest :
  - 2 ^ 31 <= v < 2 ^ 31 ->
  contents b = value_bytes v ++ rest ->
  exists b', read_value_bits rops b = (Some v, b') /\ contents b' = rest.
Proof.
  intros Hv H. unfold value_bytes in H. simpl in H.
  destruct (read4 _ _ _ _ _ _ H) as (b0 & b1 & b2 & b3 & R0 & R1 & R2 & R3 & Hrest).
  exists b3. split; [|done].
  unfold read_value_bits. rewrite R0, R1, R2, R3. do 2 f_equal.
  rewrite !land_255.
  rewrite pack_bytes by apply byte_mod_range.
  rewrite !(Z.mod_mod _ 256) by lia.
  exact (unpack_value v Hv).
Qed.

Lemma decode_field (bits : Z -> list Z) read_bits this rbuf data rest :
  tags_ok k_null k_not_null ->
  encodable this data ->
  (forall b v r, - 2 ^ 31 <= v < 2 ^ 31 -> contents b = bits v ++ r ->
     exists b', read_bits b = (Some v, b') /\ contents b' = r) ->
  contents rbuf = field_bytes k_null k_not_null bits this data ++ rest ->
  exists rbuf',
    (if allow_null_ this then
       let '(tag, buf) := Read rops rbuf in
       if tag =? k_null then (None, Skip rops buf GetDataLength) else read_bits buf
     else read_bits rbuf) = (data, rbuf') /\
    contents rbuf' = rest.
Proof.
  intros (Hn & Hnn & Hne) Henc Hbits H. unfold field_bytes in H.
  destruct (allow_null_ this) eqn:Ea, data as [v|]; simpl in *.
  - rewrite Z.mod_small in H by done.
    destruct (contents_Read _ _ _ H) as (b0 & R0 & H0). rewrite R0.
    assert ((k_not_null =? k_null) = false) as -> by (apply Z.eqb_neq; congruence).
    exact (Hbits b0 v rest Henc H0).
  - rewrite Z.mod_small in H by done.
    destruct (contents_Read _ _ _ H) as (b0 & R0 & H0). rewrite R0, Z.eqb_refl.
    eexists. split; [done|]. rewrite contents_Skip by done. by rewrite H0.
  - exact (Hbits rbuf v rest Henc H).
  - congruence.
Qed.

End RoundTrip.

(** X1. A key written by [EncodeKey] is read back by [DecodeKey]: for any
    buffer obeying the buffer laws, any 32-bit value (or null, when the schema
    allows nulls) and distinct tag bytes, decoding a buffer that starts with
    the bytes the encoder appended yields the encoded data and leaves
    exactly the bytes that followed. *)
Theorem decode_key_inverts_encode_key :
  forall (Buf : Type) (ops : BufOps Buf) (rops : BufReadOps Buf)
         (k_null k_not_null : Z) (contents : Buf -> list Z)
         (this : DingoSchema) (wbuf rbuf : Buf) (data : option Z) (enc rest : list Z),
    buf_laws ops rops contents ->
    tags_ok k_null k_not_null ->
    encodable this data ->
    contents (EncodeKey ops k_null k_not_null this wbuf data) = contents wbuf ++ enc ->
    contents rbuf = enc ++ rest ->
    exists rbuf',
      DecodeKey k_null rops this rbuf = (data, rbuf') /\ contents rbuf' = rest.
Proof.
  intros Buf ops rops kn knn contents this wbuf rbuf data enc rest
    laws Htags Henc Hw Hr.
  rewrite (contents_EncodeKey ops rops kn knn contents laws) in Hw.
  apply app_inv_head in Hw. subst enc.
  apply (decode_field ops rops kn knn contents laws key_bytes (read_key_bits rops)
           this rbuf data rest Htags Henc); [|done].
  intros b v r. by apply (read_key_bits_key_bytes ops).
Qed.

(** X2. The same for values: [DecodeValue] reads back what [EncodeValue]
    wrote and leaves the bytes that followed. *)
Theorem decode_value_inverts_encode_value :
  forall (Buf : Type) (ops : BufOps Buf) (rops : BufReadOps Buf)
         (k_null k_not_null : Z) (contents : Buf -> list Z)
         (this : DingoSchema) (wbuf rbuf : Buf) (data : option Z) (enc rest : list Z),
    buf_laws ops rops contents ->
    tags_ok k_null k_not_null ->
    encodable this data ->
    contents (EncodeValue ops k_null k_not_null this wbuf data) = contents wbuf ++ enc ->
    contents rbuf = enc ++ rest ->
    exists rbuf',
      DecodeValue k_null rops this rbuf = (data, rbuf') /\ contents rbuf' = rest.
Proof.
  intros Buf ops rops kn knn contents this wbuf rbuf data enc rest
    laws Htags Henc Hw Hr.
  rewrite (contents_EncodeValue ops rops kn knn contents laws) in Hw.
  apply app_inv_head in Hw. subst enc.
  apply (decode_field ops rops kn knn contents laws value_bytes (read_value_bits rops)
           this rbuf data rest Htags Henc); [|done].
  intros b v r. by apply (read_value_bits_value_bytes ops).
Qed.

(** X3. An encoded field takes [GetLength] bytes, 5 with the null tag and 4
    without, and [SkipKey] and [SkipValue] step over exactly one of them:
    on a buffer that starts with an encoded key (value) they leave the bytes
    that followed. *)
Theorem skip_steps_over_one_field :
  forall (Buf : Type) (ops : BufOps Buf) (rops : BufReadOps Buf)
         (k_null k_not_null : Z) (contents : Buf -> list Z)
         (this : DingoSchema) (wbuf rbuf : Buf) (data : option Z) (enc rest : list Z),
    buf_laws ops rops contents ->
    encodable this data ->
    contents rbuf = enc ++ rest ->
    (contents (EncodeKey ops k_null k_not_null this wbuf data) = contents wbuf ++ enc ->
     Z.of_nat (length enc) = GetLength this /\
     contents (SkipKey rops this rbuf) = rest) /\
    (contents (EncodeValue ops k_null k_not_null this wbuf data) = contents wbuf ++ enc ->
     Z.of_nat (length enc) = GetLength this /\
     contents (SkipValue rops this rbuf) = rest).
Proof.
  intros Buf ops rops kn knn contents this wbuf rbuf data enc rest laws Henc Hr.
  assert (Hskip : Z.of_nat (length enc) = GetLength this ->
                  drop (Z.to_nat (GetLength this)) (contents rbuf) = rest).
  { intros <-. rewrite Nat2Z.id, Hr. by rewrite drop_app_length. }
  assert (Hpos : 0 <= GetLength this).
  { unfold GetLength, GetWithNullTagLength, GetDataLength.
    destruct (allow_null_ this); lia. }
  split; intros Hw.
  - rewrite (contents_EncodeKey ops rops kn knn contents laws) in Hw.
    apply app_inv_head in Hw. subst enc.
    pose proof (length_field_bytes kn knn key_bytes this data (fun _ => eq_refl) Henc) as Hl.
    split; [done|]. unfold SkipKey.
    rewrite (contents_Skip ops rops contents laws) by done. by apply Hskip.
  - rewrite (contents_EncodeValue ops rops kn knn contents laws) in Hw.
    apply app_inv_head in Hw. subst enc.
    pose proof (length_field_bytes kn knn value_bytes this data (fun _ => eq_refl) Henc)
      as Hl.
    split; [done|]. unfold SkipValue.
    rewrite (contents_Skip ops rops contents laws) by done. by apply Hskip.
Qed.

(** X4. Keys compare as the integers they encode: for two 32-bit values
    written by [EncodeKey] under the same schema, the bytes of the first are
    below the bytes of the second in lexicographic byte order exactly when
    the first value is below the second. *)
Theorem encode_key_preserves_order :
  forall (Buf : Type) (ops : BufOps Buf) (rops : BufReadOps Buf)
         (k_null k_not_null : Z) (contents : Buf -> list Z)
         (this : DingoSchema) (wbuf : Buf) (a b : Z) (ea eb : list Z),
    buf_laws ops rops contents ->
    - 2 ^ 31 <= a < 2 ^ 31 ->
    - 2 ^ 31 <= b < 2 ^ 31 ->
    contents (EncodeKey ops k_null k_not_null this wbuf (Some a)) = contents wbuf ++ ea ->
    contents (EncodeKey ops k_null k_not_null this wbuf (Some b)) = contents wbuf ++ eb ->
    (bytes_lt ea eb = true <-> a < b).
Proof.
  intros Buf ops rops kn knn contents this wbuf a b ea eb laws Ha Hb Hea Heb.
  rewrite (contents_EncodeKey ops rops kn knn contents laws) in Hea, Heb.
  apply app_inv_head in Hea, Heb. subst ea eb.
  assert (Hkeys : bytes_lt (key_bytes a) (key_bytes b) = true <-> a < b).
  { destruct (key_bytes_digits a Ha) as (x3 & x2 & x1 & x0 & -> & ? & ? & ? & ? & Hx).
    destruct (key_bytes_digits b Hb) as (y3 & y2 & y1 & y0 & -> & ? & ? & ? & ? & Hy).
    rewrite bytes_lt_digits by done. lia. }
  unfold field_bytes. destruct (allow_null_ this); [|done].
  by rewrite bytes_lt_same_head.
Qed.

(** *** The list buffer at work *)

Lemma list_buf_laws : buf_laws ListBuf ListBufRead (fun b => b).
Proof.
  split; [done | split; [done | split; [|done]]].
  intros b x l ->. by eexists.
Qed.

Lemma decode_key_inverts_encode_key_witness :
  exists rbuf',
    DecodeKey 0 ListBufRead nullable_schema
      (EncodeKey ListBuf 0 1 nullable_schema [] (Some (-5)) ++ [9])
    = (Some (-5), rbuf') /\ rbuf' = [9].
Proof.
  apply (decode_key_inverts_encode_key (list Z) ListBuf ListBufRead 0 1 (fun b => b)
           nullable_schema [] _ (Some (-5))
           (EncodeKey ListBuf 0 1 nullable_schema [] (Some (-5))) [9]).
  - apply list_buf_laws.
  - unfold tags_ok. lia.
  - simpl. lia.
  - reflexivity.
  - reflexivity.
Defined.

Lemma decode_value_inverts_encode_value_witness :
  exists rbuf',
    DecodeValue 0 ListBufRead nullable_schema
      (EncodeValue ListBuf 0 1 nullable_schema [] None ++ [9])
    = (None, rbuf') /\ rbuf' = [9].
Proof.
  apply (decode_value_inverts_encode_value (list Z) ListBuf ListBufRead 0 1 (fun b => b)
           nullable_schema [] _ None
           (EncodeValue ListBuf 0 1 nullable_schema [] None) [9]).
  - apply list_buf_laws.
  - unfold tags_ok. lia.
  - reflexivity.
  - reflexivity.
  - reflexivity.
Defined.

Lemma skip_steps_over_one_field_witness :
  Z.of_nat (length [1; 128; 0; 0; 7]) = GetLength nullable_schema /\
  SkipKey ListBufRead nullable_schema ([1; 128; 0; 0; 7] ++ [9]) = [9].
Proof.
  apply (proj1 (skip_steps_over_one_field (list Z) ListBuf ListBufRead 0 1 (fun b => b)
                  nullable_schema [] ([1; 128; 0; 0; 7] ++ [9]) (Some 7)
                  [1; 128; 0; 0; 7] [9]
                  list_buf_laws ltac:(simpl; lia) eq_refl)).
  reflexivity.
Defined.

Lemma encode_key_preserves_order_witness :
  bytes_lt [127; 255; 255; 255] [128; 0; 0; 0] = true <-> -1 < 0.
Proof.
  apply (encode_key_preserves_order (list Z) ListBuf ListBufRead 0 1 (fun b => b)
           non_null_schema [] (-1) 0 [127; 255; 255; 255] [128; 0; 0; 0]).
  - apply list_buf_laws.
  - lia.
  - lia.
  - reflexivity.
  - reflexivity.
Defined.

End IntegerSchema.

(** ** The raw key-value orchestrator: [RawKV::RawKVImpl] *)

Module RawKV.

(** *** Data model *)

(** Keys are [std::string]s; [operator<] is the lexicographic order on
    unsigned bytes, which is [String.ltb]. *)
Definition key_lt (a b : string) : bool := String.ltb a b.
Definition key_eq (a b : string) : bool := String.eqb a b.
Definition key_empty (a : string) : bool := String.eqb a EmptyString.

Inductive Status : Type :=
| Ok
| NotFound
| RegionNotFound
| EpochMismatch
| LeaderChanged
| Timeout
| Network
| IllegalState (msg : string)
| InvalidArgument (msg : string)
| Internal (msg : string).

Definition IsOK (s : Status) : bool :=
  match s with Ok => true | _ => false end.

Definition IsInvalidArgument (s : Status) : bool :=
  match s with InvalidArgument _ => true | _ => false end.

Record RegionEpoch : Type := { conf_ver : Z; version : Z }.

(** [Region]: id, half-open key range and epoch (the replica set is not read
    by the orchestrator). *)
Record Region : Type := {
  RegionId : Z;
  start_key : string;
  end_key : string;
  Epoch : RegionEpoch
}.

Record KVPair : Type := { key : string; value : string }.
Record KeyOpState : Type := { op_key : string; state : bool }.

(** The context block filled by [FillRpcContext]. *)
Record RpcContext : Type := { region_id : Z; region_epoch : RegionEpoch }.

Definition FillRpcContext (id : Z) (epoch : RegionEpoch) : RpcContext :=
  {| region_id := id; region_epoch := epoch |}.

Record RangeWithOptions : Type := {
  range_start_key : string;
  range_end_key : string;
  with_start : bool;
  with_end : bool
}.

(** The request a freshly constructed [KvDeleteRangeRpc] carries before
    [mutable_range] is touched. *)
Definition default_range : RangeWithOptions :=
  {| range_start_key := EmptyString; range_end_key := EmptyString;
     with_start := false; with_end := false |}.

(** The request side of the method-specific RPC objects, as a tagged union
    (the code downcasts a [StoreRpc*] to the subtype it expects). *)
Inductive Rpc : Type :=
| KvBatchGetRpc (context : RpcContext) (keys : list string)
| KvBatchPutRpc (context : RpcContext) (kvs : list KVPair)
| KvBatchPutIfAbsentRpc (context : RpcContext) (kvs : list KVPair) (is_atomic : bool)
| KvBatchDeleteRpc (context : RpcContext) (keys : list string)
| KvDeleteRangeRpc (context : RpcContext) (range : RangeWithOptions)
| KvBatchCompareAndSetRpc (context : RpcContext) (kvs : list KVPair)
    (expect_values : list string).

(** The response fields the orchestrator reads. *)
Record Response : Type := {
  resp_kvs : list KVPair;
  resp_key_states : list bool;
  resp_delete_count : Z
}.

Record SubBatchState : Type := {
  rpc : Rpc;
  region : Region;
  status : Status;
  result_kvs : list KVPair;
  key_op_states : list KeyOpState;
  delete_count : Z
}.

(** [SubBatchState(rpc, region)] *)
Definition new_SubBatchState (r : Rpc) (reg : Region) : SubBatchState :=
  {| rpc := r; region := reg; status := Ok; result_kvs := [];
     key_op_states := []; delete_count := 0 |}.

Definition set_status (sub : SubBatchState) (s : Status) : SubBatchState :=
  {| rpc := rpc sub; region := region sub; status := s;
     result_kvs := result_kvs sub; key_op_states := key_op_states sub;
     delete_count := delete_count sub |}.

Definition push_result_kvs (sub : SubBatchState) (l : list KVPair) : SubBatchState :=
  {| rpc := rpc sub; region := region sub; status := status sub;
     result_kvs := result_kvs sub ++ l; key_op_states := key_op_states sub;
     delete_count := delete_count sub |}.

Definition push_key_op_states (sub : SubBatchState) (l : list KeyOpState) : SubBatchState :=
  {| rpc := rpc sub; region := region sub; status := status sub;
     result_kvs := result_kvs sub; key_op_states := key_op_states sub ++ l;
     delete_count := delete_count sub |}.

Definition set_delete_count (sub : SubBatchState) (n : Z) : SubBatchState :=
  {| rpc := rpc sub; region := region sub; status := status sub;
     result_kvs := result_kvs sub; key_op_states := key_op_states sub;
     delete_count := n |}.

(** [int64_t] arithmetic, two's complement. *)
Definition wrap64 (z : Z) : Z := (z + 2 ^ 63) mod 2 ^ 64 - 2 ^ 63.

(** *** Effects

    What a call does to the outside world is a log of the region lookups it
    asked of the meta cache and of the RPCs it handed to a store controller.
    Sub-batches of one operation run on concurrent threads, each writing its
    own [SubBatchState]; the order of their entries in the log is the order
    of the sub-batch vector and carries no meaning. *)
Inductive Event : Type :=
| EvLookup (k : string)
| EvCall (reg : Region) (r : Rpc).

Definition is_lookup (e : Event) : bool :=
  match e with EvLookup _ => true | EvCall _ _ => false end.

(** Ways a run ends without the function returning: a failed [CHECK]
    aborts the process; [InvalidAccess] is a read through a pointer that
    designates no object. *)
Inductive Fault : Type := CheckFailed | InvalidAccess.

Inductive Res (A : Type) : Type :=
| Val (a : A)
| Return (s : Status)
| Crash (f : Fault)
| OutOfFuel.
Arguments Val {A} a.
Arguments Return {A} s.
Arguments Crash {A} f.
Arguments OutOfFuel {A}.

(** Statements of a function body: a result (or an early [return], or a
    fault) together with the events logged. *)
Definition M (A : Type) : Type := (Res A * list Event)%type.

Definition ret {A} (a : A) : M A := (Val a, []).
Definition return_ {A} (s : Status) : M A := (Return s, []).
Definition crash {A} (f : Fault) : M A := (Crash f, []).
Definition out_of_fuel {A} : M A := (OutOfFuel, []).
Definition emit (e : Event) : M unit := (Val tt, [e]).

Definition bind {A B} (m : M A) (k : A -> M B) : M B :=
  match m with
  | (Val a, t) => let '(r, t') := k a in (r, t ++ t')
  | (Return s, t) => (Return s, t)
  | (Crash f, t) => (Crash f, t)
  | (OutOfFuel, t) => (OutOfFuel, t)
  end.

Declare Scope kv_scope.
Delimit Scope kv_scope with kv.
Notation "'let*' x ':=' c1 'in' c2" := (bind c1 (fun x => c2))
  (at level 10, x pattern, c1 at level 100, c2 at level 200) : kv_scope.
Notation "c1 ;; c2" := (bind c1 (fun _ => c2))
  (at level 100, right associativity) : kv_scope.
Local Open Scope kv_scope.

Fixpoint mapM {A B} (f : A -> M B) (l : list A) : M (list B) :=
  match l with
  | [] => ret []
  | x :: l' => let* y := f x in let* ys := mapM f l' in ret (y :: ys)
  end.

Fixpoint foldM {A B} (f : A -> B -> M A) (l : list B) (a : A) : M A :=
  match l with
  | [] => ret a
  | x :: l' => let* a' := f a x in foldM f l' a'
  end.

(** How a call of a [Status f(inputs, Out& out)] member function ends. *)
Inductive Outcome (O : Type) : Type :=
| Finished (st : Status) (out : O) (log : list Event)
| Crashed (f : Fault) (log : list Event)
| Diverged (log : list Event).
Arguments Finished {O} st out log.
Arguments Crashed {O} f log.
Arguments Diverged {O} log.

(** The body either runs to its final [return result;] after assigning the
    output parameter, or leaves early with the output parameter untouched. *)
Definition run {O} (body : M (Status * O)) (out0 : O) : Outcome O :=
  match body with
  | (Val (st, out), t) => Finished st out t
  | (Return st, t) => Finished st out0 t
  | (Crash f, t) => Crashed f t
  | (OutOfFuel, t) => Diverged t
  end.

(** [m[id].push_back(x)] on a [std::unordered_map<int64_t, std::vector<P>>]:
    [operator[]] creates the empty vector for a new id. *)
Definition push_back {P} (id : Z) (x : P) (m : gmap Z (list P)) : gmap Z (list P) :=
  <[id := default [] (m !! id) ++ [x]]> m.

(** [if (m.find(id) == m.end()) m.emplace(id, r);], and also a bare
    [m.emplace(id, r)]: an entry that is present is kept. *)
Definition emplace (id : Z) (r : Region) (m : gmap Z Region) : gmap Z Region :=
  match m !! id with
  | Some _ => m
  | None => <[id := r]> m
  end.

(** [m.find(id) == m.end()]. *)
Definition not_found {A} (id : Z) (m : gmap Z A) : bool :=
  match m !! id with
  | Some _ => false
  | None => true
  end.

(** *** A sample cluster

    Three regions [a,g), [g,p), [p,z), a meta cache that answers from them by
    range containment, and two stores: one that serves every request and
    one in which region 2 and every point delete fail. *)

Definition sample_epoch : RegionEpoch := {| conf_ver := 1; version := 1 |}.

Definition sample_region (id : Z) (s e : string) : Region :=
  {| RegionId := id; start_key := s; end_key := e; Epoch := sample_epoch |}.

Definition R0 : Region := sample_region 1 "a" "g".
Definition R1 : Region := sample_region 2 "g" "p".
Definition R2 : Region := sample_region 3 "p" "z".
Definition sample_cluster : list Region := [R0; R1; R2].

(** [k] lies in the half-open range of [r]. *)
Definition contains (r : Region) (k : string) : bool :=
  negb (key_lt k (start_key r)) && key_lt k (end_key r).

Definition no_region : Region := sample_region 0 "" "".

Definition cluster_lookup (regions : list Region) (k : string) : Status * Region :=
  match find (fun r => contains r k) regions with
  | Some r => (Ok, r)
  | None => (RegionNotFound, no_region)
  end.

Definition sample_lookup : string -> Status * Region := cluster_lookup sample_cluster.

(** The same cluster with a first region that starts at the empty key. *)
Definition open_region : Region := sample_region 1 "" "g".
Definition open_lookup : string -> Status * Region :=
  cluster_lookup [open_region; R1; R2].

(** A meta cache that answers with two regions under one id. *)
Definition twin_lookup : string -> Status * Region :=
  cluster_lookup [R0; sample_region 1 "g" "p"; R2].

Definition no_response : Response :=
  {| resp_kvs := []; resp_key_states := []; resp_delete_count := 0 |}.

Definition sample_store (reg : Region) (r : Rpc) : Status * Response :=
  match r with
  | KvBatchGetRpc _ keys =>
      (Ok, {| resp_kvs := map (fun k => {| key := k; value := k |}) keys;
              resp_key_states := []; resp_delete_count := 0 |})
  | KvBatchPutIfAbsentRpc _ kvs _ | KvBatchCompareAndSetRpc _ kvs _ =>
      (Ok, {| resp_kvs := []; resp_key_states := map (fun _ => true) kvs;
              resp_delete_count := 0 |})
  | KvDeleteRangeRpc _ _ =>
      (Ok, {| resp_kvs := []; resp_key_states := []; resp_delete_count := 2 |})
  | KvBatchPutRpc _ _ | KvBatchDeleteRpc _ _ => (Ok, no_response)
  end.

Definition flaky_store (reg : Region) (r : Rpc) : Status * Response :=
  match r with
  | KvBatchDeleteRpc _ _ => (Timeout, no_response)
  | _ => if (RegionId reg =? 2)%Z then (Network, no_response) else sample_store reg r
  end.

(** A store that answers OK to everything and fills in nothing. *)
Definition short_store (reg : Region) (r : Rpc) : Status * Response := (Ok, no_response).

Definition sample_iterate (A : Type) (m : gmap Z A) : list (Z * A) := map_to_list m.

(** *** The operations *)

Section Operations.

(** The build: glog compiles [DCHECK] and [DCHECK_EQ] to a [CHECK] unless
    [NDEBUG] is defined, and to nothing when it is. *)
Variable NDEBUG : bool.

(** Whether [DCHECK(cond)] aborts the process. *)
Definition DCHECK_fails (cond : bool) : bool := negb NDEBUG && negb cond.

(** [MetaCache::LookupRegionByKey(key, region)]: the status and the region
    left in the output parameter.  The region is read only when the status
    is OK, and is then never null (the [CHECK_NOTNULL]s of [DeleteRange]). *)
Variable LookupRegionByKey : string -> Status * Region.

(** [StoreRpcController(stub_, rpc, region).Call()]: the status and the
    response left in the RPC object. *)
Variable Call : Region -> Rpc -> Status * Response.

(** The order in which a range-for visits a [std::unordered_map]; it is
    unspecified, any enumeration of the entries is possible. *)
Variable iterate : forall A : Type, gmap Z A -> list (Z * A).

Definition lookup (k : string) : M (Status * Region) :=
  emit (EvLookup k) ;; ret (LookupRegionByKey k).

Definition controller_Call (reg : Region) (r : Rpc) : M (Status * Response) :=
  emit (EvCall reg r) ;; ret (Call reg r).

(** The partition loop shared by the five batch operations: look up each
    input's key, leave on the first failed lookup, remember the region of
    each new id and append the input to the vector of its region id. *)
Definition partition_step {P} (key_of : P -> string)
    (acc : gmap Z Region * gmap Z (list P)) (x : P)
  : M (gmap Z Region * gmap Z (list P)) :=
  let '(region_id_to_region, region_inputs) := acc in
  let* (got, tmp) := lookup (key_of x) in
  if negb (IsOK got) then return_ got
  else ret (emplace (RegionId tmp) tmp region_id_to_region,
            push_back (RegionId tmp) x region_inputs).

Definition partition_by_region {P} (key_of : P -> string) (inputs : list P)
  : M (gmap Z Region * gmap Z (list P)) :=
  foldM (partition_step key_of) inputs (∅, ∅).

(** The loop that builds one RPC and one [SubBatchState] per map entry.  It
    pushes one RPC and one state per entry, so the two [CHECK_EQ]s on the
    sizes behind it always hold. *)
Definition build_sub_batch {P} (make_rpc : RpcContext -> list P -> Rpc)
    (region_id_to_region : gmap Z Region) (entry : Z * list P) : M SubBatchState :=
  let '(id, payload) := entry in
  match region_id_to_region !! id with
  | None => crash CheckFailed
  | Some reg =>
      ret (new_SubBatchState (make_rpc (FillRpcContext id (Epoch reg)) payload) reg)
  end.

Definition build_sub_batches {P} (make_rpc : RpcContext -> list P -> Rpc)
    (region_id_to_region : gmap Z Region) (region_inputs : gmap Z (list P))
  : M (list SubBatchState) :=
  mapM (build_sub_batch make_rpc region_id_to_region) (iterate _ region_inputs).

(** Partition, then build: the first half of every batch operation. *)
Definition scatter {P} (key_of : P -> string) (make_rpc : RpcContext -> list P -> Rpc)
    (inputs : list P) : M (list SubBatchState) :=
  let* (region_id_to_region, region_inputs) := partition_by_region key_of inputs in
  build_sub_batches make_rpc region_id_to_region region_inputs.

(** Threads for the sub-batches [1 .. n-1], then the first one inline through
    [sub_batch_state.data()], then the joins.  On an empty vector [data()]
    designates no element and the inline call reads through it. *)
Definition fan_out (process : SubBatchState -> M SubBatchState)
    (sub_batch_state : list SubBatchState) : M (list SubBatchState) :=
  let* others := mapM process (tail sub_batch_state) in
  match head sub_batch_state with
  | None => crash InvalidAccess
  | Some first => let* first' := process first in ret (first' :: others)
  end.

(** The reduce loops. *)
Definition first_fail (result : Status) (st : SubBatchState) : Status :=
  if negb (IsOK (status st)) then
    (if IsOK result then status st else result)
  else result.

Definition reduce_status (sub_batch_state : list SubBatchState) : Status :=
  fold_left first_fail sub_batch_state Ok.

Definition reduce_step {A} (slot : SubBatchState -> list A)
    (acc : Status * list A) (st : SubBatchState) : Status * list A :=
  let '(result, tmp) := acc in
  if negb (IsOK (status st)) then
    ((if IsOK result then status st else result), tmp)
  else (result, tmp ++ slot st).

Definition reduce {A} (slot : SubBatchState -> list A)
    (sub_batch_state : list SubBatchState) : Status * list A :=
  fold_left (reduce_step slot) sub_batch_state (Ok, []).

(** **** BatchGet (lines 60-147 of [raw_kv_impl.cc]) *)

Definition ProcessSubBatchGet (sub : SubBatchState) : M SubBatchState :=
  match rpc sub with
  | KvBatchGetRpc _ _ =>
      let* (call, resp) := controller_Call (region sub) (rpc sub) in
      if IsOK call then ret (set_status (push_result_kvs sub (resp_kvs resp)) call)
      else ret (set_status sub call)
  | _ => crash CheckFailed
  end.

Definition BatchGet_build (keys : list string) : M (list SubBatchState) :=
  scatter id KvBatchGetRpc keys.

Definition BatchGet_dispatch (keys : list string) : M (list SubBatchState) :=
  let* sub_batch_state := BatchGet_build keys in
  fan_out ProcessSubBatchGet sub_batch_state.

Definition BatchGet_body (keys : list string) : M (Status * list KVPair) :=
  let* sub_batch_state := BatchGet_dispatch keys in
  ret (reduce result_kvs sub_batch_state).

Definition BatchGet (keys : list string) (kvs : list KVPair) : Outcome (list KVPair) :=
  run (BatchGet_body keys) kvs.

(** **** BatchPut (lines 168-242) *)

Definition ProcessSubBatchPut (sub : SubBatchState) : M SubBatchState :=
  match rpc sub with
  | KvBatchPutRpc _ _ =>
      let* (call, _) := controller_Call (region sub) (rpc sub) in
      ret (set_status sub call)
  | _ => crash CheckFailed
  end.

Definition BatchPut_build (kvs : list KVPair) : M (list SubBatchState) :=
  scatter key KvBatchPutRpc kvs.

Definition BatchPut_dispatch (kvs : list KVPair) : M (list SubBatchState) :=
  let* sub_batch_put_state := BatchPut_build kvs in
  fan_out ProcessSubBatchPut sub_batch_put_state.

Definition BatchPut_body (kvs : list KVPair) : M (Status * unit) :=
  let* sub_batch_put_state := BatchPut_dispatch kvs in
  ret (reduce_status sub_batch_put_state, tt).

Definition BatchPut (kvs : list KVPair) : Outcome unit :=
  run (BatchPut_body kvs) tt.

(** **** BatchPutIfAbsent (lines 267-357) *)

Definition make_key_op_states (kvs : list KVPair) (key_states : list bool)
  : list KeyOpState :=
  zip_with (fun kv st => {| op_key := key kv; state := st |}) kvs key_states.

Definition ProcessSubBatchPutIfAbsent (sub : SubBatchState) : M SubBatchState :=
  match rpc sub with
  | KvBatchPutIfAbsentRpc _ kvs _ =>
      let* (call, resp) := controller_Call (region sub) (rpc sub) in
      if IsOK call then
        if negb (length kvs =? length (resp_key_states resp))%nat then crash CheckFailed
        else ret (set_status
                    (push_key_op_states sub (make_key_op_states kvs (resp_key_states resp)))
                    call)
      else ret (set_status sub call)
  | _ => crash CheckFailed
  end.

Definition make_put_if_absent_rpc (ctx : RpcContext) (l : list KVPair) : Rpc :=
  KvBatchPutIfAbsentRpc ctx l true.

Definition BatchPutIfAbsent_build (kvs : list KVPair) : M (list SubBatchState) :=
  scatter key make_put_if_absent_rpc kvs.

Definition BatchPutIfAbsent_dispatch (kvs : list KVPair) : M (list SubBatchState) :=
  let* sub_batch_state := BatchPutIfAbsent_build kvs in
  fan_out ProcessSubBatchPutIfAbsent sub_batch_state.

Definition BatchPutIfAbsent_body (kvs : list KVPair) : M (Status * list KeyOpState) :=
  let* sub_batch_state := BatchPutIfAbsent_dispatch kvs in
  ret (reduce key_op_states sub_batch_state).

Definition BatchPutIfAbsent (kvs : list KVPair) (states : list KeyOpState)
  : Outcome (list KeyOpState) :=
  run (BatchPutIfAbsent_body kvs) states.

(** **** Delete and BatchDelete (lines 359-454) *)

Definition Delete (k : string) : M Status :=
  let* (ret_, reg) := lookup k in
  if IsOK ret_ then
    let* (ret_, _) :=
      controller_Call reg
        (KvBatchDeleteRpc (FillRpcContext (RegionId reg) (Epoch reg)) [k]) in
    ret ret_
  else ret ret_.

Definition ProcessSubBatchDelete (sub : SubBatchState) : M SubBatchState :=
  match rpc sub with
  | KvBatchDeleteRpc _ _ =>
      let* (call, _) := controller_Call (region sub) (rpc sub) in
      ret (set_status sub call)
  | _ => crash CheckFailed
  end.

Definition BatchDelete_build (keys : list string) : M (list SubBatchState) :=
  scatter id KvBatchDeleteRpc keys.

Definition BatchDelete_dispatch (keys : list string) : M (list SubBatchState) :=
  let* sub_batch_state := BatchDelete_build keys in
  fan_out ProcessSubBatchDelete sub_batch_state.

Definition BatchDelete_body (keys : list string) : M (Status * unit) :=
  let* sub_batch_state := BatchDelete_dispatch keys in
  ret (reduce_status sub_batch_state, tt).

Definition BatchDelete (keys : list string) : Outcome unit :=
  run (BatchDelete_body keys) tt.

(** **** BatchCompareAndSet (lines 642-745) *)

Record CompareAndSetContext : Type := { kv_pair : KVPair; expected_value : string }.

Definition make_compare_and_set_rpc (ctx : RpcContext) (l : list CompareAndSetContext)
  : Rpc :=
  KvBatchCompareAndSetRpc ctx (map kv_pair l) (map expected_value l).

Definition ProcessSubBatchCompareAndSet (sub : SubBatchState) : M SubBatchState :=
  match rpc sub with
  | KvBatchCompareAndSetRpc _ kvs _ =>
      let* (call, resp) := controller_Call (region sub) (rpc sub) in
      if IsOK call then
        if negb (length kvs =? length (resp_key_states resp))%nat then crash CheckFailed
        else ret (set_status
                    (push_key_op_states sub (make_key_op_states kvs (resp_key_states resp)))
                    call)
      else ret (set_status sub call)
  | _ => crash CheckFailed
  end.

Definition size_mismatch_message (n m : nat) : string :=
  "kvs size:" +:+ pretty n +:+ " must equal expected_values size:" +:+ pretty m.

Definition compare_and_set_key (c : CompareAndSetContext) : string := key (kv_pair c).

Definition compare_and_set_inputs (kvs : list KVPair) (expected_values : list string)
  : list CompareAndSetContext :=
  zip_with (fun kv e => {| kv_pair := kv; expected_value := e |}) kvs expected_values.

(** The partition loop runs over the indices of [kvs] and reads
    [expected_values[i]]; behind the size test both vectors have the same
    length, so the loop visits the pairs of [compare_and_set_inputs]. *)
Definition BatchCompareAndSet_build (kvs : list KVPair) (expected_values : list string)
  : M (list SubBatchState) :=
  if negb (length kvs =? length expected_values)%nat then
    return_ (InvalidArgument
               (size_mismatch_message (length kvs) (length expected_values)))
  else
    let* (region_id_to_region, region_kvs) :=
      partition_by_region compare_and_set_key
        (compare_and_set_inputs kvs expected_values) in
    if negb (size region_id_to_region =? size region_kvs)%nat then crash CheckFailed
    else build_sub_batches make_compare_and_set_rpc region_id_to_region region_kvs.

Definition BatchCompareAndSet_dispatch (kvs : list KVPair)
    (expected_values : list string) : M (list SubBatchState) :=
  let* sub_batch_state := BatchCompareAndSet_build kvs expected_values in
  fan_out ProcessSubBatchCompareAndSet sub_batch_state.

Definition BatchCompareAndSet_body (kvs : list KVPair) (expected_values : list string)
  : M (Status * list KeyOpState) :=
  let* sub_batch_state := BatchCompareAndSet_dispatch kvs expected_values in
  ret (reduce key_op_states sub_batch_state).

Definition BatchCompareAndSet (kvs : list KVPair) (expected_values : list string)
    (states : list KeyOpState) : Outcome (list KeyOpState) :=
  run (BatchCompareAndSet_body kvs expected_values) states.

(** **** DeleteRange (lines 456-616) *)

Record DeleteRangeContext : Type := {
  dr_start : string;
  dr_with_start : bool;
  dr_end : string;
  dr_with_end : bool
}.

(** The locals the walker updates. *)
Record WalkState : Type := {
  region_id_to_region : gmap Z Region;
  to_delete : gmap Z (list DeleteRangeContext);
  next : string;
  delete_end_key : bool
}.

(** The block "process start key". *)
Definition process_start (start end_ : string) (with_start with_end : bool)
    (tmp : Region) : M WalkState :=
  let region_id_to_region := emplace (RegionId tmp) tmp ∅ in
  if key_lt end_ (end_key tmp) then
    ret {| region_id_to_region := region_id_to_region;
           to_delete := push_back (RegionId tmp)
             {| dr_start := start; dr_with_start := with_start;
                dr_end := end_; dr_with_end := with_end |} ∅;
           next := EmptyString; delete_end_key := false |}
  else if key_lt (end_key tmp) end_ then
    ret {| region_id_to_region := region_id_to_region;
           to_delete := push_back (RegionId tmp)
             {| dr_start := start; dr_with_start := with_start;
                dr_end := end_key tmp; dr_with_end := false |} ∅;
           next := end_key tmp; delete_end_key := false |}
  else if negb (key_eq end_ (end_key tmp)) then crash CheckFailed
  else
    ret {| region_id_to_region := region_id_to_region;
           to_delete := push_back (RegionId tmp)
             {| dr_start := start; dr_with_start := with_start;
                dr_end := end_; dr_with_end := false |} ∅;
           next := EmptyString;
           delete_end_key := if with_end then true else false |}.

(** The loop "process others": [while (!next.empty())], one unit of fuel per
    iteration.  The [DCHECK] of line 527 demands that the id of the region
    just looked up is not yet in the region map. *)
Fixpoint process_others (fuel : nat) (end_ : string) (with_end : bool)
    (st : WalkState) : M WalkState :=
  if key_empty (next st) then ret st
  else
    match fuel with
    | O => out_of_fuel
    | S fuel' =>
        if key_eq (next st) end_ then crash CheckFailed
        else if delete_end_key st then crash CheckFailed
        else
          let* (got, tmp) := lookup (next st) in
          if negb (IsOK got) then return_ got
          else if DCHECK_fails (not_found (RegionId tmp) (region_id_to_region st))
          then crash CheckFailed
          else
            let region_id_to_region :=
              emplace (RegionId tmp) tmp (region_id_to_region st) in
            if key_lt end_ (end_key tmp) then
              ret {| region_id_to_region := region_id_to_region;
                     to_delete := push_back (RegionId tmp)
                       {| dr_start := next st; dr_with_start := true;
                          dr_end := end_; dr_with_end := with_end |} (to_delete st);
                     next := next st; delete_end_key := delete_end_key st |}
            else if key_lt (end_key tmp) end_ then
              process_others fuel' end_ with_end
                {| region_id_to_region := region_id_to_region;
                   to_delete := push_back (RegionId tmp)
                     {| dr_start := next st; dr_with_start := true;
                        dr_end := end_key tmp; dr_with_end := false |} (to_delete st);
                   next := end_key tmp; delete_end_key := delete_end_key st |}
            else if negb (key_eq end_ (end_key tmp)) then crash CheckFailed
            else
              ret {| region_id_to_region := region_id_to_region;
                     to_delete := push_back (RegionId tmp)
                       {| dr_start := next st; dr_with_start := true;
                          dr_end := end_; dr_with_end := false |} (to_delete st);
                     next := next st;
                     delete_end_key :=
                       if with_end then true else delete_end_key st |}
    end.

(** The walk: the lookup of [start], "process start key", the [CHECK_NE]
    between the blocks and "process others". *)
Definition DeleteRange_walk (fuel : nat) (start end_ : string)
    (with_start with_end : bool) : M WalkState :=
  let* (got, tmp) := lookup start in
  if negb (IsOK got) then return_ got
  else
    let* st := process_start start end_ with_start with_end tmp in
    if key_eq (next st) end_ then crash CheckFailed
    else process_others fuel end_ with_end st.

(** Each context of an entry writes the one [range] field of the request:
    the last one stays. *)
Definition set_range (_ : RangeWithOptions) (delete_range : DeleteRangeContext)
  : RangeWithOptions :=
  {| range_start_key := dr_start delete_range;
     range_end_key := dr_end delete_range;
     with_start := dr_with_start delete_range;
     with_end := dr_with_end delete_range |}.

Definition make_delete_range_rpc (ctx : RpcContext) (l : list DeleteRangeContext) : Rpc :=
  KvDeleteRangeRpc ctx (fold_left set_range l default_range).

(** The [DCHECK_EQ] on the sizes of the two maps (line 547), then the loop
    over [to_delete]. *)
Definition DeleteRange_build (st : WalkState) : M (list SubBatchState) :=
  if DCHECK_fails (size (region_id_to_region st) =? size (to_delete st))%nat
  then crash CheckFailed
  else build_sub_batches make_delete_range_rpc (region_id_to_region st) (to_delete st).

Definition ProcessSubBatchDeleteRange (sub : SubBatchState) : M SubBatchState :=
  match rpc sub with
  | KvDeleteRangeRpc _ _ =>
      let* (call, resp) := controller_Call (region sub) (rpc sub) in
      ret (set_delete_count (set_status sub call) (resp_delete_count resp))
  | _ => crash CheckFailed
  end.

(** "process end key": the compensating point delete. *)
Definition process_end_key (delete_end_key : bool) (end_ : string) : M (Z * Status) :=
  if delete_end_key then
    let* delete_status := Delete end_ in
    if IsOK delete_status then ret (wrap64 (0 + 1), Ok)
    else ret (0, delete_status)
  else ret (0, Ok).

Definition count_step (acc : Z * Status) (st : SubBatchState) : Z * Status :=
  let '(tmp_delete_count, result) := acc in
  if negb (IsOK (status st)) then
    (tmp_delete_count, if IsOK result then status st else result)
  else (wrap64 (tmp_delete_count + delete_count st), result).

(** One thread per sub-batch; the point delete runs on the calling thread
    before the joins. *)
Definition DeleteRange_dispatch (fuel : nat) (start end_ : string)
    (with_start with_end : bool) : M (WalkState * list SubBatchState) :=
  let* st := DeleteRange_walk fuel start end_ with_start with_end in
  let* sub_batch_state := DeleteRange_build st in
  let* sub_batch_state := mapM ProcessSubBatchDeleteRange sub_batch_state in
  ret (st, sub_batch_state).

Definition DeleteRange_body (fuel : nat) (start end_ : string)
    (with_start with_end : bool) : M (Status * Z) :=
  if negb (key_lt start end_) then return_ (IllegalState "start key must < end key")
  else
    let* (st, sub_batch_state) :=
      DeleteRange_dispatch fuel start end_ with_start with_end in
    let* acc := process_end_key (delete_end_key st) end_ in
    let '(tmp_delete_count, result) := fold_left count_step sub_batch_state acc in
    ret (result, tmp_delete_count).

Definition DeleteRange (fuel : nat) (start end_ : string) (with_start with_end : bool)
    (delete_count : Z) : Outcome Z :=
  run (DeleteRange_body fuel start end_ with_start with_end) delete_count.

(** *** Vocabulary of the statements *)

Definition lookup_ok (k : string) : Prop := IsOK (LookupRegionByKey k).1 = true.

Definition region_of {P} (key_of : P -> string) (x : P) : Region :=
  (LookupRegionByKey (key_of x)).2.

Definition region_id_of {P} (key_of : P -> string) (x : P) : Z :=
  RegionId (region_of key_of x).

(** The inputs the lookups send to region id [i], in input order. *)
Definition inputs_of {P} (key_of : P -> string) (inputs : list P) (i : Z) : list P :=
  filter (fun x => region_id_of key_of x = i) inputs.

(** [subs] is the partition of [inputs] by [LookupRegionByKey]: the region
    ids are pairwise distinct, every input's region id has its sub-request,
    and each sub-request is the fresh state for the region of one of the
    inputs, carrying exactly the inputs that look up to its id.
    [request ctx l] is the request of the operation for the inputs [l] of
    one region, given by its fields. *)
Definition partitioned {P} (key_of : P -> string)
    (request : RpcContext -> list P -> Rpc)
    (inputs : list P) (subs : list SubBatchState) : Prop :=
  NoDup (map (fun s => RegionId (region s)) subs) /\
  (forall x, x ∈ inputs ->
     exists s, s ∈ subs /\ RegionId (region s) = region_id_of key_of x) /\
  (forall s, s ∈ subs ->
     (exists x, x ∈ inputs /\ region_of key_of x = region s) /\
     s = new_SubBatchState
           (request (FillRpcContext (RegionId (region s)) (Epoch (region s)))
              (inputs_of key_of inputs (RegionId (region s))))
           (region s)) /\
  concat (map (fun s => inputs_of key_of inputs (RegionId (region s))) subs) ≡ₚ inputs.

(** What one successful turn of the partition loop does to the two maps. *)
Definition group_step {P} (key_of : P -> string)
    (acc : gmap Z Region * gmap Z (list P)) (x : P) : gmap Z Region * gmap Z (list P) :=
  (emplace (region_id_of key_of x) (region_of key_of x) acc.1,
   push_back (region_id_of key_of x) x acc.2).

(** **** The range walk, as the design describes it *)

Definition region_at (k : string) : Region := (LookupRegionByKey k).2.

(** The lookup contract of the meta cache: a region that is found contains
    the key that was looked up. *)
Definition lookup_contains : Prop :=
  forall k, lookup_ok k -> contains (region_at k) k = true.

(** Region ids are unique: two lookups that give the same id give the same
    region. *)
Definition region_ids_unique : Prop :=
  forall k1 k2, lookup_ok k1 -> lookup_ok k2 ->
    RegionId (region_at k1) = RegionId (region_at k2) -> region_at k1 = region_at k2.

(** Every region the meta cache can answer with is one of [cluster]. *)
Definition regions_within (cluster : list Region) : Prop :=
  forall k, lookup_ok k -> region_at k ∈ cluster.

(** The three-way case analysis on [end] against the end key of region [R],
    for a sub-range that starts at [s] with inclusivity [ws]: the
    sub-request emitted, the key to continue at (if any) and whether the
    point delete of [end] is scheduled. *)
Inductive three_way (end_ : string) (with_end : bool) (s : string) (ws : bool)
    (R : Region) : DeleteRangeContext -> option string -> bool -> Prop :=
| tw_inside :
    key_lt end_ (end_key R) = true ->
    three_way end_ with_end s ws R
      {| dr_start := s; dr_with_start := ws; dr_end := end_; dr_with_end := with_end |}
      None false
| tw_beyond :
    key_lt (end_key R) end_ = true ->
    three_way end_ with_end s ws R
      {| dr_start := s; dr_with_start := ws; dr_end := end_key R; dr_with_end := false |}
      (Some (end_key R)) false
| tw_boundary :
    end_ = end_key R ->
    three_way end_ with_end s ws R
      {| dr_start := s; dr_with_start := ws; dr_end := end_; dr_with_end := false |}
      None with_end.

(** The walk from [s]: look up the region containing [s], apply the case
    analysis, and continue at [next] with an inclusive start while there is
    one.  [emitted] lists the regions visited with the sub-request of each,
    in the order of the walk. *)
Inductive spec_walk (end_ : string) (with_end : bool)
  : string -> bool -> list (Region * DeleteRangeContext) -> bool -> Prop :=
| walk_stop s ws c dek :
    lookup_ok s ->
    three_way end_ with_end s ws (region_at s) c None dek ->
    spec_walk end_ with_end s ws [(region_at s, c)] dek
| walk_on s ws c next_ rest dek :
    lookup_ok s ->
    three_way end_ with_end s ws (region_at s) c (Some next_) false ->
    spec_walk end_ with_end next_ true rest dek ->
    spec_walk end_ with_end s ws ((region_at s, c) :: rest) dek.

(** [st] is the status of a lookup that failed. *)
Definition lookup_failure (st : Status) : Prop :=
  exists k, ~ lookup_ok k /\ st = (LookupRegionByKey k).1.

(** The log holds region lookups and nothing else. *)
Definition only_lookups (log : list Event) : Prop :=
  Forall (fun e => is_lookup e = true) log.

(** The two maps of the walker after the sub-requests [emitted]. *)
Definition push_emitted (m : gmap Z (list DeleteRangeContext))
    (e : Region * DeleteRangeContext) : gmap Z (list DeleteRangeContext) :=
  push_back (RegionId e.1) e.2 m.

Definition emplace_emitted (m : gmap Z Region) (e : Region * DeleteRangeContext)
  : gmap Z Region :=
  emplace (RegionId e.1) e.1 m.

Definition range_of (c : DeleteRangeContext) : RangeWithOptions :=
  {| range_start_key := dr_start c; range_end_key := dr_end c;
     with_start := dr_with_start c; with_end := dr_with_end c |}.

(** The sub-batch state built for one sub-request of the walk. *)
Definition delete_range_sub (e : Region * DeleteRangeContext) : SubBatchState :=
  new_SubBatchState
    (KvDeleteRangeRpc (FillRpcContext (RegionId e.1) (Epoch e.1)) (range_of e.2)) e.1.

(** The keys a range with options covers. *)
Definition covers (rg : RangeWithOptions) (k : string) : Prop :=
  (key_lt (range_start_key rg) k = true \/
   (with_start rg = true /\ k = range_start_key rg)) /\
  (key_lt k (range_end_key rg) = true \/
   (with_end rg = true /\ k = range_end_key rg)).

(** The keys the request of a sub-batch covers. *)
Definition sub_covers (s : SubBatchState) (k : string) : Prop :=
  match rpc s with
  | KvDeleteRangeRpc _ rg => covers rg k
  | _ => False
  end.

(** The sum of the counts of the sub-batches that succeeded. *)
Definition ok_delete_count (subs : list SubBatchState) : Z :=
  foldr Z.add 0 (map delete_count (filter (fun s => IsOK (status s) = true) subs)).

Definition in_int64 (z : Z) : Prop := - 2 ^ 63 <= z < 2 ^ 63.

Definition is_point_delete (e : Event) : bool :=
  match e with
  | EvCall _ (KvBatchDeleteRpc _ _) => true
  | _ => false
  end.

(** What the walk logs, whatever the meta cache answers. *)
Definition walk_logged {A} (m : M A) : Prop :=
  only_lookups m.2 /\ forall st, m.1 = Return st -> lookup_failure st.

(** The two maps of the walker hold the same region ids. *)
Definition walk_covered (wst : WalkState) : Prop :=
  forall i, is_Some (region_id_to_region wst !! i) <-> is_Some (to_delete wst !! i).

(** Why the debug check of the loop holds from [wst] on: either the build
    leaves it out, or the meta cache obeys the lookup contract with unique
    ids and every region in the region map was found by a lookup and ends at
    or before [next]. *)
Definition debug_check_holds (wst : WalkState) : Prop :=
  NDEBUG = true \/
  (lookup_contains /\ region_ids_unique /\
   exists visited : list Region,
     (forall R, R ∈ visited -> exists k, lookup_ok k /\ region_at k = R) /\
     (forall i, is_Some (region_id_to_region wst !! i) ->
        exists R, R ∈ visited /\ RegionId R = i) /\
     (forall R, R ∈ visited -> key_lt (next wst) (end_key R) = false)).

(** The walk did not fail a check, and what it yields is covered. *)
Definition walk_safe (m : M WalkState) : Prop :=
  match m.1 with
  | Val wst => walk_covered wst
  | Crash _ => False
  | Return _ | OutOfFuel => True
  end.

(** The event of handing the request of a sub-batch to its region. *)
Definition call_of (s : SubBatchState) : Event := EvCall (region s) (rpc s).

(** The number of point deletes a log holds. *)
Definition point_deletes (log : list Event) : nat :=
  length (filter (fun e => is_point_delete e = true) log).

(** A range sub-batch after its thread ran. *)
Definition processed (s : SubBatchState) : SubBatchState :=
  set_delete_count (set_status s (Call (region s) (rpc s)).1)
    (resp_delete_count (Call (region s) (rpc s)).2).

Definition emitted_id (e : Region * DeleteRangeContext) : Z := RegionId e.1.

Definition log_of {O} (o : Outcome O) : list Event :=
  match o with
  | Finished _ _ log | Crashed _ log | Diverged log => log
  end.

(** The state built for one entry of the payload map. *)
Definition built {P} (key_of : P -> string) (make_rpc : RpcContext -> list P -> Rpc)
    (inputs : list P) (e : Z * list P) (s : SubBatchState) : Prop :=
  exists x0, x0 ∈ inputs /\ region_id_of key_of x0 = e.1 /\
    e.2 = inputs_of key_of inputs e.1 /\
    s = new_SubBatchState
          (make_rpc (FillRpcContext e.1 (Epoch (region_of key_of x0))) e.2)
          (region_of key_of x0).

(** The store answers a batched conditional write with one key state per
    key-value pair of the request (what the [CHECK_EQ] in the two processing
    functions asserts). *)
Definition key_states_match : Prop :=
  forall reg r, IsOK (Call reg r).1 = true ->
    match r with
    | KvBatchPutIfAbsentRpc _ kvs _ | KvBatchCompareAndSetRpc _ kvs _ =>
        length (resp_key_states (Call reg r).2) = length kvs
    | _ => True
    end.

(** The store answers the request of [s] in full: with an OK status comes
    one key state per key-value pair of a conditional write. *)
Definition answered_in_full (s : SubBatchState) : bool :=
  negb (IsOK (Call (region s) (rpc s)).1) ||
  match rpc s with
  | KvBatchPutIfAbsentRpc _ kvs _ | KvBatchCompareAndSetRpc _ kvs _ =>
      (length kvs =? length (resp_key_states (Call (region s) (rpc s)).2))%nat
  | _ => true
  end.

(** A batch over [keys] is aborted by a failed lookup: the lookups before
    the first failing key [k] succeeded, the build phase left with the status
    of the lookup of [k] and built no sub-batch vector, the log holds the
    lookups up to [k] and nothing else, and the call returned that status
    with the output parameter as it was. *)
Definition aborted_by_lookup {O} (keys : list string)
    (build : M (list SubBatchState)) (outcome : Outcome O) (out0 : O) : Prop :=
  exists pre k post,
    keys = pre ++ k :: post /\ Forall lookup_ok pre /\ ~ lookup_ok k /\
    build = (Return (LookupRegionByKey k).1, map EvLookup (pre ++ [k])) /\
    outcome = Finished (LookupRegionByKey k).1 out0 (map EvLookup (pre ++ [k])).

(** [st] is the aggregate of the statuses of [subs]: OK exactly when all of
    them are, and otherwise the status of the first one that is not. *)
Definition aggregate_of (subs : list SubBatchState) (st : Status) : Prop :=
  (st = Ok <-> Forall (fun s => status s = Ok) subs) /\
  (forall l1 s l2, subs = l1 ++ s :: l2 ->
     Forall (fun s => status s = Ok) l1 -> status s <> Ok -> st = status s).

(** The first status in vector order that is not OK, if any. *)
Definition first_non_ok (subs : list SubBatchState) : Status :=
  match find (fun s => negb (IsOK (status s))) subs with
  | Some s => status s
  | None => Ok
  end.

(** The results of the sub-batches that succeeded, concatenated. *)
Definition merged {A} (slot : SubBatchState -> list A) (subs : list SubBatchState)
  : list A :=
  concat (map slot (filter (fun s => IsOK (status s) = true) subs)).


(** *** Order on keys *)

Lemma key_lt_compare a b : key_lt a b = true <-> String.compare a b = Lt.
Proof. unfold key_lt, String.ltb. destruct (String.compare a b); split; congruence. Qed.

Lemma key_lt_trans a b c : key_lt a b = true -> key_lt b c = true -> key_lt a c = true.
Proof.
  rewrite !key_lt_compare, !OrderedTypeEx.String_as_OT.cmp_lt.
  apply OrderedTypeEx.String_as_OT.lt_trans.
Qed.

Lemma key_lt_irrefl a : key_lt a a = false.
Proof.
  destruct (key_lt a a) eqn:E; [|done].
  apply key_lt_compare in E.
  assert (String.compare a a = Eq) by (by apply OrderedTypeEx.String_as_OT.cmp_eq).
  congruence.
Qed.

Lemma key_lt_total a b : key_lt a b = false -> key_lt b a = false -> a = b.
Proof.
  unfold key_lt, String.ltb. rewrite (String.compare_antisym a b).
  destruct (String.compare b a) eqn:E; simpl; try congruence.
  intros _ _. symmetry. by apply String.compare_eq_iff.
Qed.

Lemma key_lt_asym a b : key_lt a b = true -> key_lt b a = false.
Proof.
  intros H. destruct (key_lt b a) eqn:E; [|done].
  pose proof (key_lt_trans _ _ _ H E) as H1. by rewrite key_lt_irrefl in H1.
Qed.

Lemma key_lt_empty a : key_lt a EmptyString = false.
Proof. by destruct a. Qed.

Lemma key_eq_true a b : key_eq a b = true <-> a = b.
Proof. apply String.eqb_eq. Qed.

Lemma key_eq_false a b : key_eq a b = false <-> a <> b.
Proof. apply String.eqb_neq. Qed.

Lemma key_empty_true a : key_empty a = true <-> a = EmptyString.
Proof. apply String.eqb_eq. Qed.

(** [a <= b] on keys, as the negation of [b < a]. *)
Lemma key_le_lt_trans a b c : key_lt b a = false -> key_lt b c = true -> key_lt a c = true.
Proof.
  intros Hab Hbc. destruct (key_lt a b) eqn:E.
  - by eapply key_lt_trans.
  - by rewrite (key_lt_total _ _ E Hab).
Qed.

Lemma key_lt_le_trans a b c : key_lt a b = true -> key_lt c b = false -> key_lt a c = true.
Proof.
  intros Hab Hbc. destruct (key_lt b c) eqn:E.
  - by eapply key_lt_trans.
  - by rewrite <- (key_lt_total _ _ E Hbc).
Qed.

Lemma key_le_trans a b c : key_lt b a = false -> key_lt c b = false -> key_lt c a = false.
Proof.
  intros Hab Hbc. destruct (key_lt c a) eqn:E; [|done].
  pose proof (key_lt_le_trans _ _ _ E Hab) as H. congruence.
Qed.

Arguments key_lt : simpl never.
Arguments key_eq : simpl never.
Arguments key_empty : simpl never.
Arguments wrap64 : simpl never.

(** *** Statuses *)

Lemma IsOK_true s : IsOK s = true <-> s = Ok.
Proof. destruct s; simpl; split; congruence. Qed.

Lemma IsOK_false s : IsOK s = false <-> s <> Ok.
Proof. destruct s; simpl; split; congruence. Qed.

(** *** The statement monad *)

Lemma bind_Val_inv {A B} (m : M A) (k : A -> M B) b t :
  bind m k = (Val b, t) ->
  exists a t1 t2, m = (Val a, t1) /\ k a = (Val b, t2) /\ t = t1 ++ t2.
Proof.
  destruct m as [[a| | |] t1]; simpl; try discriminate.
  destruct (k a) as [r t2] eqn:E. intros [= -> <-]. eauto 6.
Qed.

Lemma bind_Val_run {A B} (m : M A) (k : A -> M B) a t1 :
  m = (Val a, t1) -> bind m k = ((k a).1, t1 ++ (k a).2).
Proof. intros ->. simpl. by destruct (k a). Qed.

Lemma bind_Return_run {A B} (m : M A) (k : A -> M B) s t1 :
  m = (Return s, t1) -> bind m k = (Return s, t1).
Proof. by intros ->. Qed.

Lemma run_bind_ret {A O} (m : M A) (f : A -> Status * O) a t out0 :
  m = (Val a, t) ->
  run (let* x := m in ret (f x)) out0 = Finished (f a).1 (f a).2 t.
Proof.
  intros ->. unfold run. simpl. rewrite app_nil_r. by destruct (f a).
Qed.

Lemma mapM_pure {A B} (f : A -> M B) (g : A -> B) (h : A -> list Event) l :
  (forall x, x ∈ l -> f x = (Val (g x), h x)) ->
  mapM f l = (Val (map g l), concat (map h l)).
Proof.
  induction l as [|x l IH]; intros Hf; [done|].
  simpl. rewrite (Hf x) by apply list_elem_of_here. simpl.
  rewrite IH by (intros y Hy; apply Hf; by apply list_elem_of_further).
  simpl. by rewrite app_nil_r.
Qed.

Lemma mapM_Val_inv {A B} (f : A -> M B) l l' t :
  mapM f l = (Val l', t) ->
  Forall2 (fun x y => exists tx, f x = (Val y, tx)) l l'.
Proof.
  revert l' t. induction l as [|x l IH]; intros l' t; simpl.
  - intros [= <- <-]. constructor.
  - intros H. apply bind_Val_inv in H as (y & t1 & t2 & Hx & H & ->).
    apply bind_Val_inv in H as (ys & t3 & t4 & Hl & H & ->).
    injection H as <- <-. constructor; eauto.
Qed.

(** *** The reduce loops *)

Lemma first_fail_fold subs r :
  fold_left first_fail subs r = if IsOK r then first_non_ok subs else r.
Proof.
  revert r. induction subs as [|s subs IH]; intros r; simpl.
  - unfold first_non_ok. simpl. by destruct r.
  - rewrite IH. unfold first_fail, first_non_ok. simpl.
    destruct (IsOK (status s)) eqn:Es; simpl.
    + done.
    + destruct (IsOK r) eqn:Er; simpl; [by rewrite Es | by rewrite Er].
Qed.

Lemma reduce_status_spec subs : reduce_status subs = first_non_ok subs.
Proof. unfold reduce_status. by rewrite first_fail_fold. Qed.

Lemma reduce_fold {A} (slot : SubBatchState -> list A) subs r acc :
  fold_left (reduce_step slot) subs (r, acc)
  = ((if IsOK r then first_non_ok subs else r), acc ++ merged slot subs).
Proof.
  revert r acc. induction subs as [|s subs IH]; intros r acc; simpl.
  - unfold first_non_ok, merged. simpl. rewrite app_nil_r. by destruct r.
  - unfold merged, first_non_ok. simpl. rewrite filter_cons.
    destruct (IsOK (status s)) eqn:Es; simpl.
    + rewrite IH. by rewrite <- app_assoc.
    + rewrite IH.
      destruct (IsOK r) eqn:Er; simpl; [by rewrite Es | by rewrite Er].
Qed.

Lemma reduce_spec {A} (slot : SubBatchState -> list A) subs :
  reduce slot subs = (first_non_ok subs, merged slot subs).
Proof. unfold reduce. by rewrite reduce_fold. Qed.

Lemma first_non_ok_Ok subs :
  first_non_ok subs = Ok <-> Forall (fun s => status s = Ok) subs.
Proof.
  unfold first_non_ok. induction subs as [|s subs IH]; simpl.
  - split; [constructor | done].
  - destruct (IsOK (status s)) eqn:Es; simpl.
    + rewrite IH. apply IsOK_true in Es. split.
      * by constructor.
      * by inversion 1.
    + apply IsOK_false in Es. split; [done|]. by inversion 1.
Qed.

Lemma first_non_ok_first l1 s l2 :
  Forall (fun s => status s = Ok) l1 -> status s <> Ok ->
  first_non_ok (l1 ++ s :: l2) = status s.
Proof.
  unfold first_non_ok. induction 1 as [|x l1 Hx _ IH]; intros Hs; simpl.
  - apply IsOK_false in Hs. by rewrite Hs.
  - rewrite Hx. simpl. by apply IH.
Qed.

Lemma first_non_ok_cases subs :
  first_non_ok subs = Ok \/
  exists s, s ∈ subs /\ first_non_ok subs = status s /\ status s <> Ok.
Proof.
  unfold first_non_ok.
  destruct (find _ subs) as [s|] eqn:E; [right | by left].
  apply find_some in E as [Hin Hs]. exists s. split; [by apply list_elem_of_In|].
  split; [done|]. apply IsOK_false. by destruct (IsOK (status s)).
Qed.

(** *** The partition loop *)

Section Partition.
Context {P : Type} (key_of : P -> string).

Lemma partition_step_ok acc x :
  lookup_ok (key_of x) ->
  partition_step key_of acc x = (Val (group_step key_of acc x), [EvLookup (key_of x)]).
Proof.
  unfold lookup_ok, partition_step, group_step, region_id_of, region_of, lookup.
  destruct acc as [rir ri]. simpl.
  destruct (LookupRegionByKey (key_of x)) as [got tmp]. simpl. by intros ->.
Qed.

Lemma partition_step_fail acc x :
  ~ lookup_ok (key_of x) ->
  partition_step key_of acc x
  = (Return (LookupRegionByKey (key_of x)).1, [EvLookup (key_of x)]).
Proof.
  unfold lookup_ok, partition_step, lookup.
  destruct acc as [rir ri]. simpl.
  destruct (LookupRegionByKey (key_of x)) as [got tmp]. simpl.
  by destruct (IsOK got).
Qed.

Lemma foldM_partition_ok inputs acc :
  Forall (fun x => lookup_ok (key_of x)) inputs ->
  foldM (partition_step key_of) inputs acc
  = (Val (fold_left (group_step key_of) inputs acc),
     map (fun x => EvLookup (key_of x)) inputs).
Proof.
  intros H. revert acc. induction H as [|x l Hx _ IH]; intros acc; [done|].
  simpl. rewrite (partition_step_ok _ _ Hx). simpl. by rewrite IH.
Qed.

Lemma foldM_partition_fail pre x post acc :
  Forall (fun x => lookup_ok (key_of x)) pre ->
  ~ lookup_ok (key_of x) ->
  foldM (partition_step key_of) (pre ++ x :: post) acc
  = (Return (LookupRegionByKey (key_of x)).1,
     map (fun x => EvLookup (key_of x)) (pre ++ [x])).
Proof.
  intros H Hx. revert acc. induction H as [|y l Hy _ IH]; intros acc; simpl.
  - by rewrite (partition_step_fail _ _ Hx).
  - rewrite (partition_step_ok _ _ Hy). simpl. by rewrite IH.
Qed.

Lemma inputs_of_cons x l i :
  inputs_of key_of (x :: l) i
  = if decide (region_id_of key_of x = i) then x :: inputs_of key_of l i
    else inputs_of key_of l i.
Proof. unfold inputs_of. by rewrite filter_cons. Qed.

Lemma elem_of_inputs_of x l i :
  x ∈ inputs_of key_of l i <-> region_id_of key_of x = i /\ x ∈ l.
Proof. unfold inputs_of. by rewrite list_elem_of_filter. Qed.

Lemma group_inputs inputs (acc : gmap Z Region * gmap Z (list P)) i :
  (fold_left (group_step key_of) inputs acc).2 !! i
  = match acc.2 !! i, inputs_of key_of inputs i with
    | Some l0, l => Some (l0 ++ l)
    | None, [] => None
    | None, l => Some l
    end.
Proof.
  revert acc. induction inputs as [|x l IH]; intros [rir ri]; simpl.
  - destruct (ri !! i); [by rewrite app_nil_r | done].
  - rewrite IH, inputs_of_cons. simpl. unfold push_back.
    case_decide as Hi.
    + subst i. rewrite lookup_insert_eq.
      destruct (ri !! region_id_of key_of x); simpl; [by rewrite <- app_assoc | done].
    + by rewrite lookup_insert_ne.
Qed.

Lemma group_regions inputs (acc : gmap Z Region * gmap Z (list P)) i :
  (fold_left (group_step key_of) inputs acc).1 !! i
  = match acc.1 !! i with
    | Some r => Some r
    | None => region_of key_of <$> head (inputs_of key_of inputs i)
    end.
Proof.
  revert acc. induction inputs as [|x l IH]; intros [rir ri]; simpl.
  - by destruct (rir !! i).
  - rewrite IH, inputs_of_cons. simpl. unfold emplace.
    destruct (rir !! region_id_of key_of x) eqn:E.
    + case_decide as Hi; [|done]. subst i. by rewrite E.
    + case_decide as Hi.
      * subst i. by rewrite lookup_insert_eq, E.
      * by rewrite lookup_insert_ne.
Qed.

Lemma concat_inputs_of (ids : list Z) inputs :
  NoDup ids ->
  (forall x, x ∈ inputs -> region_id_of key_of x ∈ ids) ->
  concat (map (inputs_of key_of inputs) ids) ≡ₚ inputs.
Proof.
  intros Hnd. induction inputs as [|x l IH]; intros Hcov.
  - clear Hnd Hcov. by induction ids.
  - destruct (list_elem_of_split ids (region_id_of key_of x)) as (l1 & l2 & ->);
      [apply Hcov, list_elem_of_here|].
    apply NoDup_app in Hnd as (_ & Hl1 & Hnd).
    apply NoDup_cons in Hnd as [Hl2 _].
    assert (Hother : forall l0, region_id_of key_of x ∉ l0 ->
              map (inputs_of key_of (x :: l)) l0 = map (inputs_of key_of l) l0).
    { intros l0 Hl0. apply map_ext_in. intros i Hi. rewrite inputs_of_cons.
      case_decide; [|done]. subst i. by apply list_elem_of_In in Hi. }
    rewrite map_app, concat_app. simpl.
    rewrite !Hother; [| done | intros Hx; by apply (Hl1 _ Hx), list_elem_of_here].
    rewrite inputs_of_cons, decide_True by done. simpl.
    rewrite <- Permutation_middle. constructor.
    transitivity (concat (map (inputs_of key_of l) (l1 ++ region_id_of key_of x :: l2))).
    + by rewrite map_app, concat_app.
    + apply IH. intros y Hy. apply Hcov. by apply list_elem_of_further.
Qed.

End Partition.

Lemma mapM_silent {A B} (f : A -> M B) l :
  (forall x, x ∈ l -> exists y, f x = (Val y, [])) ->
  exists l', mapM f l = (Val l', []) /\ Forall2 (fun x y => f x = (Val y, [])) l l'.
Proof.
  induction l as [|x l IH]; intros Hf.
  - exists []. split; [done | constructor].
  - destruct (Hf x) as [y Hy]; [apply list_elem_of_here|].
    destruct IH as (l' & Hl' & HF); [intros z Hz; apply Hf; by apply list_elem_of_further|].
    exists (y :: l'). split; [|by constructor].
    simpl. rewrite Hy. simpl. by rewrite Hl'.
Qed.

Lemma Forall2_elem_r {A B} (R : A -> B -> Prop) l k y :
  Forall2 R l k -> y ∈ k -> exists x, x ∈ l /\ R x y.
Proof.
  induction 1 as [|x y' l k HR _ IH]; intros Hy.
  - by apply elem_of_nil in Hy.
  - apply elem_of_cons in Hy as [->|Hy].
    + exists x. split; [apply list_elem_of_here | done].
    + destruct (IH Hy) as (x' & ? & ?). exists x'. split; [by apply list_elem_of_further | done].
Qed.

Lemma Forall2_elem_l {A B} (R : A -> B -> Prop) l k x :
  Forall2 R l k -> x ∈ l -> exists y, y ∈ k /\ R x y.
Proof.
  induction 1 as [|x' y l k HR _ IH]; intros Hx.
  - by apply elem_of_nil in Hx.
  - apply elem_of_cons in Hx as [->|Hx].
    + exists y. split; [apply list_elem_of_here | done].
    + destruct (IH Hx) as (y' & ? & ?). exists y'. split; [by apply list_elem_of_further | done].
Qed.

Lemma Forall2_impl_elem {A B} (R Q : A -> B -> Prop) l k :
  Forall2 R l k -> (forall x y, x ∈ l -> R x y -> Q x y) -> Forall2 Q l k.
Proof.
  induction 1 as [|x y l k HR _ IH]; intros HQ; constructor.
  - apply HQ; [apply list_elem_of_here | done].
  - apply IH. intros x' y' Hx'. apply HQ. by apply list_elem_of_further.
Qed.

Lemma Forall2_map_eq {A B C} (R : A -> B -> Prop) (f : A -> C) (g : B -> C) l k :
  Forall2 R l k -> (forall x y, R x y -> f x = g y) -> map f l = map g k.
Proof.
  intros H Hfg. induction H as [|x y l k HR _ IH]; [done|].
  simpl. by rewrite (Hfg _ _ HR), IH.
Qed.

(** *** Building the sub-batches *)

(** Any enumeration of the entries of an [unordered_map] is possible; the
    statements below hold for each of them. *)
Hypothesis iterate_perm :
  forall (A : Type) (m : gmap Z A), iterate A m ≡ₚ map_to_list m.

Lemma iterate_empty (A : Type) : iterate A ∅ = [].
Proof.
  apply Permutation_nil_r. rewrite iterate_perm. by rewrite map_to_list_empty.
Qed.

Lemma elem_of_iterate {A} (m : gmap Z A) i x : (i, x) ∈ iterate A m <-> m !! i = Some x.
Proof. by rewrite iterate_perm, elem_of_map_to_list. Qed.

Lemma NoDup_fst_iterate {A} (m : gmap Z A) : NoDup (map fst (iterate A m)).
Proof.
  assert (map fst (iterate A m) ≡ₚ (map_to_list m).*1) as ->.
  { apply fmap_Permutation, iterate_perm. }
  apply NoDup_fst_map_to_list.
Qed.

Lemma length_iterate {A} (m : gmap Z A) : length (iterate A m) = size m.
Proof. by rewrite iterate_perm, length_map_to_list. Qed.

Section Build.
Context {P : Type} (key_of : P -> string) (make_rpc : RpcContext -> list P -> Rpc).
Context (inputs : list P) (rir : gmap Z Region) (ri : gmap Z (list P)).
Hypothesis grouped :
  forall i, ri !! i = match inputs_of key_of inputs i with [] => None | l => Some l end.
Hypothesis regions :
  forall i, rir !! i = region_of key_of <$> head (inputs_of key_of inputs i).

Lemma build_entry e :
  e ∈ iterate _ ri ->
  exists s, build_sub_batch make_rpc rir e = (Val s, []) /\
    built key_of make_rpc inputs e s.
Proof.
  destruct e as [i l]. rewrite elem_of_iterate, grouped. intros Hl.
  unfold build_sub_batch. rewrite regions.
  destruct (inputs_of key_of inputs i) as [|x0 l0] eqn:E; [done|].
  injection Hl as <-. simpl.
  assert (x0 ∈ inputs_of key_of inputs i) as Hx0 by (rewrite E; apply list_elem_of_here).
  apply elem_of_inputs_of in Hx0 as [Hid Hin].
  eexists. split; [done|]. exists x0. simpl. by rewrite E.
Qed.

Lemma built_region_id e s :
  built key_of make_rpc inputs e s -> RegionId (region s) = e.1.
Proof. by intros (x0 & _ & Hid & _ & ->). Qed.

Lemma build_partitioned :
  exists subs, build_sub_batches make_rpc rir ri = (Val subs, []) /\
    partitioned key_of make_rpc inputs subs /\ length subs = size ri.
Proof.
  unfold build_sub_batches.
  destruct (mapM_silent (build_sub_batch make_rpc rir) (iterate _ ri)) as (subs & Hrun & HF).
  { intros e He. destruct (build_entry e He) as (s & Hs & _). eauto. }
  assert (HB : Forall2 (built key_of make_rpc inputs) (iterate _ ri) subs).
  { eapply Forall2_impl_elem; [exact HF|]. simpl. intros e s He Hes.
    destruct (build_entry e He) as (s' & Hs' & Hb). congruence. }
  assert (Hids : map (fun s => RegionId (region s)) subs = map fst (iterate _ ri)).
  { symmetry. eapply Forall2_map_eq; [exact HB|]. intros e s Hb.
    symmetry. by apply built_region_id. }
  exists subs. split; [done|]. split; [|by rewrite <- (Forall2_length _ _ _ HB), length_iterate].
  assert (Hnd : NoDup (map (fun s => RegionId (region s)) subs)).
  { rewrite Hids. apply NoDup_fst_iterate. }
  assert (Hcov : forall x, x ∈ inputs ->
            exists s, s ∈ subs /\ RegionId (region s) = region_id_of key_of x).
  { intros x Hx.
    assert (x ∈ inputs_of key_of inputs (region_id_of key_of x)) as Hxi
      by (by apply elem_of_inputs_of).
    pose proof (grouped (region_id_of key_of x)) as Hg.
    destruct (inputs_of key_of inputs (region_id_of key_of x)) as [|y l] eqn:E;
      [by apply elem_of_nil in Hxi|].
    apply elem_of_iterate in Hg.
    destruct (Forall2_elem_l _ _ _ _ HB Hg) as (s & Hs & Hb).
    exists s. split; [done|]. by rewrite (built_region_id _ _ Hb). }
  split; [done|]. split; [done|]. split.
  - intros s Hs. destruct (Forall2_elem_r _ _ _ _ HB Hs) as (e & He & Hb).
    pose proof (built_region_id _ _ Hb) as Hid.
    destruct Hb as (x0 & Hx0 & Hid0 & Hl & ->). simpl in *.
    split; [by exists x0|]. unfold region_id_of in Hid0. by rewrite Hid0, <- Hl.
  - rewrite <- (map_map (fun s => RegionId (region s)) (inputs_of key_of inputs)).
    apply concat_inputs_of; [done|].
    intros x Hx. destruct (Hcov x Hx) as (s & Hs & <-).
    apply list_elem_of_In.
    apply (in_map (fun s => RegionId (region s))). by apply list_elem_of_In.
Qed.

End Build.

Lemma grouped_empty {P} (key_of : P -> string) inputs i :
  (fold_left (group_step key_of) inputs (∅, ∅)).2 !! i
  = match inputs_of key_of inputs i with [] => None | l => Some l end.
Proof. rewrite group_inputs. simpl. by rewrite lookup_empty. Qed.

Lemma regions_empty {P} (key_of : P -> string) inputs i :
  (fold_left (group_step key_of) inputs (∅, ∅)).1 !! i
  = region_of key_of <$> head (inputs_of key_of inputs i).
Proof. rewrite group_regions. simpl. by rewrite lookup_empty. Qed.

Lemma grouped_nonempty {P} (key_of : P -> string) inputs :
  inputs <> [] -> (fold_left (group_step key_of) inputs (∅, ∅)).2 <> ∅.
Proof.
  destruct inputs as [|x l]; [done|]. intros _ Hempty.
  pose proof (grouped_empty key_of (x :: l) (region_id_of key_of x)) as H.
  rewrite Hempty, lookup_empty, inputs_of_cons, decide_True in H by done. done.
Qed.

(** All lookups succeed: the scatter phase logs the lookups, makes no call,
    and yields the partition of the inputs. *)
Lemma scatter_partitioned {P} (key_of : P -> string) make_rpc inputs :
  Forall (fun x => lookup_ok (key_of x)) inputs ->
  exists subs,
    scatter key_of make_rpc inputs
    = (Val subs, map (fun x => EvLookup (key_of x)) inputs) /\
    partitioned key_of make_rpc inputs subs /\
    (inputs <> [] -> subs <> []).
Proof.
  intros Hok. unfold scatter, partition_by_region.
  rewrite (foldM_partition_ok key_of inputs (∅, ∅) Hok).
  destruct (fold_left (group_step key_of) inputs (∅, ∅)) as [rir ri] eqn:E.
  destruct (build_partitioned key_of make_rpc inputs rir ri) as (subs & Hb & Hp & Hlen).
  { intros i. pose proof (grouped_empty key_of inputs i) as H. by rewrite E in H. }
  { intros i. pose proof (regions_empty key_of inputs i) as H. by rewrite E in H. }
  exists subs. split; [|split; [done|]].
  - simpl. rewrite Hb. by rewrite app_nil_r.
  - intros Hne ->. simpl in Hlen. symmetry in Hlen. apply map_size_empty_inv in Hlen.
    pose proof (grouped_nonempty key_of inputs Hne) as H. rewrite E in H. done.
Qed.

(** *** Dispatch *)

Lemma mapM_total {A B} (f : A -> M B) l :
  (forall x, x ∈ l -> exists y t, f x = (Val y, t)) ->
  exists l' t, mapM f l = (Val l', t).
Proof.
  induction l as [|x l IH]; intros Hf; [by exists [], []|].
  destruct (Hf x) as (y & t & Hy); [apply list_elem_of_here|].
  destruct IH as (l' & t' & Hl'); [intros z Hz; apply Hf; by apply list_elem_of_further|].
  exists (y :: l'), (t ++ t' ++ []). simpl. rewrite Hy. simpl. by rewrite Hl'.
Qed.

Lemma fan_out_nil process : fan_out process [] = (Crash InvalidAccess, []).
Proof. reflexivity. Qed.

Lemma fan_out_total process subs :
  subs <> [] ->
  (forall s, s ∈ subs -> exists s' t, process s = (Val s', t)) ->
  exists subs' t, fan_out process subs = (Val subs', t).
Proof.
  destruct subs as [|s0 subs]; [done|]. intros _ Hp. unfold fan_out. simpl.
  destruct (mapM_total process subs) as (l' & t & Hl').
  { intros x Hx. apply Hp. by apply list_elem_of_further. }
  destruct (Hp s0) as (s0' & t0 & Hs0); [apply list_elem_of_here|].
  rewrite Hl'. simpl. rewrite Hs0. simpl. eauto.
Qed.

(** No dispatch leaves by an early [return]. *)
Lemma mapM_no_Return {A B} (f : A -> M B) l st t :
  (forall x st t, f x <> (Return st, t)) -> mapM f l <> (Return st, t).
Proof.
  intros Hf. revert t. induction l as [|x l IH]; intros t; [done|].
  simpl. destruct (f x) as [[y| s | |] tx] eqn:Ex; simpl; try done.
  - destruct (mapM f l) as [[ys| s | |] tl] eqn:El; simpl; try done.
    intros [= -> <-]. by eapply IH.
  - by destruct (Hf x s tx).
Qed.

Lemma fan_out_no_Return process subs st t :
  (forall x st t, process x <> (Return st, t)) -> fan_out process subs <> (Return st, t).
Proof.
  intros Hp. unfold fan_out.
  destruct (mapM process (tail subs)) as [[ys| s | |] tl] eqn:El; simpl; try done.
  - destruct (head subs) as [s0|]; [|done].
    destruct (process s0) as [[y| s | |] tx] eqn:Ex; simpl; try done.
    by destruct (Hp s0 s tx).
  - by destruct (mapM_no_Return process (tail subs) s tl Hp).
Qed.

Lemma fan_out_Val_inv process subs subs' t :
  fan_out process subs = (Val subs', t) ->
  Forall2 (fun x y => exists tx, process x = (Val y, tx)) subs subs'.
Proof.
  unfold fan_out. intros H.
  apply bind_Val_inv in H as (others & t1 & t2 & Ho & H & ->).
  destruct subs as [|s0 subs]; [done|]. simpl in *.
  apply bind_Val_inv in H as (s0' & t3 & t4 & Hs0 & H & ->).
  injection H as <- <-. constructor; [eauto|]. by eapply mapM_Val_inv.
Qed.

(** The processing functions on a state of their own kind. *)
Lemma ProcessSubBatchGet_run ctx keys r :
  exists s' t, ProcessSubBatchGet (new_SubBatchState (KvBatchGetRpc ctx keys) r) = (Val s', t).
Proof.
  unfold ProcessSubBatchGet, controller_Call. simpl.
  destruct (Call r _) as [call resp]. destruct (IsOK call); simpl; eauto.
Qed.

Lemma ProcessSubBatchPut_run ctx kvs r :
  exists s' t, ProcessSubBatchPut (new_SubBatchState (KvBatchPutRpc ctx kvs) r) = (Val s', t).
Proof.
  unfold ProcessSubBatchPut, controller_Call. simpl.
  destruct (Call r _) as [call resp]. simpl; eauto.
Qed.

Lemma ProcessSubBatchDelete_run ctx keys r :
  exists s' t,
    ProcessSubBatchDelete (new_SubBatchState (KvBatchDeleteRpc ctx keys) r) = (Val s', t).
Proof.
  unfold ProcessSubBatchDelete, controller_Call. simpl.
  destruct (Call r _) as [call resp]. simpl; eauto.
Qed.

Lemma ProcessSubBatchPutIfAbsent_run ctx kvs r :
  key_states_match ->
  exists s' t,
    ProcessSubBatchPutIfAbsent (new_SubBatchState (make_put_if_absent_rpc ctx kvs) r)
    = (Val s', t).
Proof.
  intros Hm. unfold ProcessSubBatchPutIfAbsent, controller_Call. simpl.
  specialize (Hm r (KvBatchPutIfAbsentRpc ctx kvs true)).
  destruct (Call r _) as [call resp]. simpl in *.
  destruct (IsOK call); simpl; [|eauto].
  rewrite Hm by done. rewrite Nat.eqb_refl. simpl. eauto.
Qed.

Lemma ProcessSubBatchCompareAndSet_run ctx l r :
  key_states_match ->
  exists s' t,
    ProcessSubBatchCompareAndSet (new_SubBatchState (make_compare_and_set_rpc ctx l) r)
    = (Val s', t).
Proof.
  intros Hm. unfold ProcessSubBatchCompareAndSet, controller_Call. simpl.
  specialize (Hm r (make_compare_and_set_rpc ctx l)).
  unfold make_compare_and_set_rpc in *.
  destruct (Call r _) as [call resp]. simpl in *.
  destruct (IsOK call); simpl; [|eauto].
  rewrite Hm by done. rewrite Nat.eqb_refl. simpl. eauto.
Qed.

(** Scatter then fan out: with a non-empty input whose lookups all succeed
    every sub-batch is processed. *)
Lemma dispatch_total {P} (key_of : P -> string) make_rpc process inputs :
  inputs <> [] ->
  Forall (fun x => lookup_ok (key_of x)) inputs ->
  (forall ctx l r, exists s' t, process (new_SubBatchState (make_rpc ctx l) r) = (Val s', t)) ->
  exists subs log,
    (let* sub_batch_state := scatter key_of make_rpc inputs in
     fan_out process sub_batch_state) = (Val subs, log).
Proof.
  intros Hne Hok Hp.
  destruct (scatter_partitioned key_of make_rpc inputs Hok) as (subs & Hs & Hpart & Hne').
  destruct (fan_out_total process subs (Hne' Hne)) as (subs' & t & Hf).
  { intros s Hin. destruct Hpart as (_ & _ & Hshape & _).
    destruct (Hshape s Hin) as [_ ->]. apply Hp. }
  rewrite Hs. simpl. rewrite Hf. eauto.
Qed.

Lemma aggregate_first_non_ok subs : aggregate_of subs (first_non_ok subs).
Proof.
  split; [apply first_non_ok_Ok|].
  intros l1 s l2 -> Hl1 Hs. by apply first_non_ok_first.
Qed.

Lemma finished_reduce {A} (dispatch : M (list SubBatchState))
    (slot : SubBatchState -> list A) subs log out0 :
  dispatch = (Val subs, log) ->
  run (let* sub_batch_state := dispatch in ret (reduce slot sub_batch_state)) out0
  = Finished (first_non_ok subs) (merged slot subs) log.
Proof.
  intros H. rewrite (run_bind_ret _ _ _ _ _ H). by rewrite reduce_spec.
Qed.

Lemma finished_reduce_status (dispatch : M (list SubBatchState)) subs log :
  dispatch = (Val subs, log) ->
  run (let* sub_batch_state := dispatch in ret (reduce_status sub_batch_state, tt)) tt
  = Finished (first_non_ok subs) tt log.
Proof.
  intros H. rewrite (run_bind_ret _ (fun x => (reduce_status x, tt)) _ _ _ H).
  simpl. by rewrite reduce_status_spec.
Qed.

(** *** BatchCompareAndSet behind its size test *)

Lemma sizes_agree {P} (key_of : P -> string) inputs
    (rir : gmap Z Region) (ri : gmap Z (list P)) :
  (forall i, ri !! i = match inputs_of key_of inputs i with [] => None | l => Some l end) ->
  (forall i, rir !! i = region_of key_of <$> head (inputs_of key_of inputs i)) ->
  size rir = size ri.
Proof.
  intros Hri Hrir. rewrite <- !size_dom. f_equal. apply set_eq. intros i.
  rewrite !elem_of_dom, Hri, Hrir.
  destruct (inputs_of key_of inputs i); simpl; split; intros [? ?]; by eauto.
Qed.

Lemma length_compare_and_set_inputs kvs expected_values :
  length kvs = length expected_values ->
  length (compare_and_set_inputs kvs expected_values) = length kvs.
Proof. intros H. unfold compare_and_set_inputs. rewrite length_zip_with. lia. Qed.

Lemma BatchCompareAndSet_build_scatter kvs expected_values :
  length kvs = length expected_values ->
  Forall (fun c => lookup_ok (compare_and_set_key c))
    (compare_and_set_inputs kvs expected_values) ->
  BatchCompareAndSet_build kvs expected_values
  = scatter compare_and_set_key make_compare_and_set_rpc
      (compare_and_set_inputs kvs expected_values).
Proof.
  intros Hlen Hok. unfold BatchCompareAndSet_build, scatter, partition_by_region.
  rewrite Hlen, Nat.eqb_refl. simpl.
  rewrite (foldM_partition_ok _ _ (∅, ∅) Hok).
  pose proof (grouped_empty compare_and_set_key
                (compare_and_set_inputs kvs expected_values)) as Hri.
  pose proof (regions_empty compare_and_set_key
                (compare_and_set_inputs kvs expected_values)) as Hrir.
  destruct (fold_left _ _ _) as [rir ri]. simpl in *.
  by rewrite (sizes_agree _ _ _ _ Hri Hrir), Nat.eqb_refl.
Qed.

(** *** C3: the aggregate status and the merged output *)

(** C3. Each of the five batch operations, called on a non-empty input whose
    region lookups succeed, processes its sub-batch vector [subs] and
    returns the aggregate of their statuses: OK exactly when every sub-batch
    is OK, and otherwise the status of the first sub-batch, in vector order,
    that is not.  The output of [BatchGet], [BatchPutIfAbsent] and
    [BatchCompareAndSet] is the concatenation of the results of the
    sub-batches that succeeded, whatever the returned status. *)
Theorem batch_status_is_first_failure :
  key_states_match ->
  (forall keys kvs,
     keys <> [] -> Forall lookup_ok keys ->
     exists subs log st out,
       BatchGet_dispatch keys = (Val subs, log) /\
       BatchGet keys kvs = Finished st out log /\
       aggregate_of subs st /\ out = merged result_kvs subs) /\
  (forall kvs,
     kvs <> [] -> Forall (fun kv => lookup_ok (key kv)) kvs ->
     exists subs log st,
       BatchPut_dispatch kvs = (Val subs, log) /\
       BatchPut kvs = Finished st tt log /\
       aggregate_of subs st) /\
  (forall kvs states,
     kvs <> [] -> Forall (fun kv => lookup_ok (key kv)) kvs ->
     exists subs log st out,
       BatchPutIfAbsent_dispatch kvs = (Val subs, log) /\
       BatchPutIfAbsent kvs states = Finished st out log /\
       aggregate_of subs st /\ out = merged key_op_states subs) /\
  (forall keys,
     keys <> [] -> Forall lookup_ok keys ->
     exists subs log st,
       BatchDelete_dispatch keys = (Val subs, log) /\
       BatchDelete keys = Finished st tt log /\
       aggregate_of subs st) /\
  (forall kvs expected_values states,
     kvs <> [] -> length kvs = length expected_values ->
     Forall (fun kv => lookup_ok (key kv)) kvs ->
     exists subs log st out,
       BatchCompareAndSet_dispatch kvs expected_values = (Val subs, log) /\
       BatchCompareAndSet kvs expected_values states = Finished st out log /\
       aggregate_of subs st /\ out = merged key_op_states subs).
Proof.
  intros Hmatch. repeat split.
  - intros keys kvs Hne Hok.
    destruct (dispatch_total id KvBatchGetRpc ProcessSubBatchGet keys Hne Hok)
      as (subs & log & Hd); [intros; apply ProcessSubBatchGet_run|].
    exists subs, log, (first_non_ok subs), (merged result_kvs subs).
    split; [exact Hd|]. split; [|split; [apply aggregate_first_non_ok | done]].
    by apply finished_reduce.
  - intros kvs Hne Hok.
    destruct (dispatch_total key KvBatchPutRpc ProcessSubBatchPut kvs Hne Hok)
      as (subs & log & Hd); [intros; apply ProcessSubBatchPut_run|].
    exists subs, log, (first_non_ok subs).
    split; [exact Hd|]. split; [|apply aggregate_first_non_ok].
    by apply finished_reduce_status.
  - intros kvs states Hne Hok.
    destruct (dispatch_total key make_put_if_absent_rpc ProcessSubBatchPutIfAbsent
                kvs Hne Hok) as (subs & log & Hd);
      [intros; by apply ProcessSubBatchPutIfAbsent_run|].
    exists subs, log, (first_non_ok subs), (merged key_op_states subs).
    split; [exact Hd|]. split; [|split; [apply aggregate_first_non_ok | done]].
    by apply finished_reduce.
  - intros keys Hne Hok.
    destruct (dispatch_total id KvBatchDeleteRpc ProcessSubBatchDelete keys Hne Hok)
      as (subs & log & Hd); [intros; apply ProcessSubBatchDelete_run|].
    exists subs, log, (first_non_ok subs).
    split; [exact Hd|]. split; [|apply aggregate_first_non_ok].
    by apply finished_reduce_status.
  - intros kvs expected_values states Hne Hlen Hok.
    assert (Hok' : Forall (fun c => lookup_ok (compare_and_set_key c))
                     (compare_and_set_inputs kvs expected_values)).
    { apply Forall_forall. intros c Hc. unfold compare_and_set_inputs in Hc.
      apply elem_of_zip_with in Hc as (kv & e & -> & Hkv & _).
      rewrite Forall_forall in Hok. by apply Hok. }
    assert (Hne' : compare_and_set_inputs kvs expected_values <> []).
    { intros E. apply (f_equal length) in E.
      rewrite length_compare_and_set_inputs in E by done. by destruct kvs. }
    destruct (dispatch_total compare_and_set_key make_compare_and_set_rpc
                ProcessSubBatchCompareAndSet _ Hne' Hok') as (subs & log & Hd);
      [intros; by apply ProcessSubBatchCompareAndSet_run|].
    assert (Hd' : BatchCompareAndSet_dispatch kvs expected_values = (Val subs, log)).
    { unfold BatchCompareAndSet_dispatch.
      by rewrite BatchCompareAndSet_build_scatter. }
    exists subs, log, (first_non_ok subs), (merged key_op_states subs).
    split; [exact Hd'|]. split; [|split; [apply aggregate_first_non_ok | done]].
    by apply finished_reduce.
Qed.

(** *** C10: the empty input *)

Lemma scatter_nil {P} (key_of : P -> string) make_rpc :
  scatter key_of make_rpc [] = (Val [], []).
Proof.
  unfold scatter, partition_by_region, build_sub_batches. simpl.
  by rewrite iterate_empty.
Qed.

(** C10 (as the code behaves): on an empty input each of the five batch
    operations builds an empty sub-batch vector and then processes the first
    sub-batch through [data()] all the same: the run reads a sub-batch state
    that does not exist instead of returning OK. *)
Theorem batch_on_empty_input_reads_missing_sub_batch :
  (forall kvs, BatchGet [] kvs = Crashed InvalidAccess []) /\
  BatchPut [] = Crashed InvalidAccess [] /\
  (forall states, BatchPutIfAbsent [] states = Crashed InvalidAccess []) /\
  BatchDelete [] = Crashed InvalidAccess [] /\
  (forall states, BatchCompareAndSet [] [] states = Crashed InvalidAccess []).
Proof.
  unfold BatchGet, BatchGet_body, BatchGet_dispatch, BatchGet_build,
    BatchPut, BatchPut_body, BatchPut_dispatch, BatchPut_build,
    BatchPutIfAbsent, BatchPutIfAbsent_body, BatchPutIfAbsent_dispatch,
    BatchPutIfAbsent_build,
    BatchDelete, BatchDelete_body, BatchDelete_dispatch, BatchDelete_build,
    BatchCompareAndSet, BatchCompareAndSet_body, BatchCompareAndSet_dispatch.
  rewrite (BatchCompareAndSet_build_scatter [] []) by (done || constructor).
  unfold compare_and_set_inputs. simpl zip_with.
  rewrite !scatter_nil. by repeat split.
Qed.

(** *** C7: a failed lookup aborts the batch *)

Lemma first_failure_split {A} (ok : A -> Prop) `{!forall x, Decision (ok x)} (l : list A) :
  Exists (fun x => ~ ok x) l ->
  exists pre x post, l = pre ++ x :: post /\ Forall ok pre /\ ~ ok x.
Proof.
  induction l as [|y l IH]; intros Hex; [by apply Exists_nil in Hex|].
  destruct (decide (ok y)) as [Hy|Hy].
  - apply Exists_cons in Hex as [Hex|Hex]; [done|].
    destruct (IH Hex) as (pre & x & post & -> & Hpre & Hx).
    exists (y :: pre), x, post. split; [done|]. split; [by constructor | done].
  - exists [], y, l. split; [done|]. split; [constructor | done].
Qed.

Lemma Exists_map_inv {A B} (f : A -> B) (Q : B -> Prop) l :
  Exists Q (map f l) -> Exists (fun x => Q (f x)) l.
Proof.
  induction l as [|x l IH]; simpl; intros H; [by apply Exists_nil in H|].
  apply Exists_cons in H as [H|H]; [by left | right; by apply IH].
Qed.

Lemma scatter_abort {P} (key_of : P -> string) make_rpc pre x post :
  Forall (fun x => lookup_ok (key_of x)) pre ->
  ~ lookup_ok (key_of x) ->
  scatter key_of make_rpc (pre ++ x :: post)
  = (Return (LookupRegionByKey (key_of x)).1,
     map EvLookup (map key_of pre ++ [key_of x])).
Proof.
  intros Hpre Hx. unfold scatter, partition_by_region.
  rewrite (foldM_partition_fail key_of pre x post (∅, ∅) Hpre Hx). simpl.
  by rewrite !map_app, map_map.
Qed.

Lemma run_abort {A O} (build : M A) (k : A -> M (Status * O)) st log out0 :
  build = (Return st, log) -> run (let* x := build in k x) out0 = Finished st out0 log.
Proof. by intros ->. Qed.

Lemma bind_abort {A B} (build : M A) (k : A -> M B) st log :
  build = (Return st, log) -> (let* x := build in k x) = (Return st, log).
Proof. by intros ->. Qed.

Lemma batch_aborted {P O} (key_of : P -> string) make_rpc process
    (finish : list SubBatchState -> M (Status * O)) inputs out0 :
  Exists (fun k => ~ lookup_ok k) (map key_of inputs) ->
  aborted_by_lookup (map key_of inputs) (scatter key_of make_rpc inputs)
    (run (let* subs := (let* s := scatter key_of make_rpc inputs in fan_out process s) in
          finish subs) out0) out0.
Proof.
  intros H.
  apply Exists_map_inv in H.
  destruct (first_failure_split (fun x => lookup_ok (key_of x)) inputs H)
    as (pre & x & post & -> & Hpre & Hx).
  exists (map key_of pre), (key_of x), (map key_of post).
  split; [by rewrite map_app|].
  split; [by apply Forall_fmap|]. split; [done|].
  pose proof (scatter_abort key_of make_rpc pre x post Hpre Hx) as Hs.
  split; [done|].
  apply run_abort. by apply bind_abort.
Qed.

Lemma map_compare_and_set_key kvs expected_values :
  length kvs = length expected_values ->
  map compare_and_set_key (compare_and_set_inputs kvs expected_values) = map key kvs.
Proof.
  revert expected_values. induction kvs as [|kv kvs IH]; intros [|e l]; simpl; try done.
  intros [= Hlen]. unfold compare_and_set_key at 1. simpl. f_equal. by apply IH.
Qed.

Lemma BatchCompareAndSet_build_abort kvs expected_values pre c post :
  length kvs = length expected_values ->
  compare_and_set_inputs kvs expected_values = pre ++ c :: post ->
  Forall (fun x => lookup_ok (compare_and_set_key x)) pre ->
  ~ lookup_ok (compare_and_set_key c) ->
  BatchCompareAndSet_build kvs expected_values
  = (Return (LookupRegionByKey (compare_and_set_key c)).1,
     map EvLookup (map compare_and_set_key pre ++ [compare_and_set_key c])).
Proof.
  intros Hlen Hsplit Hpre Hc. unfold BatchCompareAndSet_build, partition_by_region.
  rewrite Hlen, Nat.eqb_refl. simpl. rewrite Hsplit.
  rewrite (foldM_partition_fail compare_and_set_key pre c post (∅, ∅) Hpre Hc). simpl.
  by rewrite !map_app, map_map.
Qed.

(** C7. In each of the five batch operations a lookup that fails during
    the partition phase aborts the whole batch: the status of the first
    failing lookup is returned, no sub-batch vector is built, the log holds
    lookups only (no RPC was handed to any region), and the output
    parameter keeps the value it had. *)
Theorem batch_aborts_on_failed_lookup :
  (forall keys kvs,
     Exists (fun k => ~ lookup_ok k) keys ->
     aborted_by_lookup keys (BatchGet_build keys) (BatchGet keys kvs) kvs) /\
  (forall kvs,
     Exists (fun k => ~ lookup_ok k) (map key kvs) ->
     aborted_by_lookup (map key kvs) (BatchPut_build kvs) (BatchPut kvs) tt) /\
  (forall kvs states,
     Exists (fun k => ~ lookup_ok k) (map key kvs) ->
     aborted_by_lookup (map key kvs) (BatchPutIfAbsent_build kvs)
       (BatchPutIfAbsent kvs states) states) /\
  (forall keys,
     Exists (fun k => ~ lookup_ok k) keys ->
     aborted_by_lookup keys (BatchDelete_build keys) (BatchDelete keys) tt) /\
  (forall kvs expected_values states,
     length kvs = length expected_values ->
     Exists (fun k => ~ lookup_ok k) (map key kvs) ->
     aborted_by_lookup (map key kvs) (BatchCompareAndSet_build kvs expected_values)
       (BatchCompareAndSet kvs expected_values states) states).
Proof.
  split; [|split; [|split; [|split]]].
  - intros keys kvs H.
    pose proof (batch_aborted id KvBatchGetRpc ProcessSubBatchGet
                  (fun subs => ret (reduce result_kvs subs)) keys kvs) as Hb.
    rewrite map_id in Hb. by apply Hb.
  - intros kvs H.
    apply (batch_aborted key KvBatchPutRpc ProcessSubBatchPut
             (fun subs => ret (reduce_status subs, tt)) kvs tt H).
  - intros kvs states H.
    apply (batch_aborted key make_put_if_absent_rpc ProcessSubBatchPutIfAbsent
             (fun subs => ret (reduce key_op_states subs)) kvs states H).
  - intros keys H.
    pose proof (batch_aborted id KvBatchDeleteRpc ProcessSubBatchDelete
                  (fun subs => ret (reduce_status subs, tt)) keys tt) as Hb.
    rewrite map_id in Hb. by apply Hb.
  - intros kvs expected_values states Hlen H.
    rewrite <- (map_compare_and_set_key kvs expected_values Hlen) in *.
    apply Exists_map_inv in H.
    destruct (first_failure_split (fun x => lookup_ok (compare_and_set_key x)) _ H)
      as (pre & c & post & Hsplit & Hpre & Hc).
    exists (map compare_and_set_key pre), (compare_and_set_key c),
      (map compare_and_set_key post).
    split; [by rewrite Hsplit, map_app|].
    split; [by apply Forall_fmap|]. split; [done|].
    pose proof (BatchCompareAndSet_build_abort _ _ _ _ _ Hlen Hsplit Hpre Hc) as Hb.
    split; [done|].
    unfold BatchCompareAndSet, BatchCompareAndSet_body, BatchCompareAndSet_dispatch.
    apply run_abort. by apply bind_abort.
Qed.

(** *** C6: the size test of BatchCompareAndSet *)

Lemma foldM_partition_Return {P} (key_of : P -> string) inputs acc st t :
  foldM (partition_step key_of) inputs acc = (Return st, t) ->
  exists k, st = (LookupRegionByKey k).1.
Proof.
  revert acc t. induction inputs as [|x l IH]; intros acc t; [done|]. simpl.
  destruct (decide (lookup_ok (key_of x))) as [Hx|Hx].
  - rewrite (partition_step_ok _ _ _ Hx). simpl.
    destruct (foldM _ l _) as [[a| s | |] tl] eqn:El; simpl; try done.
    intros [= -> <-]. by eapply IH.
  - rewrite (partition_step_fail _ _ _ Hx). simpl. intros [= <- <-]. eauto.
Qed.

Lemma build_sub_batches_no_Return {P} (make_rpc : RpcContext -> list P -> Rpc) rir ri st t :
  build_sub_batches make_rpc rir ri <> (Return st, t).
Proof.
  apply mapM_no_Return. intros [i l] st' t'. unfold build_sub_batch.
  by destruct (rir !! i).
Qed.

Lemma ProcessSubBatchCompareAndSet_no_Return sub st t :
  ProcessSubBatchCompareAndSet sub <> (Return st, t).
Proof.
  unfold ProcessSubBatchCompareAndSet, controller_Call.
  destruct (rpc sub); try done. simpl.
  destruct (Call _ _) as [call resp]. simpl.
  destruct (IsOK call); [|done].
  by destruct (negb _).
Qed.

Lemma ProcessSubBatchCompareAndSet_status sub sub' t :
  ProcessSubBatchCompareAndSet sub = (Val sub', t) ->
  status sub' = (Call (region sub) (rpc sub)).1.
Proof.
  unfold ProcessSubBatchCompareAndSet, controller_Call.
  destruct (rpc sub); try done. simpl.
  destruct (Call _ _) as [call resp]. simpl.
  destruct (IsOK call).
  - destruct (negb _); [done|]. by intros [= <- <-].
  - by intros [= <- <-].
Qed.

Lemma BatchCompareAndSet_build_Return kvs expected_values st t :
  length kvs = length expected_values ->
  BatchCompareAndSet_build kvs expected_values = (Return st, t) ->
  exists k, st = (LookupRegionByKey k).1.
Proof.
  intros Hlen. unfold BatchCompareAndSet_build, partition_by_region.
  rewrite Hlen, Nat.eqb_refl. simpl.
  destruct (foldM _ _ _) as [[[rir ri]| s | |] tl] eqn:El; simpl; try done.
  - destruct (negb _); [done|].
    destruct (build_sub_batches _ rir ri) as [r tb] eqn:Eb. intros [= -> <-].
    by destruct (build_sub_batches_no_Return _ _ _ _ _ Eb).
  - intros [= -> <-]. by eapply foldM_partition_Return.
Qed.

(** C6. [BatchCompareAndSet] returns [InvalidArgument] exactly when the two
    input vectors differ in size (the meta cache and the store report their
    own failures with other statuses), and then it returns at once: nothing
    is logged, so no region was looked up and no RPC sent, and [states] is
    the vector that was passed in. *)
Theorem BatchCompareAndSet_invalid_argument_iff_size_mismatch :
  (forall k, IsInvalidArgument (LookupRegionByKey k).1 = false) ->
  (forall reg r, IsInvalidArgument (Call reg r).1 = false) ->
  forall kvs expected_values states,
    (length kvs <> length expected_values ->
     BatchCompareAndSet kvs expected_values states
     = Finished
         (InvalidArgument
            (size_mismatch_message (length kvs) (length expected_values)))
         states []) /\
    (forall st out log,
       BatchCompareAndSet kvs expected_values states = Finished st out log ->
       IsInvalidArgument st = true ->
       length kvs <> length expected_values).
Proof.
  intros Hlookup Hcall kvs expected_values states. split.
  - intros Hlen.
    unfold BatchCompareAndSet, BatchCompareAndSet_body, BatchCompareAndSet_dispatch,
      BatchCompareAndSet_build.
    apply Nat.eqb_neq in Hlen. by rewrite Hlen.
  - intros st out log Hrun Hst Hlen.
    unfold BatchCompareAndSet, BatchCompareAndSet_body, BatchCompareAndSet_dispatch in Hrun.
    destruct (BatchCompareAndSet_build kvs expected_values) as [[subs| s | |] tb] eqn:Eb;
      simpl in Hrun; try done.
    + destruct (fan_out ProcessSubBatchCompareAndSet subs) as [[subs'| s | |] tf] eqn:Ef;
        simpl in Hrun; try done.
      * rewrite reduce_spec in Hrun. injection Hrun as <- <- <-.
        destruct (first_non_ok_cases subs') as [E|(s' & Hin & E & _)];
          rewrite E in Hst; [done|].
        apply fan_out_Val_inv in Ef.
        destruct (Forall2_elem_r _ _ _ _ Ef Hin) as (s & _ & tx & Hs).
        rewrite (ProcessSubBatchCompareAndSet_status _ _ _ Hs), Hcall in Hst. done.
      * by destruct (fan_out_no_Return _ _ _ _ ProcessSubBatchCompareAndSet_no_Return Ef).
    + injection Hrun as <- <- <-.
      destruct (BatchCompareAndSet_build_Return _ _ _ _ Hlen Eb) as [k ->].
      rewrite Hlookup in Hst. done.
Qed.

(** *** The range walk *)

Lemma contains_iff r k :
  contains r k = true <-> key_lt k (start_key r) = false /\ key_lt k (end_key r) = true.
Proof.
  unfold contains. rewrite andb_true_iff, negb_true_iff. done.
Qed.

Lemma NoDup_subset_length {A} (l k : list A) :
  NoDup l -> (forall x, x ∈ l -> x ∈ k) -> (length l <= length k)%nat.
Proof.
  intros Hnd Hsub. by apply submseteq_length, NoDup_submseteq.
Qed.

Lemma three_way_total end_ we s ws R :
  exists c nx dek, three_way end_ we s ws R c nx dek.
Proof.
  destruct (key_lt end_ (end_key R)) eqn:E1; [eauto using three_way|].
  destruct (key_lt (end_key R) end_) eqn:E2; [eauto using three_way|].
  pose proof (key_lt_total _ _ E1 E2). eauto using three_way.
Qed.

Lemma DCHECK_holds cond : cond = true -> DCHECK_fails cond = false.
Proof. intros ->. unfold DCHECK_fails. by destruct NDEBUG. Qed.

Lemma emplace_is_Some i r (m : gmap Z Region) j :
  is_Some (emplace i r m !! j) <-> j = i \/ is_Some (m !! j).
Proof.
  unfold emplace. destruct (m !! i) eqn:E.
  - split; [by right | intros [->|?]; [by rewrite E | done]].
  - destruct (decide (i = j)) as [->|Hij].
    + rewrite lookup_insert_eq. split; [by left | by eexists].
    + rewrite lookup_insert_ne by done. split; [by right | by intros [->|?]].
Qed.

Lemma push_back_is_Some {P} i (x : P) (m : gmap Z (list P)) j :
  is_Some (push_back i x m !! j) <-> j = i \/ is_Some (m !! j).
Proof.
  unfold push_back. destruct (decide (i = j)) as [->|Hij].
  - rewrite lookup_insert_eq. split; [by left | by eexists].
  - rewrite lookup_insert_ne by done. split; [by right | by intros [->|?]].
Qed.

(** A region found for a key that lies at or beyond the end of every region
    visited so far has an id the region map does not hold. *)
Lemma lookup_is_fresh (visited : list Region) (m : gmap Z Region) k :
  lookup_contains -> region_ids_unique ->
  (forall R, R ∈ visited -> exists k', lookup_ok k' /\ region_at k' = R) ->
  (forall i, is_Some (m !! i) -> exists R, R ∈ visited /\ RegionId R = i) ->
  (forall R, R ∈ visited -> key_lt k (end_key R) = false) ->
  lookup_ok k ->
  (region_at k ∉ visited) /\ not_found (RegionId (region_at k)) m = true.
Proof.
  intros contract unique Hlook Hdom Hends Hok.
  assert (Hfresh : region_at k ∉ visited).
  { intros Hv. pose proof (contract _ Hok) as [_ Hhi]%contains_iff.
    by rewrite (Hends _ Hv) in Hhi. }
  split; [done|]. unfold not_found.
  destruct (m !! RegionId (region_at k)) eqn:E; [|done].
  destruct (Hdom (RegionId (region_at k))) as (R & HR & Hid); [by rewrite E|].
  destruct (Hlook R HR) as (k' & Hk' & <-).
  destruct Hfresh. by rewrite <- (unique k' k Hk' Hok Hid).
Qed.

Section Walk.
Context (cluster : list Region) (end_ : string) (with_end : bool).
Hypothesis contract : lookup_contains.
Hypothesis unique : region_ids_unique.
Hypothesis finite : regions_within cluster.

Lemma process_others_refines fuel : forall wst visited,
  NoDup visited ->
  (forall R, R ∈ visited -> R ∈ cluster) ->
  (forall R, R ∈ visited -> exists k, lookup_ok k /\ region_at k = R) ->
  (forall i, is_Some (region_id_to_region wst !! i) ->
     exists R, R ∈ visited /\ RegionId R = i) ->
  (forall R, R ∈ visited -> key_lt (next wst) (end_key R) = false) ->
  (length cluster < fuel + length visited)%nat ->
  next wst <> EmptyString ->
  key_lt (next wst) end_ = true ->
  delete_end_key wst = false ->
  (exists st log,
     process_others fuel end_ with_end wst = (Return st, log) /\
     lookup_failure st /\ only_lookups log) \/
  (exists wst' log emitted,
     process_others fuel end_ with_end wst = (Val wst', log) /\
     only_lookups log /\
     spec_walk end_ with_end (next wst) true emitted (delete_end_key wst') /\
     to_delete wst' = fold_left push_emitted emitted (to_delete wst) /\
     region_id_to_region wst'
     = fold_left emplace_emitted emitted (region_id_to_region wst) /\
     (forall e, e ∈ emitted -> key_lt (next wst) (end_key e.1) = true) /\
     NoDup (map fst emitted)).
Proof.
  induction fuel as [|fuel IH];
    intros wst visited Hnd Hsub Hlook Hdom Hends Hfuel Hnext Hlt Hdek.
  { pose proof (NoDup_subset_length _ _ Hnd Hsub). lia. }
  simpl.
  assert (key_empty (next wst) = false) as ->.
  { destruct (key_empty (next wst)) eqn:E; [|done]. by apply key_empty_true in E. }
  assert (key_eq (next wst) end_ = false) as ->.
  { apply key_eq_false. intros E. rewrite E, key_lt_irrefl in Hlt. done. }
  rewrite Hdek. unfold lookup. simpl.
  destruct (decide (lookup_ok (next wst))) as [Hok|Hfail].
  2:{ left. unfold lookup_ok in Hfail.
      destruct (LookupRegionByKey (next wst)) as [got tmp] eqn:El. simpl in *.
      destruct (IsOK got) eqn:Eg; [done|]. simpl.
      exists got, [EvLookup (next wst)]. split; [done|]. split.
      - exists (next wst). unfold lookup_ok. rewrite El. simpl. rewrite Eg. done.
      - by repeat constructor. }
  pose proof (contract _ Hok) as Hin. pose proof (finite _ Hok) as Hcl.
  apply contains_iff in Hin as [Hlo Hhi].
  destruct (lookup_is_fresh visited (region_id_to_region wst) (next wst)
              contract unique Hlook Hdom Hends Hok) as [Hfresh Hnf].
  apply DCHECK_holds in Hnf.
  assert (Hself : exists k, lookup_ok k /\ region_at k = region_at (next wst)) by eauto.
  unfold lookup_ok in Hok. unfold region_at in Hlo, Hhi, Hcl, Hfresh, Hnf, Hself.
  pose proof (fun c dek => walk_stop end_ with_end (next wst) true c dek) as Hstop.
  pose proof (fun c nx rest dek => walk_on end_ with_end (next wst) true c nx rest dek)
    as Hon.
  unfold lookup_ok, region_at in Hstop, Hon.
  destruct (LookupRegionByKey (next wst)) as [got tmp] eqn:El. simpl in *.
  rewrite Hok. simpl. rewrite Hnf.
  destruct (key_lt end_ (end_key tmp)) eqn:E1.
  { right. eexists _, _, [(tmp, _)]. split; [reflexivity|]. simpl.
    split; [by repeat constructor|].
    split; [apply Hstop; [done | by constructor]|].
    split; [done|]. split; [done|]. split.
    - intros e He. apply list_elem_of_singleton in He as ->. done.
    - repeat constructor. by intros ?%elem_of_nil. }
  destruct (key_lt (end_key tmp) end_) eqn:E2.
  2:{ pose proof (key_lt_total _ _ E1 E2) as Heq.
      assert (key_eq end_ (end_key tmp) = true) as -> by (by apply key_eq_true).
      simpl.
      right. eexists _, _, [(tmp, _)]. split; [reflexivity|]. simpl.
      split; [by repeat constructor|].
      split.
      { apply Hstop; [done|].
        replace (if with_end then true else false) with with_end
          by (by destruct with_end).
        by apply tw_boundary. }
      split; [done|]. split; [done|]. split.
      - intros e He. apply list_elem_of_singleton in He as ->. done.
      - repeat constructor. by intros ?%elem_of_nil. }
  match goal with
  | |- context [process_others fuel end_ with_end ?w] => set (wst2 := w)
  end.
  destruct (IH wst2 (tmp :: visited)) as
    [(st & log & Hrun & Hst & Hlog)|(wst' & log & emitted & Hrun & Hlog & Hw & Htd & Hrir & Hgt & Hnd')].
  - by constructor.
  - intros R [->|HR]%elem_of_cons; [done | by apply Hsub].
  - intros R [->|HR]%elem_of_cons; [exact Hself | by apply Hlook].
  - simpl. intros i [->|Hi]%emplace_is_Some.
    + exists tmp. split; [apply list_elem_of_here | done].
    + destruct (Hdom i Hi) as (R & HR & Hid). exists R.
      split; [by apply list_elem_of_further | done].
  - simpl. intros R [->|HR]%elem_of_cons; [apply key_lt_irrefl|].
    destruct (key_lt (end_key tmp) (end_key R)) eqn:E; [|done].
    pose proof (key_lt_trans _ _ _ Hhi E) as Hc. rewrite (Hends _ HR) in Hc. done.
  - simpl. lia.
  - simpl. intros E. rewrite E, key_lt_empty in Hhi. done.
  - done.
  - done.
  - left. rewrite Hrun. simpl. exists st, (EvLookup (next wst) :: log).
    split; [done|]. split; [done|]. by constructor.
  - right. rewrite Hrun. simpl.
    exists wst', (EvLookup (next wst) :: log),
      ((tmp, {| dr_start := next wst; dr_with_start := true;
                dr_end := end_key tmp; dr_with_end := false |}) :: emitted).
    split; [reflexivity|]. split; [by constructor|].
    split; [eapply Hon; [done | by constructor | exact Hw]|].
    split; [exact Htd|]. split; [exact Hrir|]. split.
    + intros e [->|He]%elem_of_cons; [done|].
      eapply key_lt_trans; [exact Hhi | by apply Hgt].
    + simpl. constructor; [|done]. intros Hin.
      apply list_elem_of_In, in_map_iff in Hin as ([R c] & HR & He). simpl in HR. subst R.
      apply list_elem_of_In in He. apply Hgt in He. simpl in He.
      rewrite key_lt_irrefl in He. done.
Qed.

End Walk.

Lemma process_others_done fuel end_ with_end wst :
  key_empty (next wst) = true -> process_others fuel end_ with_end wst = ret wst.
Proof. intros H. destruct fuel; simpl; by rewrite H. Qed.

Lemma walk_refines cluster fuel start end_ ws we :
  lookup_contains -> region_ids_unique -> regions_within cluster ->
  key_lt start end_ = true ->
  (length cluster <= fuel)%nat ->
  (exists st log,
     DeleteRange_walk fuel start end_ ws we = (Return st, log) /\
     lookup_failure st /\ only_lookups log) \/
  (exists wst log emitted,
     DeleteRange_walk fuel start end_ ws we = (Val wst, log) /\
     only_lookups log /\
     spec_walk end_ we start ws emitted (delete_end_key wst) /\
     to_delete wst = fold_left push_emitted emitted ∅ /\
     region_id_to_region wst = fold_left emplace_emitted emitted ∅ /\
     NoDup (map fst emitted)).
Proof.
  intros contract unique finite Hlt Hfuel. unfold DeleteRange_walk, lookup. simpl.
  assert (Hend : end_ <> EmptyString).
  { intros ->. by rewrite key_lt_empty in Hlt. }
  destruct (decide (lookup_ok start)) as [Hok|Hfail].
  2:{ left. unfold lookup_ok in Hfail.
      destruct (LookupRegionByKey start) as [got tmp] eqn:El. simpl in *.
      destruct (IsOK got) eqn:Eg; [done|]. simpl.
      exists got, [EvLookup start]. split; [done|]. split.
      - exists start. unfold lookup_ok. rewrite El. simpl. by rewrite Eg.
      - by repeat constructor. }
  pose proof (contract _ Hok) as Hin. pose proof (finite _ Hok) as Hcl.
  apply contains_iff in Hin as [Hlo Hhi].
  pose proof (fun c dek => walk_stop end_ we start ws c dek Hok) as Hstop.
  pose proof (fun c nx rest dek => walk_on end_ we start ws c nx rest dek Hok) as Hon.
  assert (Hself : exists k, lookup_ok k /\ region_at k = region_at start) by eauto.
  unfold lookup_ok in Hok. unfold region_at in Hlo, Hhi, Hcl, Hstop, Hon, Hself.
  destruct (LookupRegionByKey start) as [got tmp] eqn:El. simpl in *.
  rewrite Hok. simpl. unfold process_start.
  destruct (key_lt end_ (end_key tmp)) eqn:E1.
  { simpl. assert (key_eq "" end_ = false) as -> by (by apply key_eq_false).
    rewrite process_others_done by done. simpl.
    right. eexists _, _, [(tmp, _)]. split; [reflexivity|].
    split; [by repeat constructor|].
    split; [apply Hstop; by constructor|].
    split; [done|]. split; [done|].
    repeat constructor. by intros ?%elem_of_nil. }
  destruct (key_lt (end_key tmp) end_) eqn:E2.
  2:{ pose proof (key_lt_total _ _ E1 E2) as Heq.
      assert (key_eq end_ (end_key tmp) = true) as -> by (by apply key_eq_true).
      simpl. assert (key_eq "" end_ = false) as -> by (by apply key_eq_false).
      rewrite process_others_done by done. simpl.
      right. eexists _, _, [(tmp, _)]. split; [reflexivity|].
      split; [by repeat constructor|].
      split.
      { apply Hstop.
        replace (if we then true else false) with we by (by destruct we).
        by apply tw_boundary. }
      split; [done|]. split; [done|].
      repeat constructor. by intros ?%elem_of_nil. }
  simpl.
  assert (key_eq (end_key tmp) end_ = false) as ->.
  { apply key_eq_false. intros E. rewrite E, key_lt_irrefl in E2. done. }
  match goal with
  | |- context [process_others fuel end_ we ?w] => set (wst1 := w)
  end.
  destruct (process_others_refines cluster end_ we contract unique finite fuel wst1 [tmp]) as
    [(st & log & Hrun & Hst & Hlog)|(wst' & log & emitted & Hrun & Hlog & Hw & Htd & Hrir & Hgt & Hnd')].
  - repeat constructor. by intros ?%elem_of_nil.
  - by intros R ->%list_elem_of_singleton.
  - by intros R ->%list_elem_of_singleton.
  - simpl. intros i [->|Hi]%emplace_is_Some.
    + exists tmp. split; [apply list_elem_of_here | done].
    + rewrite lookup_empty in Hi. by destruct Hi.
  - simpl. intros R ->%list_elem_of_singleton. apply key_lt_irrefl.
  - simpl. lia.
  - simpl. intros E. rewrite E, key_lt_empty in Hhi. done.
  - done.
  - done.
  - left. rewrite Hrun. simpl. exists st, (EvLookup start :: log).
    split; [done|]. split; [done|]. by constructor.
  - right. rewrite Hrun. simpl.
    exists wst', (EvLookup start :: log),
      ((tmp, {| dr_start := start; dr_with_start := ws;
                dr_end := end_key tmp; dr_with_end := false |}) :: emitted).
    split; [reflexivity|]. split; [by constructor|].
    split; [eapply Hon; [by constructor | exact Hw]|].
    split; [exact Htd|]. split; [exact Hrir|].
    simpl. constructor; [|done]. intros Hin.
    apply list_elem_of_In, in_map_iff in Hin as ([R c] & HR & He). simpl in HR. subst R.
    apply list_elem_of_In in He. apply Hgt in He. simpl in He.
    rewrite key_lt_irrefl in He. done.
Qed.

(** The regions of a walk have pairwise distinct ids. *)
Lemma spec_walk_elements end_ we s ws emitted dek :
  spec_walk end_ we s ws emitted dek ->
  forall e, e ∈ emitted ->
    exists s' ws' nx d,
      lookup_ok s' /\ e.1 = region_at s' /\ three_way end_ we s' ws' e.1 e.2 nx d.
Proof.
  induction 1 as [s ws c dek Hok Htw|s ws c nx rest dek Hok Htw _ IH]; intros e He.
  - apply list_elem_of_singleton in He as ->. simpl. eauto 8.
  - apply elem_of_cons in He as [->|He]; [simpl; eauto 8 | by apply IH].
Qed.

Lemma emitted_ids_NoDup end_ we s ws emitted dek :
  region_ids_unique ->
  spec_walk end_ we s ws emitted dek ->
  NoDup (map fst emitted) ->
  NoDup (map emitted_id emitted).
Proof.
  intros Huniq Hw Hnd.
  assert (map emitted_id emitted = RegionId <$> map fst emitted) as ->
    by (by rewrite <- list_fmap_compose).
  apply NoDup_fmap_2_strong; [|done].
  intros R1 R2 H1 H2 Hid.
  apply list_elem_of_In, in_map_iff in H1 as (e1 & <- & H1).
  apply list_elem_of_In, in_map_iff in H2 as (e2 & <- & H2).
  apply list_elem_of_In in H1, H2.
  destruct (spec_walk_elements _ _ _ _ _ _ Hw e1 H1) as (s1 & _ & _ & _ & Hok1 & HR1 & _).
  destruct (spec_walk_elements _ _ _ _ _ _ Hw e2 H2) as (s2 & _ & _ & _ & Hok2 & HR2 & _).
  rewrite HR1, HR2 in *. by apply Huniq.
Qed.

(** *** C1: the walker follows the three-way case analysis *)

(** C1. Under the lookup contract of the meta cache, with unique region
    ids, over a finite cluster and with [start < end], the walk of
    [DeleteRange] ends (given one unit of fuel per region of the cluster) and
    no check of it fails, the debug check on the region map included: either
    a lookup failed and its status is returned, or the walker's maps hold
    exactly the sub-requests of the walk the design describes.  That walk
    applies the three-way case analysis to the region containing [start] with
    the user's [with_start]; beyond the region's end it goes on at the
    region's end key with an inclusive start; and the regions it visits are
    pairwise distinct, and so are their ids. *)
Theorem DeleteRange_walk_follows_case_analysis :
  forall cluster fuel start end_ ws we,
    lookup_contains -> region_ids_unique -> regions_within cluster ->
    key_lt start end_ = true ->
    (length cluster <= fuel)%nat ->
    (exists st log,
       DeleteRange_walk fuel start end_ ws we = (Return st, log) /\
       lookup_failure st /\ only_lookups log) \/
    (exists wst log emitted,
       DeleteRange_walk fuel start end_ ws we = (Val wst, log) /\
       only_lookups log /\
       spec_walk end_ we start ws emitted (delete_end_key wst) /\
       to_delete wst = fold_left push_emitted emitted ∅ /\
       region_id_to_region wst = fold_left emplace_emitted emitted ∅ /\
       NoDup (map fst emitted) /\
       NoDup (map emitted_id emitted)).
Proof.
  intros cluster fuel start end_ ws we contract unique finite Hlt Hfuel.
  destruct (walk_refines cluster fuel start end_ ws we contract unique finite Hlt Hfuel)
    as [Hfail|(wst & log & emitted & Hrun & Hlog & Hw & Htd & Hrir & Hnd)];
    [by left|].
  right. exists wst, log, emitted.
  pose proof (emitted_ids_NoDup _ _ _ _ _ _ unique Hw Hnd) as Hids.
  by repeat (split; [done|]).
Qed.

(** *** What the walk of the design covers *)

Lemma three_way_start end_ we s ws R c nx dek :
  three_way end_ we s ws R c nx dek -> dr_start c = s /\ dr_with_start c = ws.
Proof. by destruct 1. Qed.

Lemma three_way_within end_ we s ws R c nx dek k :
  three_way end_ we s ws R c nx dek ->
  contains R s = true ->
  covers (range_of c) k -> contains R k = true.
Proof.
  intros Htw [Hlo Hhi]%contains_iff [Hs He]. apply contains_iff.
  assert (Hsk : key_lt k s = false).
  { destruct Htw; simpl in *; destruct Hs as [Hs|[_ ->]];
      (by apply key_lt_asym) || apply key_lt_irrefl. }
  split; [by eapply key_le_trans|].
  destruct Htw as [Hin|Hbe|Heq]; simpl in *.
  - destruct He as [He|[_ ->]]; [by eapply key_lt_trans | done].
  - by destruct He as [He|[? _]].
  - subst end_. by destruct He as [He|[? _]].
Qed.

Lemma spec_walk_within end_ we s ws emitted dek :
  lookup_contains ->
  spec_walk end_ we s ws emitted dek ->
  forall e k, e ∈ emitted -> covers (range_of e.2) k -> contains e.1 k = true.
Proof.
  intros contract Hw e k He Hk.
  destruct (spec_walk_elements _ _ _ _ _ _ Hw e He) as (s' & ws' & nx & d & Hok & HR & Htw).
  eapply three_way_within; [exact Htw | | exact Hk].
  rewrite HR. by apply contract.
Qed.

Lemma spec_walk_point_delete end_ we s ws emitted dek :
  spec_walk end_ we s ws emitted dek ->
  dek = true -> we = true /\ exists e, e ∈ emitted /\ end_key e.1 = end_.
Proof.
  induction 1 as [s ws c dek Hok Htw|s ws c nx rest dek Hok Htw _ IH]; intros Hdek.
  - inversion Htw; subst; [done|]. split; [done|].
    eexists. split; [apply list_elem_of_here | done].
  - destruct (IH Hdek) as (Hwe & e & He & Hend). split; [done|].
    exists e. split; [by apply list_elem_of_further | done].
Qed.

Lemma spec_walk_covers end_ we s ws emitted dek :
  lookup_contains ->
  spec_walk end_ we s ws emitted dek ->
  key_lt s end_ = true ->
  forall k,
    (Exists (fun e => covers (range_of e.2) k) emitted \/ (dek = true /\ k = end_)) <->
    covers {| range_start_key := s; range_end_key := end_;
              with_start := ws; with_end := we |} k.
Proof.
  intros contract.
  induction 1 as [s ws c dek Hok Htw|s ws c nx rest dek Hok Htw Hrest IH]; intros Hlt k.
  - rewrite Exists_cons, Exists_nil.
    inversion Htw as [Hin|?|Heq]; subst; unfold covers; simpl.
    + split; [intros [[H|[]]|[[=] _]]; exact H | intros H; left; left; exact H].
    + split.
      * intros [[[Hs He]|[]]|[-> ->]]; [|by auto].
        split; [done|]. destruct He as [He|[? _]]; [by left | done].
      * intros [Hs [He|[-> ->]]]; [left; left | by right]. by split; [|left].
  - pose proof (contract _ Hok) as [Hlo Hhi]%contains_iff.
    inversion Htw as [|Hbe|]; subst.
    specialize (IH Hbe k). rewrite Exists_cons. unfold covers in *. simpl in *.
    split.
    + intros [[[Hs He]|Hr]|Hd].
      * split; [done|]. left. destruct He as [He|[? _]]; [|done].
        by eapply key_lt_trans.
      * destruct (proj1 IH (or_introl Hr)) as [Hs He]. split; [|done].
        left. destruct Hs as [Hs|[_ ->]]; [by eapply key_lt_trans | done].
      * destruct (proj1 IH (or_intror Hd)) as [Hs He]. split; [|done].
        left. destruct Hs as [Hs|[_ ->]]; [by eapply key_lt_trans | done].
    + intros [Hs He].
      destruct (key_lt k (end_key (region_at s))) eqn:Ek.
      * left. left. by split; [|left].
      * assert (Hs' : key_lt (end_key (region_at s)) k = true \/
                      (true = true /\ k = end_key (region_at s))).
        { destruct (key_lt (end_key (region_at s)) k) eqn:Ek'; [by left|].
          right. split; [done|]. by apply key_lt_total. }
        destruct (proj2 IH (conj Hs' He)) as [Hr|Hd]; [left; by right | by right].
Qed.

(** *** From the walker's maps to the sub-batch vector *)

Lemma NoDup_map_inj {A B} (f : A -> B) l x y :
  NoDup (map f l) -> x ∈ l -> y ∈ l -> f x = f y -> x = y.
Proof.
  induction l as [|z l IH]; simpl; intros Hnd Hx Hy Hf; [by apply elem_of_nil in Hx|].
  apply NoDup_cons in Hnd as [Hz Hnd].
  apply elem_of_cons in Hx as [->|Hx]; apply elem_of_cons in Hy as [->|Hy]; [done| | |by apply IH].
  - destruct Hz. rewrite Hf. apply list_elem_of_In, in_map. by apply list_elem_of_In.
  - destruct Hz. rewrite <- Hf. apply list_elem_of_In, in_map. by apply list_elem_of_In.
Qed.

Lemma fold_push_lookup l : forall m0,
  NoDup (map emitted_id l) ->
  (forall e, e ∈ l -> m0 !! emitted_id e = None) ->
  forall i cs,
    fold_left push_emitted l m0 !! i = Some cs <->
    m0 !! i = Some cs \/ exists e, e ∈ l /\ emitted_id e = i /\ cs = [e.2].
Proof.
  induction l as [|e l IH]; simpl; intros m0 Hnd Hfresh i cs.
  - split; [by left | intros [?|(e & He & _)]; [done | by apply elem_of_nil in He]].
  - apply NoDup_cons in Hnd as [He Hnd].
    pose proof (Hfresh e (list_elem_of_here _ _)) as Hne.
    rewrite IH; [|done|].
    2:{ intros e' He'. unfold push_emitted, push_back.
        rewrite lookup_insert_ne; [apply Hfresh; by apply list_elem_of_further|].
        intros Heq. destruct He. unfold emitted_id in *. rewrite Heq.
        apply list_elem_of_In, (in_map emitted_id). by apply list_elem_of_In. }
    unfold push_emitted at 1, push_back. unfold emitted_id in *. rewrite Hne. simpl.
    destruct (decide (RegionId e.1 = i)) as [<-|Hi].
    + rewrite lookup_insert_eq, Hne. split.
      * intros [[= <-]|(e' & He' & Hid & ->)]; right.
        -- exists e. split; [apply list_elem_of_here | done].
        -- exists e'. split; [by apply list_elem_of_further | done].
      * intros [?|(e' & [->|He']%elem_of_cons & Hid & ->)]; [done | by left |].
        right. eauto.
    + rewrite lookup_insert_ne by done. split.
      * intros [?|(e' & He' & Hid & ->)]; [by left|]. right.
        exists e'. split; [by apply list_elem_of_further | done].
      * intros [?|(e' & [->|He']%elem_of_cons & Hid & ->)]; [by left | done |].
        right. eauto.
Qed.

Lemma fold_emplace_lookup l : forall m0,
  NoDup (map emitted_id l) ->
  (forall e, e ∈ l -> m0 !! emitted_id e = None) ->
  forall i R,
    fold_left emplace_emitted l m0 !! i = Some R <->
    m0 !! i = Some R \/ exists e, e ∈ l /\ emitted_id e = i /\ R = e.1.
Proof.
  induction l as [|e l IH]; simpl; intros m0 Hnd Hfresh i R.
  - split; [by left | intros [?|(e & He & _)]; [done | by apply elem_of_nil in He]].
  - apply NoDup_cons in Hnd as [He Hnd].
    pose proof (Hfresh e (list_elem_of_here _ _)) as Hne.
    unfold emplace_emitted at 2, emplace. unfold emitted_id in *. rewrite Hne.
    rewrite IH; [|done|].
    2:{ intros e' He'.
        rewrite lookup_insert_ne; [apply Hfresh; by apply list_elem_of_further|].
        intros Heq. destruct He. rewrite Heq.
        apply list_elem_of_In, (in_map emitted_id). by apply list_elem_of_In. }
    destruct (decide (RegionId e.1 = i)) as [<-|Hi].
    + rewrite lookup_insert_eq, Hne. split.
      * intros [[= <-]|(e' & He' & Hid & ->)]; right.
        -- exists e. split; [apply list_elem_of_here | done].
        -- exists e'. split; [by apply list_elem_of_further | done].
      * intros [?|(e' & [->|He']%elem_of_cons & Hid & ->)]; [done | by left |].
        right. eauto.
    + rewrite lookup_insert_ne by done. split.
      * intros [?|(e' & He' & Hid & ->)]; [by left|]. right.
        exists e'. split; [by apply list_elem_of_further | done].
      * intros [?|(e' & [->|He']%elem_of_cons & Hid & ->)]; [by left | done |].
        right. eauto.
Qed.

(** The two maps of the walker always hold the same ids, so the
    [DCHECK_EQ] on their sizes holds. *)
Lemma same_keys_size {A B} (m1 : gmap Z A) (m2 : gmap Z B) :
  (forall i, is_Some (m1 !! i) <-> is_Some (m2 !! i)) -> size m1 = size m2.
Proof.
  intros H. rewrite <- !size_dom.
  assert (dom m1 = dom m2) as ->; [|done].
  apply set_eq. intros i. by rewrite !elem_of_dom.
Qed.

Lemma walk_maps_same_keys emitted : forall (m1 : gmap Z Region) m2,
  (forall i, is_Some (m1 !! i) <-> is_Some (m2 !! i)) ->
  forall i, is_Some (fold_left emplace_emitted emitted m1 !! i)
            <-> is_Some (fold_left push_emitted emitted m2 !! i).
Proof.
  induction emitted as [|e l IH]; intros m1 m2 H; simpl; [done|].
  apply IH. intros i. unfold emplace_emitted, push_emitted.
  by rewrite emplace_is_Some, push_back_is_Some, H.
Qed.

Lemma sizes_checked (wst : WalkState) :
  (forall i, is_Some (region_id_to_region wst !! i) <-> is_Some (to_delete wst !! i)) ->
  DCHECK_fails (size (region_id_to_region wst) =? size (to_delete wst))%nat = false.
Proof. intros H. by apply DCHECK_holds, Nat.eqb_eq, same_keys_size. Qed.

Lemma walk_build emitted wst :
  NoDup (map emitted_id emitted) ->
  to_delete wst = fold_left push_emitted emitted ∅ ->
  region_id_to_region wst = fold_left emplace_emitted emitted ∅ ->
  exists subs,
    DeleteRange_build wst = (Val subs, []) /\
    (forall s, s ∈ subs <-> exists e, e ∈ emitted /\ s = delete_range_sub e) /\
    NoDup (map (fun s => RegionId (region s)) subs).
Proof.
  intros Hnd Htd Hrir. unfold DeleteRange_build.
  rewrite sizes_checked.
  2:{ rewrite Htd, Hrir. apply walk_maps_same_keys. intros i.
      rewrite !lookup_empty. split; by intros [? ?]. }
  unfold build_sub_batches.
  assert (Hentry : forall i cs, (i, cs) ∈ iterate _ (to_delete wst) <->
            exists e, e ∈ emitted /\ emitted_id e = i /\ cs = [e.2]).
  { intros i cs. rewrite elem_of_iterate, Htd, fold_push_lookup; [|done|by intros].
    rewrite lookup_empty. split; [by intros [?|?] | by right]. }
  assert (Hregion : forall e, e ∈ emitted ->
            region_id_to_region wst !! emitted_id e = Some e.1).
  { intros e He. rewrite Hrir. apply fold_emplace_lookup; [done | by intros|].
    right. eauto. }
  assert (Hbuild : forall e, e ∈ emitted ->
            build_sub_batch make_delete_range_rpc (region_id_to_region wst)
              (emitted_id e, [e.2]) = (Val (delete_range_sub e), [])).
  { intros e He. unfold build_sub_batch. by rewrite (Hregion e He). }
  destruct (mapM_silent (build_sub_batch make_delete_range_rpc (region_id_to_region wst))
              (iterate _ (to_delete wst))) as (subs & Hrun & HF).
  { intros [i cs] (e & He & <- & ->)%Hentry. rewrite (Hbuild e He). eauto. }
  exists subs. split; [done|]. split.
  - intros s. split.
    + intros Hs. destruct (Forall2_elem_r _ _ _ _ HF Hs) as ([i cs] & Hx & Hb).
      apply Hentry in Hx as (e & He & <- & ->). rewrite (Hbuild e He) in Hb.
      exists e. split; [done | congruence].
    + intros (e & He & ->).
      assert ((emitted_id e, [e.2]) ∈ iterate _ (to_delete wst)) as Hx
        by (apply Hentry; eauto).
      destruct (Forall2_elem_l _ _ _ _ HF Hx) as (s & Hs & Hb).
      rewrite (Hbuild e He) in Hb. congruence.
  - assert (map (fun s => RegionId (region s)) subs
            = map fst (iterate _ (to_delete wst))) as ->.
    { symmetry. eapply Forall2_map_eq; [exact HF|]. simpl.
      intros [i cs] s Hb. unfold build_sub_batch in Hb.
      destruct (region_id_to_region wst !! i) as [R|] eqn:ER; [|done].
      injection Hb as <-. simpl.
      rewrite Hrir in ER. apply fold_emplace_lookup in ER; [|done|by intros].
      rewrite lookup_empty in ER. by destruct ER as [?|(e & _ & <- & ->)]. }
    apply NoDup_fst_iterate.
Qed.

(** *** Dispatch and reduce of DeleteRange *)

Lemma ProcessSubBatchDeleteRange_run e :
  ProcessSubBatchDeleteRange (delete_range_sub e)
  = (Val (processed (delete_range_sub e)),
     [EvCall (region (delete_range_sub e)) (rpc (delete_range_sub e))]).
Proof.
  unfold ProcessSubBatchDeleteRange, processed, controller_Call. simpl.
  by destruct (Call _ _).
Qed.

Lemma point_deletes_app l1 l2 : point_deletes (l1 ++ l2) = (point_deletes l1 + point_deletes l2)%nat.
Proof. unfold point_deletes. by rewrite filter_app, length_app. Qed.

Lemma point_deletes_lookups log : only_lookups log -> point_deletes log = 0%nat.
Proof.
  unfold point_deletes. induction 1 as [|e l He _ IH]; [done|].
  rewrite filter_cons. destruct e; [|done]. simpl. exact IH.
Qed.

Lemma point_deletes_range_calls (subs : list SubBatchState) :
  (forall s, s ∈ subs -> exists e, s = delete_range_sub e) ->
  point_deletes (concat (map (fun s => [EvCall (region s) (rpc s)]) subs)) = 0%nat.
Proof.
  induction subs as [|s subs IH]; intros H; [done|].
  simpl. destruct (H s (list_elem_of_here _ _)) as [e ->].
  change (point_deletes (concat (map (fun s => [EvCall (region s) (rpc s)]) subs)) = 0%nat).
  apply IH. intros s' Hs'. apply H. by apply list_elem_of_further.
Qed.

Lemma Delete_run k :
  exists ds dlog, Delete k = (Val ds, dlog) /\ (point_deletes dlog <= 1)%nat.
Proof.
  unfold Delete, lookup, controller_Call. simpl.
  destruct (LookupRegionByKey k) as [got reg]. destruct (IsOK got); simpl.
  - destruct (Call reg _) as [call resp]. simpl. eexists _, _. split; [done|].
    unfold point_deletes. simpl. lia.
  - eexists _, _. split; [done|]. unfold point_deletes. simpl. lia.
Qed.

(** *** [int64_t] sums *)

Lemma wrap64_small z : in_int64 z -> wrap64 z = z.
Proof.
  unfold in_int64, wrap64.
  change (2 ^ 63) with 9223372036854775808.
  change (2 ^ 64) with 18446744073709551616.
  intros H. rewrite Z.mod_small; lia.
Qed.

Lemma wrap64_add_l a b : wrap64 (wrap64 a + b) = wrap64 (a + b).
Proof.
  unfold wrap64.
  replace ((a + 2 ^ 63) mod 2 ^ 64 - 2 ^ 63 + b + 2 ^ 63)
    with ((a + 2 ^ 63) mod 2 ^ 64 + b) by lia.
  rewrite Zplus_mod_idemp_l. f_equal. f_equal. lia.
Qed.

Lemma wrap64_idem z : wrap64 (wrap64 z) = wrap64 z.
Proof.
  pose proof (wrap64_add_l z 0) as H. by rewrite !Z.add_0_r in H.
Qed.

Lemma count_fold subs : forall n r,
  wrap64 n = n ->
  fold_left count_step subs (n, r)
  = (wrap64 (n + ok_delete_count subs), if IsOK r then first_non_ok subs else r).
Proof.
  unfold ok_delete_count, first_non_ok.
  induction subs as [|s subs IH]; intros n r Hn; simpl.
  - rewrite Z.add_0_r, Hn. by destruct r.
  - rewrite filter_cons. destruct (IsOK (status s)) eqn:Es; simpl.
    + rewrite IH by apply wrap64_idem. simpl. rewrite wrap64_add_l. f_equal. f_equal. lia.
    + rewrite IH by done. f_equal.
      destruct (IsOK r) eqn:Er; simpl; [by rewrite Es | by rewrite Er].
Qed.

Lemma DeleteRange_dispatch_run fuel start end_ ws we wst log subs :
  DeleteRange_walk fuel start end_ ws we = (Val wst, log) ->
  DeleteRange_build wst = (Val subs, []) ->
  (forall s, s ∈ subs -> exists e, s = delete_range_sub e) ->
  DeleteRange_dispatch fuel start end_ ws we
  = (Val (wst, map processed subs),
     log ++ concat (map (fun s => [EvCall (region s) (rpc s)]) subs)).
Proof.
  intros Hw Hb Hsubs. unfold DeleteRange_dispatch. rewrite Hw. simpl. rewrite Hb. simpl.
  rewrite (mapM_pure ProcessSubBatchDeleteRange processed
             (fun s => [EvCall (region s) (rpc s)])).
  - simpl. by rewrite app_nil_r.
  - intros s Hs. destruct (Hsubs s Hs) as [e ->]. apply ProcessSubBatchDeleteRange_run.
Qed.

(** The reduce phase of [DeleteRange] behind a dispatch: [ds] is the status of
    the point delete of [end] when it was scheduled (and OK when it was
    not). *)
Lemma DeleteRange_finish fuel start end_ ws we dc wst subs log :
  key_lt start end_ = true ->
  DeleteRange_dispatch fuel start end_ ws we = (Val (wst, subs), log) ->
  exists ds plog,
    (if delete_end_key wst then Delete end_ = (Val ds, plog)
     else ds = Ok /\ plog = []) /\
    (point_deletes plog <= 1)%nat /\
    DeleteRange fuel start end_ ws we dc
    = Finished (if IsOK ds then first_non_ok subs else ds)
        (wrap64 (ok_delete_count subs
                 + (if delete_end_key wst && IsOK ds then 1 else 0)))
        (log ++ plog).
Proof.
  intros Hlt Hd. unfold DeleteRange, DeleteRange_body. rewrite Hlt, Hd. simpl.
  unfold process_end_key.
  destruct (delete_end_key wst).
  - destruct (Delete_run end_) as (ds & plog & HD & Hpd). rewrite HD. simpl.
    exists ds, plog. split; [done|]. split; [done|].
    destruct (IsOK ds) eqn:Eds.
    + unfold ret. simpl. change (wrap64 (0 + 1)) with 1.
      rewrite (count_fold subs 1 Ok) by (by apply wrap64_small).
      unfold run. simpl. rewrite !app_nil_r. by rewrite Z.add_comm.
    + unfold ret. simpl. rewrite (count_fold subs 0 ds) by (by apply wrap64_small).
      unfold run. simpl. rewrite Eds. rewrite !app_nil_r. by rewrite Z.add_0_l, Z.add_0_r.
  - exists Ok, []. split; [done|]. split; [unfold point_deletes; simpl; lia|].
    unfold ret. simpl. rewrite (count_fold subs 0 Ok) by (by apply wrap64_small).
    unfold run. simpl. rewrite !app_nil_r. by rewrite Z.add_0_l, Z.add_0_r.
Qed.

(** *** C2: the sub-requests cover the requested range, each within its region *)

(** C2. Under the lookup contract, with unique region ids, over a finite
    cluster and with [s < e]: unless a lookup fails, the keys covered by the
    requests of the sub-batch vector, together with [e] when the point delete
    is scheduled, are exactly the keys between [s] and [e] with the
    inclusivity the user asked for at both ends; the request of each
    sub-batch covers keys of the region it is sent to only, and no two
    sub-batches go to the same region; the point delete is scheduled only
    when [we] holds and [e] is the end key of a visited region; and the call
    issues at most one point delete, and none when it is not scheduled. *)
Theorem DeleteRange_covers_the_range_within_regions :
  forall cluster fuel s e ws we dc,
    lookup_contains -> region_ids_unique -> regions_within cluster ->
    key_lt s e = true ->
    (length cluster <= fuel)%nat ->
    (exists st log,
       DeleteRange_walk fuel s e ws we = (Return st, log) /\ lookup_failure st) \/
    (exists wst log subs,
       DeleteRange_walk fuel s e ws we = (Val wst, log) /\
       DeleteRange_build wst = (Val subs, []) /\
       (forall k,
          (Exists (fun sub => sub_covers sub k) subs \/
           (delete_end_key wst = true /\ k = e)) <->
          covers {| range_start_key := s; range_end_key := e;
                    with_start := ws; with_end := we |} k) /\
       (forall sub k, sub ∈ subs -> sub_covers sub k -> contains (region sub) k = true) /\
       NoDup (map (fun sub => RegionId (region sub)) subs) /\
       (delete_end_key wst = true ->
        we = true /\ exists sub, sub ∈ subs /\ end_key (region sub) = e) /\
       (exists result count log',
          DeleteRange fuel s e ws we dc = Finished result count log' /\
          (point_deletes log' <= 1)%nat /\
          (delete_end_key wst = false -> point_deletes log' = 0%nat))).
Proof.
  intros cluster fuel s e ws we dc contract Huniq finite Hlt Hfuel.
  destruct (walk_refines cluster fuel s e ws we contract Huniq finite Hlt Hfuel)
    as [(st & log & Hrun & Hst & _)|(wst & log & emitted & Hrun & Hlog & Hw & Htd & Hrir & Hnd)].
  { left. eauto. }
  right.
  pose proof (emitted_ids_NoDup _ _ _ _ _ _ Huniq Hw Hnd) as Hids.
  destruct (walk_build emitted wst Hids Htd Hrir) as (subs & Hb & Hmem & Hsubnd).
  exists wst, log, subs. split; [done|]. split; [done|].
  assert (Hex : forall k, Exists (fun sub => sub_covers sub k) subs <->
                          Exists (fun e => covers (range_of e.2) k) emitted).
  { intros k. rewrite !Exists_exists. split.
    - intros (sub & (e0 & He0 & ->)%Hmem & Hk). exists e0. by split.
    - intros (e0 & He0 & Hk). exists (delete_range_sub e0).
      split; [apply Hmem; eauto | done]. }
  split; [|split; [|split; [done|split]]].
  - intros k. rewrite Hex. by apply spec_walk_covers.
  - intros sub k (e0 & He0 & ->)%Hmem Hk.
    by apply (spec_walk_within _ _ _ _ _ _ contract Hw e0 k).
  - intros Hdek.
    destruct (spec_walk_point_delete _ _ _ _ _ _ Hw Hdek) as (Hwe & e0 & He0 & Hend).
    split; [done|]. exists (delete_range_sub e0). split; [apply Hmem; eauto | done].
  - assert (Hshape : forall sub, sub ∈ subs -> exists e0, sub = delete_range_sub e0).
    { intros sub (e0 & _ & ->)%Hmem. eauto. }
    pose proof (DeleteRange_dispatch_run _ _ _ _ _ _ _ _ Hrun Hb Hshape) as Hd.
    destruct (DeleteRange_finish fuel s e ws we dc _ _ _ Hlt Hd)
      as (ds & plog & Hpoint & Hpd & Hfin).
    eexists _, _, _. split; [exact Hfin|].
    rewrite !point_deletes_app, (point_deletes_lookups _ Hlog),
      (point_deletes_range_calls _ Hshape).
    split; [lia|]. intros Hdek. rewrite Hdek in Hpoint. by destruct Hpoint as [_ ->].
Qed.

(** *** C5: the count and the status of DeleteRange *)

(** C5 (amended). For every [DeleteRange] call that dispatches, with [subs]
    the processed sub-batch vector and [ds] the status of the point delete of
    [end] when it was scheduled: the count reported through the output
    parameter is the [int64_t] sum of the counts of the sub-batches whose
    status is OK, plus 1 exactly when the point delete was scheduled and
    succeeded, whatever the returned status; and the returned status is the
    status of the point delete when it was scheduled and failed, and
    otherwise the first sub-batch failure (OK when there is none). *)
Theorem DeleteRange_count_and_status :
  forall fuel start end_ ws we dc wst subs log,
    key_lt start end_ = true ->
    DeleteRange_dispatch fuel start end_ ws we = (Val (wst, subs), log) ->
    exists ds plog count,
      (if delete_end_key wst then Delete end_ = (Val ds, plog)
       else ds = Ok /\ plog = []) /\
      DeleteRange fuel start end_ ws we dc
      = Finished (if IsOK ds then first_non_ok subs else ds) count (log ++ plog) /\
      count = wrap64 (ok_delete_count subs
                      + (if delete_end_key wst && IsOK ds then 1 else 0)) /\
      (in_int64 (ok_delete_count subs
                 + (if delete_end_key wst && IsOK ds then 1 else 0)) ->
       count = ok_delete_count subs
               + (if delete_end_key wst && IsOK ds then 1 else 0)) /\
      aggregate_of subs (first_non_ok subs).
Proof.
  intros fuel start end_ ws we dc wst subs log Hlt Hd.
  destruct (DeleteRange_finish fuel start end_ ws we dc wst subs log Hlt Hd)
    as (ds & plog & Hpoint & _ & Hfin).
  exists ds, plog, (wrap64 (ok_delete_count subs
                            + (if delete_end_key wst && IsOK ds then 1 else 0))).
  split; [done|]. split; [done|]. split; [done|].
  split; [apply wrap64_small | apply aggregate_first_non_ok].
Qed.

(** *** C8: the precondition test of DeleteRange *)

Lemma bind_log_cons {A B} (m : M A) (k : A -> M B) e t :
  m.2 = e :: t -> exists t', (bind m k).2 = e :: t'.
Proof.
  destruct m as [[a| st | f |] t0]; simpl; intros ->; eauto.
  destruct (k a). simpl. eauto.
Qed.

Lemma log_of_run {O} (body : M (Status * O)) out0 : log_of (run body out0) = body.2.
Proof. by destruct body as [[[st out]| st | f |] t]. Qed.

Lemma DeleteRange_log_starts_with_lookup fuel start end_ ws we dc :
  key_lt start end_ = true ->
  exists log', log_of (DeleteRange fuel start end_ ws we dc) = EvLookup start :: log'.
Proof.
  intros Hlt. unfold DeleteRange. rewrite log_of_run.
  unfold DeleteRange_body. rewrite Hlt. simpl.
  assert (Hwalk : exists t, (DeleteRange_walk fuel start end_ ws we).2 = EvLookup start :: t).
  { unfold DeleteRange_walk. by eapply bind_log_cons. }
  destruct Hwalk as [t Hwalk].
  assert (Hdisp : exists t, (DeleteRange_dispatch fuel start end_ ws we).2
                            = EvLookup start :: t).
  { unfold DeleteRange_dispatch. by eapply bind_log_cons. }
  destruct Hdisp as [t' Hdisp]. by eapply bind_log_cons.
Qed.

(** C8 (amended). [DeleteRange] tests [start < end] and nothing else.  Every
    call with [start >= end], which includes every call with an empty [end],
    returns [IllegalState] with nothing logged (no lookup, no RPC) and the
    count untouched.  Every call with [start < end] passes the test, an empty
    [start] included, and goes on to look up [start]. *)
Theorem DeleteRange_rejects_start_not_below_end :
  forall fuel start end_ ws we dc,
    (key_lt start end_ = false ->
     DeleteRange fuel start end_ ws we dc
     = Finished (IllegalState "start key must < end key") dc []) /\
    (end_ = EmptyString -> key_lt start end_ = false) /\
    (key_lt start end_ = true ->
     exists log', log_of (DeleteRange fuel start end_ ws we dc) = EvLookup start :: log').
Proof.
  intros fuel start end_ ws we dc. split; [|split].
  - intros Hlt. unfold DeleteRange, DeleteRange_body. by rewrite Hlt.
  - intros ->. apply key_lt_empty.
  - apply DeleteRange_log_starts_with_lookup.
Qed.

(** *** C4: the sub-requests are the partition of the inputs *)

Lemma inputs_of_map {P Q} (g : P -> Q) (key_of : P -> string) (key_of' : Q -> string)
    inputs i :
  (forall x, key_of' (g x) = key_of x) ->
  inputs_of key_of' (map g inputs) i = map g (inputs_of key_of inputs i).
Proof.
  intros Hk. unfold inputs_of.
  induction inputs as [|x l IH]; [done|].
  simpl. rewrite !filter_cons.
  assert (region_id_of key_of' (g x) = region_id_of key_of x) as ->
    by (unfold region_id_of, region_of; by rewrite Hk).
  destruct (decide (region_id_of key_of x = i)); simpl; by rewrite IH.
Qed.

(** A partition stays one when the inputs are written in another form. *)
Lemma partitioned_map {P Q} (g : P -> Q) (key_of : P -> string) (key_of' : Q -> string)
    make_rpc make_rpc' inputs subs :
  (forall x, key_of' (g x) = key_of x) ->
  (forall ctx l, make_rpc ctx l = make_rpc' ctx (map g l)) ->
  partitioned key_of make_rpc inputs subs ->
  partitioned key_of' make_rpc' (map g inputs) subs.
Proof.
  intros Hk Hm (Hnd & Hin & Hshape & Hperm). split; [done|]. split; [|split].
  - intros y Hy. apply list_elem_of_In, in_map_iff in Hy as (x & <- & Hx).
    apply list_elem_of_In in Hx.
    destruct (Hin x Hx) as (s & Hs & Hid). exists s. split; [done|].
    unfold region_id_of, region_of in *. by rewrite Hk.
  - intros s Hs. destruct (Hshape s Hs) as [(x & Hx & Hr) Heq]. split.
    + exists (g x). split.
      * apply list_elem_of_In, in_map. by apply list_elem_of_In.
      * unfold region_of in *. by rewrite Hk.
    + rewrite (inputs_of_map g key_of key_of') by done. by rewrite <- Hm.
  - assert (concat (map (fun s => inputs_of key_of' (map g inputs) (RegionId (region s)))
                      subs)
            = map g (concat (map (fun s => inputs_of key_of inputs (RegionId (region s)))
                               subs))) as ->.
    { rewrite concat_map, map_map. f_equal. apply map_ext. intros s.
      by apply inputs_of_map. }
    by apply Permutation_map.
Qed.

Lemma compare_and_set_inputs_pairs kvs expected_values :
  map (fun c => (kv_pair c, expected_value c))
    (compare_and_set_inputs kvs expected_values)
  = zip kvs expected_values.
Proof.
  unfold compare_and_set_inputs.
  revert expected_values. induction kvs as [|kv kvs IH]; intros [|e es]; simpl; try done.
  by rewrite IH.
Qed.

(** C4. When every region lookup succeeds, the build phase of each of the
    five batch operations logs one lookup per input, in input order, and
    yields sub-batches that are the partition of the inputs by
    [LookupRegionByKey]: one sub-batch per distinct region id, each for the
    region some input looked up to and carrying, in input order, exactly the
    inputs whose key looks up to that id; together they hold every input
    once.  The request of each kind is given by its fields: the keys for
    [BatchGet] and [BatchDelete], the key-value pairs for [BatchPut], the
    key-value pairs with the atomic flag set for [BatchPutIfAbsent], and for
    [BatchCompareAndSet], whose inputs are the pairs of a key-value pair and
    the expected value at the same index, the key-value pairs and their
    expected values side by side. *)
Theorem batch_sub_requests_partition_inputs :
  (forall keys,
     Forall lookup_ok keys ->
     exists subs,
       BatchGet_build keys = (Val subs, map EvLookup keys) /\
       partitioned id KvBatchGetRpc keys subs) /\
  (forall kvs,
     Forall (fun kv => lookup_ok (key kv)) kvs ->
     exists subs,
       BatchPut_build kvs = (Val subs, map (fun kv => EvLookup (key kv)) kvs) /\
       partitioned key KvBatchPutRpc kvs subs) /\
  (forall kvs,
     Forall (fun kv => lookup_ok (key kv)) kvs ->
     exists subs,
       BatchPutIfAbsent_build kvs = (Val subs, map (fun kv => EvLookup (key kv)) kvs) /\
       partitioned key (fun ctx l => KvBatchPutIfAbsentRpc ctx l true) kvs subs) /\
  (forall keys,
     Forall lookup_ok keys ->
     exists subs,
       BatchDelete_build keys = (Val subs, map EvLookup keys) /\
       partitioned id KvBatchDeleteRpc keys subs) /\
  (forall kvs expected_values,
     length kvs = length expected_values ->
     Forall (fun kv => lookup_ok (key kv)) kvs ->
     exists subs,
       BatchCompareAndSet_build kvs expected_values
       = (Val subs, map (fun kv => EvLookup (key kv)) kvs) /\
       partitioned (fun p : KVPair * string => key p.1)
         (fun ctx l => KvBatchCompareAndSetRpc ctx (map fst l) (map snd l))
         (zip kvs expected_values) subs).
Proof.
  split; [|split; [|split; [|split]]].
  - intros keys Hok.
    destruct (scatter_partitioned id KvBatchGetRpc keys Hok) as (subs & Hs & Hp & _).
    exists subs. split; [exact Hs | exact Hp].
  - intros kvs Hok.
    destruct (scatter_partitioned key KvBatchPutRpc kvs Hok) as (subs & Hs & Hp & _).
    exists subs. split; [exact Hs | exact Hp].
  - intros kvs Hok.
    destruct (scatter_partitioned key make_put_if_absent_rpc kvs Hok)
      as (subs & Hs & Hp & _).
    exists subs. split; [exact Hs | exact Hp].
  - intros keys Hok.
    destruct (scatter_partitioned id KvBatchDeleteRpc keys Hok) as (subs & Hs & Hp & _).
    exists subs. split; [exact Hs | exact Hp].
  - intros kvs expected_values Hlen Hok.
    assert (Hok' : Forall (fun c => lookup_ok (compare_and_set_key c))
                     (compare_and_set_inputs kvs expected_values)).
    { apply Forall_forall. intros c Hc. unfold compare_and_set_inputs in Hc.
      apply elem_of_zip_with in Hc as (kv & e & -> & Hkv & _).
      rewrite Forall_forall in Hok. by apply Hok. }
    destruct (scatter_partitioned compare_and_set_key make_compare_and_set_rpc _ Hok')
      as (subs & Hs & Hp & _).
    exists subs. split.
    + rewrite BatchCompareAndSet_build_scatter, Hs by done.
      f_equal. rewrite <- (map_map compare_and_set_key EvLookup).
      by rewrite (map_compare_and_set_key kvs expected_values Hlen), map_map.
    + rewrite <- compare_and_set_inputs_pairs.
      apply (partitioned_map (fun c => (kv_pair c, expected_value c))
               compare_and_set_key _ make_compare_and_set_rpc); [done| |done].
      intros ctx l. unfold make_compare_and_set_rpc. by rewrite !map_map.
Qed.

(** *** Further properties of the batch operations *)

Lemma iterate_singleton {A} (i : Z) (x : A) : iterate A {[i := x]} = [(i, x)].
Proof.
  apply Permutation_singleton_r. rewrite iterate_perm. by rewrite map_to_list_singleton.
Qed.

Lemma push_back_empty {P} (i : Z) (x : P) : push_back i x ∅ = {[i := [x]]}.
Proof. unfold push_back. rewrite lookup_empty. simpl. apply insert_empty. Qed.

Lemma emplace_empty (i : Z) (r : Region) : emplace i r ∅ = {[i := r]}.
Proof. unfold emplace. rewrite lookup_empty. apply insert_empty. Qed.

(** X5. Deleting one key through the batch interface is the point delete:
    [BatchDelete] of a single key logs the same lookup and the same RPC as
    [Delete] of that key and returns the same status. *)
Theorem BatchDelete_of_one_key_is_Delete :
  forall k,
    exists st log, Delete k = (Val st, log) /\ BatchDelete [k] = Finished st tt log.
Proof.
  intros k.
  unfold Delete, BatchDelete, BatchDelete_body, BatchDelete_dispatch, BatchDelete_build,
    scatter, partition_by_region. simpl.
  unfold lookup. simpl.
  destruct (LookupRegionByKey k) as [got reg]. simpl.
  destruct (IsOK got) eqn:Eg; simpl.
  - rewrite push_back_empty, emplace_empty.
    unfold build_sub_batches. rewrite iterate_singleton. simpl.
    rewrite lookup_singleton_eq. simpl.
    unfold fan_out, ProcessSubBatchDelete, controller_Call. simpl.
    destruct (Call reg _) as [call resp]. simpl.
    eexists _, _. split; [reflexivity|].
    unfold reduce_status, run. simpl. unfold first_fail. simpl.
    destruct (IsOK call) eqn:Ec; simpl; [|done].
    apply IsOK_true in Ec. by subst call.
  - eexists _, _. split; reflexivity.
Qed.

Lemma ProcessSubBatchGet_log ctx keys r :
  exists s', ProcessSubBatchGet (new_SubBatchState (KvBatchGetRpc ctx keys) r)
             = (Val s', [call_of (new_SubBatchState (KvBatchGetRpc ctx keys) r)]).
Proof.
  unfold ProcessSubBatchGet, controller_Call, call_of. simpl.
  destruct (Call r _) as [call resp]. destruct (IsOK call); simpl; eauto.
Qed.

Lemma ProcessSubBatchPut_log ctx kvs r :
  exists s', ProcessSubBatchPut (new_SubBatchState (KvBatchPutRpc ctx kvs) r)
             = (Val s', [call_of (new_SubBatchState (KvBatchPutRpc ctx kvs) r)]).
Proof.
  unfold ProcessSubBatchPut, controller_Call, call_of. simpl.
  destruct (Call r _) as [call resp]. simpl; eauto.
Qed.

Lemma ProcessSubBatchDelete_log ctx keys r :
  exists s', ProcessSubBatchDelete (new_SubBatchState (KvBatchDeleteRpc ctx keys) r)
             = (Val s', [call_of (new_SubBatchState (KvBatchDeleteRpc ctx keys) r)]).
Proof.
  unfold ProcessSubBatchDelete, controller_Call, call_of. simpl.
  destruct (Call r _) as [call resp]. simpl; eauto.
Qed.

Lemma ProcessSubBatchPutIfAbsent_log ctx kvs r :
  key_states_match ->
  exists s',
    ProcessSubBatchPutIfAbsent (new_SubBatchState (make_put_if_absent_rpc ctx kvs) r)
    = (Val s', [call_of (new_SubBatchState (make_put_if_absent_rpc ctx kvs) r)]).
Proof.
  intros Hm. unfold ProcessSubBatchPutIfAbsent, controller_Call, call_of. simpl.
  specialize (Hm r (KvBatchPutIfAbsentRpc ctx kvs true)).
  destruct (Call r _) as [call resp]. simpl in *.
  destruct (IsOK call); simpl; [|eauto].
  rewrite Hm by done. rewrite Nat.eqb_refl. simpl. eauto.
Qed.

Lemma ProcessSubBatchCompareAndSet_log ctx l r :
  key_states_match ->
  exists s',
    ProcessSubBatchCompareAndSet (new_SubBatchState (make_compare_and_set_rpc ctx l) r)
    = (Val s', [call_of (new_SubBatchState (make_compare_and_set_rpc ctx l) r)]).
Proof.
  intros Hm. unfold ProcessSubBatchCompareAndSet, controller_Call, call_of. simpl.
  specialize (Hm r (make_compare_and_set_rpc ctx l)).
  unfold make_compare_and_set_rpc in *.
  destruct (Call r _) as [call resp]. simpl in *.
  destruct (IsOK call); simpl; [|eauto].
  rewrite Hm by done. rewrite Nat.eqb_refl. simpl. eauto.
Qed.

Lemma mapM_calls (process : SubBatchState -> M SubBatchState) subs :
  (forall s, s ∈ subs -> exists s', process s = (Val s', [call_of s])) ->
  exists subs', mapM process subs = (Val subs', map call_of subs).
Proof.
  induction subs as [|s subs IH]; intros Hp; [by exists []|].
  destruct (Hp s) as (s' & Hs); [apply list_elem_of_here|].
  destruct IH as (subs' & Hl); [intros z Hz; apply Hp; by apply list_elem_of_further|].
  exists (s' :: subs'). simpl. rewrite Hs. simpl. rewrite Hl. simpl.
  by rewrite app_nil_r.
Qed.

Lemma fan_out_calls process subs :
  subs <> [] ->
  (forall s, s ∈ subs -> exists s', process s = (Val s', [call_of s])) ->
  exists subs' calls,
    fan_out process subs = (Val subs', calls) /\ calls ≡ₚ map call_of subs.
Proof.
  destruct subs as [|s0 subs]; [done|]. intros _ Hp. unfold fan_out. simpl.
  destruct (mapM_calls process subs) as (others & Ho).
  { intros s Hs. apply Hp. by apply list_elem_of_further. }
  destruct (Hp s0) as (s0' & Hs0); [apply list_elem_of_here|].
  rewrite Ho. simpl. rewrite Hs0. simpl.
  eexists _, _. split; [reflexivity|].
  rewrite ?app_nil_r. by rewrite <- Permutation_cons_append.
Qed.

(** Scatter, fan out and finish, with the log taken apart. *)
Lemma batch_calls {P O} (key_of : P -> string) make_rpc process
    (finish : list SubBatchState -> Status * O) inputs out0 :
  inputs <> [] ->
  Forall (fun x => lookup_ok (key_of x)) inputs ->
  (forall ctx l r, exists s',
     process (new_SubBatchState (make_rpc ctx l) r)
     = (Val s', [call_of (new_SubBatchState (make_rpc ctx l) r)])) ->
  exists subs calls st out,
    scatter key_of make_rpc inputs
    = (Val subs, map (fun x => EvLookup (key_of x)) inputs) /\
    run (let* subs := (let* s := scatter key_of make_rpc inputs in fan_out process s) in
         ret (finish subs)) out0
    = Finished st out (map (fun x => EvLookup (key_of x)) inputs ++ calls) /\
    calls ≡ₚ map call_of subs.
Proof.
  intros Hne Hok Hp.
  destruct (scatter_partitioned key_of make_rpc inputs Hok) as (subs & Hs & Hpart & Hne').
  destruct (fan_out_calls process subs (Hne' Hne)) as (subs' & calls & Hf & Hperm).
  { intros s Hin. destruct Hpart as (_ & _ & Hshape & _).
    destruct (Hshape s Hin) as [_ ->]. apply Hp. }
  exists subs, calls, (finish subs').1, (finish subs').2.
  split; [done|]. split; [|done].
  rewrite Hs. simpl. rewrite Hf. simpl. unfold run.
  destruct (finish subs'). simpl. by rewrite app_nil_r.
Qed.

(** X6. A batch operation on a non-empty input whose lookups succeed looks
    up each input once, in input order, and then sends every sub-request it
    built exactly once, to the region it was built for: the log is the
    lookups followed by a permutation of the calls of the sub-batch vector.
    A sub-batch that fails does not keep the others from being sent. *)
Theorem batch_sends_every_sub_request_once :
  key_states_match ->
  (forall keys kvs,
     keys <> [] -> Forall lookup_ok keys ->
     exists subs calls st out,
       BatchGet_build keys = (Val subs, map EvLookup keys) /\
       BatchGet keys kvs = Finished st out (map EvLookup keys ++ calls) /\
       calls ≡ₚ map call_of subs) /\
  (forall kvs,
     kvs <> [] -> Forall (fun kv => lookup_ok (key kv)) kvs ->
     exists subs calls st,
       BatchPut_build kvs = (Val subs, map (fun kv => EvLookup (key kv)) kvs) /\
       BatchPut kvs = Finished st tt (map (fun kv => EvLookup (key kv)) kvs ++ calls) /\
       calls ≡ₚ map call_of subs) /\
  (forall kvs states,
     kvs <> [] -> Forall (fun kv => lookup_ok (key kv)) kvs ->
     exists subs calls st out,
       BatchPutIfAbsent_build kvs = (Val subs, map (fun kv => EvLookup (key kv)) kvs) /\
       BatchPutIfAbsent kvs states
       = Finished st out (map (fun kv => EvLookup (key kv)) kvs ++ calls) /\
       calls ≡ₚ map call_of subs) /\
  (forall keys,
     keys <> [] -> Forall lookup_ok keys ->
     exists subs calls st,
       BatchDelete_build keys = (Val subs, map EvLookup keys) /\
       BatchDelete keys = Finished st tt (map EvLookup keys ++ calls) /\
       calls ≡ₚ map call_of subs).
Proof.
  intros Hm. split; [|split; [|split]].
  - intros keys kvs Hne Hok.
    destruct (batch_calls id KvBatchGetRpc ProcessSubBatchGet (reduce result_kvs)
                keys kvs Hne Hok) as (subs & calls & st & out & Hs & Hr & Hp);
      [intros; apply ProcessSubBatchGet_log|].
    exists subs, calls, st, out. split; [exact Hs|]. split; [exact Hr | exact Hp].
  - intros kvs Hne Hok.
    destruct (batch_calls key KvBatchPutRpc ProcessSubBatchPut
                (fun subs => (reduce_status subs, tt)) kvs tt Hne Hok)
      as (subs & calls & st & [] & Hs & Hr & Hp);
      [intros; apply ProcessSubBatchPut_log|].
    by exists subs, calls, st.
  - intros kvs states Hne Hok.
    destruct (batch_calls key make_put_if_absent_rpc ProcessSubBatchPutIfAbsent
                (reduce key_op_states) kvs states Hne Hok)
      as (subs & calls & st & out & Hs & Hr & Hp);
      [intros; by apply ProcessSubBatchPutIfAbsent_log|].
    by exists subs, calls, st, out.
  - intros keys Hne Hok.
    destruct (batch_calls id KvBatchDeleteRpc ProcessSubBatchDelete
                (fun subs => (reduce_status subs, tt)) keys tt Hne Hok)
      as (subs & calls & st & [] & Hs & Hr & Hp);
      [intros; apply ProcessSubBatchDelete_log|].
    exists subs, calls, st. split; [exact Hs|]. split; [exact Hr | exact Hp].
Qed.

Lemma batch_finishes {P O} (key_of : P -> string) make_rpc process
    (finish : list SubBatchState -> Status * O) inputs out0 :
  inputs <> [] ->
  (forall ctx l r, exists s' t,
     process (new_SubBatchState (make_rpc ctx l) r) = (Val s', t)) ->
  exists st out log,
    run (let* subs := (let* s := scatter key_of make_rpc inputs in fan_out process s) in
         ret (finish subs)) out0
    = Finished st out log.
Proof.
  intros Hne Hp.
  destruct (decide (Forall (fun x => lookup_ok (key_of x)) inputs)) as [Hok|Hfail].
  - destruct (dispatch_total key_of make_rpc process inputs Hne Hok Hp)
      as (subs & log & Hd).
    exists (finish subs).1, (finish subs).2, log.
    by apply run_bind_ret.
  - apply not_Forall_Exists in Hfail; [|apply _].
    destruct (first_failure_split (fun x => lookup_ok (key_of x)) inputs Hfail)
      as (pre & x & post & -> & Hpre & Hx).
    pose proof (scatter_abort key_of make_rpc pre x post Hpre Hx) as Hs.
    eexists _, out0, _. apply run_abort. by apply bind_abort.
Qed.

Lemma batch_empty_crashes {P O} (key_of : P -> string) make_rpc process
    (finish : list SubBatchState -> Status * O) out0 :
  run (let* subs := (let* s := scatter key_of make_rpc [] in fan_out process s) in
       ret (finish subs)) out0
  = Crashed InvalidAccess [].
Proof. by rewrite scatter_nil. Qed.

Lemma ProcessSubBatchPutIfAbsent_cases ctx kvs r :
  if answered_in_full (new_SubBatchState (make_put_if_absent_rpc ctx kvs) r)
  then exists s' t,
         ProcessSubBatchPutIfAbsent (new_SubBatchState (make_put_if_absent_rpc ctx kvs) r)
         = (Val s', t)
  else exists t,
         ProcessSubBatchPutIfAbsent (new_SubBatchState (make_put_if_absent_rpc ctx kvs) r)
         = (Crash CheckFailed, t).
Proof.
  unfold answered_in_full, ProcessSubBatchPutIfAbsent, controller_Call. simpl.
  destruct (Call r _) as [call resp]. simpl.
  destruct (IsOK call); simpl; [|eauto].
  destruct (length kvs =? length (resp_key_states resp))%nat; simpl; eauto.
Qed.

Lemma ProcessSubBatchCompareAndSet_cases ctx l r :
  if answered_in_full (new_SubBatchState (make_compare_and_set_rpc ctx l) r)
  then exists s' t,
         ProcessSubBatchCompareAndSet
           (new_SubBatchState (make_compare_and_set_rpc ctx l) r) = (Val s', t)
  else exists t,
         ProcessSubBatchCompareAndSet
           (new_SubBatchState (make_compare_and_set_rpc ctx l) r)
         = (Crash CheckFailed, t).
Proof.
  unfold answered_in_full, ProcessSubBatchCompareAndSet, controller_Call. simpl.
  destruct (Call r _) as [call resp]. simpl.
  destruct (IsOK call); simpl; [|eauto].
  destruct (length (map kv_pair l) =? length (resp_key_states resp))%nat; simpl; eauto.
Qed.

Lemma mapM_Val_or_Crash {A B} (f : A -> M B) l :
  (forall x, x ∈ l ->
     (exists y t, f x = (Val y, t)) \/ (exists t, f x = (Crash CheckFailed, t))) ->
  (exists l' t, mapM f l = (Val l', t)) \/ (exists t, mapM f l = (Crash CheckFailed, t)).
Proof.
  induction l as [|x l IH]; intros Hf; [left; by exists [], []|].
  simpl.
  destruct (Hf x) as [(y & t & ->)|(t & ->)]; [apply list_elem_of_here| |right; eauto].
  simpl.
  destruct IH as [(l' & t' & ->)|(t' & ->)]; simpl; eauto.
  intros z Hz. apply Hf. by apply list_elem_of_further.
Qed.

Lemma fan_out_Val_or_Crash process subs :
  subs <> [] ->
  (forall s, s ∈ subs ->
     (exists s' t, process s = (Val s', t)) \/
     (exists t, process s = (Crash CheckFailed, t))) ->
  (exists subs' t, fan_out process subs = (Val subs', t)) \/
  (exists t, fan_out process subs = (Crash CheckFailed, t)).
Proof.
  destruct subs as [|s0 subs]; [done|]. intros _ Hp. unfold fan_out. simpl.
  destruct (mapM_Val_or_Crash process subs) as [(l' & t & ->)|(t & ->)]; simpl.
  - intros x Hx. apply Hp. by apply list_elem_of_further.
  - destruct (Hp s0 (list_elem_of_here _ _)) as [(s0' & t0 & ->)|(t0 & ->)];
      simpl; eauto.
  - right; eauto.
Qed.

(** A batch over a non-empty input returns a status exactly when no
    processing function fails its check on a sub-batch of the vector built
    (if one is built at all). *)
Lemma batch_finishes_exactly {P O} (key_of : P -> string) make_rpc process
    (ok : SubBatchState -> bool) (finish : list SubBatchState -> Status * O)
    inputs out0 :
  inputs <> [] ->
  (forall ctx l r,
     if ok (new_SubBatchState (make_rpc ctx l) r)
     then exists s' t, process (new_SubBatchState (make_rpc ctx l) r) = (Val s', t)
     else exists t, process (new_SubBatchState (make_rpc ctx l) r)
                    = (Crash CheckFailed, t)) ->
  (exists st out log,
     run (let* subs := (let* s := scatter key_of make_rpc inputs in fan_out process s) in
          ret (finish subs)) out0
     = Finished st out log) <->
  (forall subs log0,
     scatter key_of make_rpc inputs = (Val subs, log0) ->
     Forall (fun s => ok s = true) subs).
Proof.
  intros Hne Hp.
  destruct (decide (Forall (fun x => lookup_ok (key_of x)) inputs)) as [Hok|Hfail].
  - destruct (scatter_partitioned key_of make_rpc inputs Hok)
      as (subs & Hs & Hpart & Hne').
    assert (Hshape : forall s, s ∈ subs ->
              exists ctx l r, s = new_SubBatchState (make_rpc ctx l) r).
    { intros s Hin. destruct Hpart as (_ & _ & Hshape & _).
      destruct (Hshape s Hin) as [_ Heq]. eauto. }
    assert (Hcases : forall s, s ∈ subs ->
              (exists s' t, process s = (Val s', t)) \/
              (exists t, process s = (Crash CheckFailed, t))).
    { intros s (ctx & l & r & ->)%Hshape. specialize (Hp ctx l r).
      destruct (ok _); [by left | by right]. }
    split.
    + intros (st & out & log & Hrun) subs' log0 Hs'.
      rewrite Hs in Hs'. injection Hs' as <- <-.
      rewrite Hs in Hrun. simpl in Hrun.
      destruct (fan_out_Val_or_Crash process subs (Hne' Hne) Hcases)
        as [(subs' & t & Hf)|(t & Hf)]; rewrite Hf in Hrun; [|done].
      apply fan_out_Val_inv in Hf. apply Forall_forall. intros s Hin.
      destruct (Forall2_elem_l _ _ _ _ Hf Hin) as (s' & _ & tx & Hval).
      destruct (Hshape s Hin) as (ctx & l & r & ->). specialize (Hp ctx l r).
      destruct (ok _); [done|]. destruct Hp as [t' Hp]. congruence.
    + intros Hall. specialize (Hall subs _ Hs). rewrite Forall_forall in Hall.
      destruct (fan_out_total process subs (Hne' Hne)) as (subs' & t & Hf).
      { intros s Hin. destruct (Hshape s Hin) as (ctx & l & r & ->).
        specialize (Hp ctx l r). by rewrite (Hall _ Hin) in Hp. }
      exists (finish subs').1, (finish subs').2, (map (fun x => EvLookup (key_of x)) inputs ++ t).
      apply run_bind_ret. rewrite Hs. simpl. by rewrite Hf.
  - apply not_Forall_Exists in Hfail; [|apply _].
    destruct (first_failure_split (fun x => lookup_ok (key_of x)) inputs Hfail)
      as (pre & x & post & -> & Hpre & Hx).
    pose proof (scatter_abort key_of make_rpc pre x post Hpre Hx) as Hs.
    split.
    + intros _ subs log0 Hs'. rewrite Hs in Hs'. done.
    + intros _. eexists _, out0, _. apply run_abort. by apply bind_abort.
Qed.

(** X7. When a batch operation returns a status.  [BatchGet], [BatchPut]
    and [BatchDelete] do exactly when their input is not empty, whatever the
    meta cache and the stores answer.  [BatchPutIfAbsent] and
    [BatchCompareAndSet] (behind the size test) do exactly when their input
    is not empty and every sub-batch of the vector built, if one is built,
    is answered in full: a store that answers OK with another number of key
    states than the request has key-value pairs fails the [CHECK_EQ] of the
    processing function. *)
Theorem batch_finishes_iff_input_not_empty :
  (forall keys kvs,
     (exists st out log, BatchGet keys kvs = Finished st out log) <-> keys <> []) /\
  (forall kvs,
     (exists st out log, BatchPut kvs = Finished st out log) <-> kvs <> []) /\
  (forall kvs states,
     (exists st out log, BatchPutIfAbsent kvs states = Finished st out log)
     <-> kvs <> [] /\
         forall subs log0,
           BatchPutIfAbsent_build kvs = (Val subs, log0) ->
           Forall (fun s => answered_in_full s = true) subs) /\
  (forall keys,
     (exists st out log, BatchDelete keys = Finished st out log) <-> keys <> []) /\
  (forall kvs expected_values states,
     length kvs = length expected_values ->
     (exists st out log,
        BatchCompareAndSet kvs expected_values states = Finished st out log)
     <-> kvs <> [] /\
         forall subs log0,
           BatchCompareAndSet_build kvs expected_values = (Val subs, log0) ->
           Forall (fun s => answered_in_full s = true) subs).
Proof.
  split; [|split; [|split; [|split]]].
  - intros keys kvs. split.
    + intros (st & out & log & H) ->.
      unfold BatchGet, BatchGet_body, BatchGet_dispatch, BatchGet_build in H.
      by rewrite (batch_empty_crashes id KvBatchGetRpc ProcessSubBatchGet
                    (reduce result_kvs) kvs) in H.
    + intros Hne.
      apply (batch_finishes id KvBatchGetRpc ProcessSubBatchGet (reduce result_kvs)
               keys kvs Hne).
      intros. apply ProcessSubBatchGet_run.
  - intros kvs. split.
    + intros (st & out & log & H) ->.
      unfold BatchPut, BatchPut_body, BatchPut_dispatch, BatchPut_build in H.
      by rewrite (batch_empty_crashes key KvBatchPutRpc ProcessSubBatchPut
                    (fun subs => (reduce_status subs, tt)) tt) in H.
    + intros Hne.
      apply (batch_finishes key KvBatchPutRpc ProcessSubBatchPut
               (fun subs => (reduce_status subs, tt)) kvs tt Hne).
      intros. apply ProcessSubBatchPut_run.
  - intros kvs states.
    destruct (decide (kvs = [])) as [->|Hne].
    + split; [|by intros [? _]]. intros (st & out & log & H).
      unfold BatchPutIfAbsent, BatchPutIfAbsent_body, BatchPutIfAbsent_dispatch,
        BatchPutIfAbsent_build in H.
      by rewrite (batch_empty_crashes key make_put_if_absent_rpc
                    ProcessSubBatchPutIfAbsent (reduce key_op_states) states) in H.
    + pose proof (batch_finishes_exactly key make_put_if_absent_rpc
                    ProcessSubBatchPutIfAbsent answered_in_full
                    (reduce key_op_states) kvs states Hne
                    ProcessSubBatchPutIfAbsent_cases) as Hex.
      unfold BatchPutIfAbsent, BatchPutIfAbsent_body, BatchPutIfAbsent_dispatch,
        BatchPutIfAbsent_build.
      rewrite Hex. split; [by split | by intros [_ ?]].
  - intros keys. split.
    + intros (st & out & log & H) ->.
      unfold BatchDelete, BatchDelete_body, BatchDelete_dispatch, BatchDelete_build in H.
      by rewrite (batch_empty_crashes id KvBatchDeleteRpc ProcessSubBatchDelete
                    (fun subs => (reduce_status subs, tt)) tt) in H.
    + intros Hne.
      apply (batch_finishes id KvBatchDeleteRpc ProcessSubBatchDelete
               (fun subs => (reduce_status subs, tt)) keys tt Hne).
      intros. apply ProcessSubBatchDelete_run.
  - intros kvs expected_values states Hlen.
    destruct (decide (kvs = [])) as [->|Hne].
    + split; [|by intros [? _]]. intros (st & out & log & H).
      destruct expected_values; [|done].
      unfold BatchCompareAndSet, BatchCompareAndSet_body, BatchCompareAndSet_dispatch in H.
      rewrite (BatchCompareAndSet_build_scatter [] []) in H by (done || constructor).
      unfold compare_and_set_inputs in H. simpl zip_with in H.
      by rewrite (batch_empty_crashes compare_and_set_key make_compare_and_set_rpc
                    ProcessSubBatchCompareAndSet (reduce key_op_states) states) in H.
    + assert (Hne' : compare_and_set_inputs kvs expected_values <> []).
      { intros E. apply (f_equal length) in E.
        rewrite length_compare_and_set_inputs in E by done. by destruct kvs. }
      destruct (decide (Forall (fun c => lookup_ok (compare_and_set_key c))
                          (compare_and_set_inputs kvs expected_values))) as [Hok|Hfail].
      * pose proof (batch_finishes_exactly compare_and_set_key make_compare_and_set_rpc
                      ProcessSubBatchCompareAndSet answered_in_full
                      (reduce key_op_states) _ states Hne'
                      ProcessSubBatchCompareAndSet_cases) as Hex.
        unfold BatchCompareAndSet, BatchCompareAndSet_body, BatchCompareAndSet_dispatch.
        rewrite BatchCompareAndSet_build_scatter by done.
        rewrite Hex. split; [by split | by intros [_ ?]].
      * apply not_Forall_Exists in Hfail; [|apply _].
        destruct (first_failure_split (fun x => lookup_ok (compare_and_set_key x)) _ Hfail)
          as (pre & c & post & Hsplit & Hpre & Hc).
        pose proof (BatchCompareAndSet_build_abort _ _ _ _ _ Hlen Hsplit Hpre Hc) as Hb.
        split.
        -- intros _. split; [done|]. intros subs log0 Hs. rewrite Hb in Hs. done.
        -- intros _.
           unfold BatchCompareAndSet, BatchCompareAndSet_body, BatchCompareAndSet_dispatch.
           eexists _, states, _. apply run_abort. by apply bind_abort.
Qed.

(** *** Further properties of DeleteRange *)

Lemma walk_logged_lookup_fail {A} k (rest : Status * Region -> M A) :
  ~ lookup_ok k ->
  (let* x := lookup k in
   let '(got, tmp) := x in if negb (IsOK got) then return_ got else rest (got, tmp))
  = (Return (LookupRegionByKey k).1, [EvLookup k]).
Proof.
  unfold lookup_ok, lookup. simpl. destruct (LookupRegionByKey k) as [got tmp]. simpl.
  by destruct (IsOK got).
Qed.

Lemma app_nil_l_eta {A} (m : M A) : (let '(r, t') := m in (r, [] ++ t')) = m.
Proof. by destruct m. Qed.

Lemma process_others_logged fuel end_ with_end :
  forall wst, walk_logged (process_others fuel end_ with_end wst).
Proof.
  induction fuel as [|fuel IH]; intros wst; simpl.
  - destruct (key_empty (next wst)); by split; [constructor|].
  - destruct (key_empty (next wst)); [by split; [constructor|]|].
    destruct (key_eq (next wst) end_); [by split; [constructor|]|].
    destruct (delete_end_key wst); [by split; [constructor|]|].
    unfold lookup. simpl.
    destruct (LookupRegionByKey (next wst)) as [got tmp] eqn:El. simpl.
    destruct (IsOK got) eqn:Eg; simpl.
    2:{ split; [by repeat constructor|]. intros st [= <-].
        exists (next wst). unfold lookup_ok. rewrite El. simpl. rewrite Eg. done. }
    destruct (DCHECK_fails _); [by split; [repeat constructor|]|].
    destruct (key_lt end_ (end_key tmp)); [by split; [repeat constructor|]|].
    destruct (key_lt (end_key tmp) end_).
    + match goal with
      | |- context [process_others fuel end_ with_end ?w] => specialize (IH w);
          destruct (process_others fuel end_ with_end w) as [r t]
      end.
      destruct IH as [Hl Hr]. simpl in *.
      split; [by constructor | exact Hr].
    + destruct (negb (key_eq end_ (end_key tmp))); by split; [repeat constructor|].
Qed.

Lemma walk_logged_check_then_others fuel end_ we wst :
  walk_logged (if key_eq (next wst) end_ then crash CheckFailed
               else process_others fuel end_ we wst).
Proof.
  destruct (key_eq (next wst) end_); [by split; [constructor|]|].
  apply process_others_logged.
Qed.

Lemma walk_logged_cons {A} k (m : M A) :
  walk_logged m -> walk_logged (let '(r, t') := m in (r, EvLookup k :: t')).
Proof. destruct m as [r t]. intros [Hl Hr]. split; [by constructor | exact Hr]. Qed.

Lemma DeleteRange_walk_logged fuel start end_ ws we :
  walk_logged (DeleteRange_walk fuel start end_ ws we).
Proof.
  unfold DeleteRange_walk, lookup. simpl.
  destruct (LookupRegionByKey start) as [got tmp] eqn:El. simpl.
  destruct (IsOK got) eqn:Eg; simpl.
  2:{ split; [by repeat constructor|]. intros st [= <-].
      exists start. unfold lookup_ok. rewrite El. simpl. rewrite Eg. done. }
  apply walk_logged_cons. unfold process_start.
  destruct (key_lt end_ (end_key tmp)); simpl.
  { rewrite app_nil_l_eta.
    match goal with
    | |- context [process_others _ _ _ ?w] => apply (walk_logged_check_then_others _ _ _ w)
    end. }
  destruct (key_lt (end_key tmp) end_); simpl.
  { rewrite app_nil_l_eta.
    match goal with
    | |- context [process_others _ _ _ ?w] => apply (walk_logged_check_then_others _ _ _ w)
    end. }
  destruct (negb (key_eq end_ (end_key tmp))); simpl.
  { by split; [constructor|]. }
  rewrite app_nil_l_eta.
  match goal with
  | |- context [process_others _ _ _ ?w] => apply (walk_logged_check_then_others _ _ _ w)
  end.
Qed.

(** X8. [DeleteRange] sends nothing before its walk is complete: whatever
    the meta cache answers, the walk logs region lookups only, and when one
    of them fails the call returns the status of that lookup with no RPC
    sent and the count untouched. *)
Theorem DeleteRange_sends_nothing_before_the_walk_is_done :
  forall fuel start end_ ws we dc,
    only_lookups (DeleteRange_walk fuel start end_ ws we).2 /\
    (forall st,
       key_lt start end_ = true ->
       (DeleteRange_walk fuel start end_ ws we).1 = Return st ->
       lookup_failure st /\
       DeleteRange fuel start end_ ws we dc
       = Finished st dc (DeleteRange_walk fuel start end_ ws we).2).
Proof.
  intros fuel start end_ ws we dc.
  destruct (DeleteRange_walk_logged fuel start end_ ws we) as [Hl Hr].
  split; [done|]. intros st Hlt Hret. split; [by apply Hr|].
  unfold DeleteRange, DeleteRange_body, DeleteRange_dispatch. rewrite Hlt. simpl.
  destruct (DeleteRange_walk fuel start end_ ws we) as [r t]. simpl in *. by subst r.
Qed.

(** The checks of the walk. *)
Lemma covered_step (rir : gmap Z Region) (td : gmap Z (list DeleteRangeContext)) i r c :
  (forall j, is_Some (rir !! j) <-> is_Some (td !! j)) ->
  forall j, is_Some (emplace i r rir !! j) <-> is_Some (push_back i c td !! j).
Proof. intros H j. by rewrite emplace_is_Some, push_back_is_Some, H. Qed.

Lemma debug_check_passes wst :
  debug_check_holds wst -> lookup_ok (next wst) ->
  DCHECK_fails (not_found (RegionId (region_at (next wst))) (region_id_to_region wst))
  = false.
Proof.
  intros [Hn|(contract & unique & visited & Hlook & Hdom & Hends)] Hok.
  - unfold DCHECK_fails. by rewrite Hn.
  - apply DCHECK_holds.
    by apply (lookup_is_fresh visited (region_id_to_region wst) (next wst)).
Qed.

Lemma debug_check_next wst td dek :
  debug_check_holds wst -> lookup_ok (next wst) ->
  debug_check_holds
    {| region_id_to_region :=
         emplace (RegionId (region_at (next wst))) (region_at (next wst))
           (region_id_to_region wst);
       to_delete := td; next := end_key (region_at (next wst));
       delete_end_key := dek |}.
Proof.
  intros [Hn|(contract & unique & visited & Hlook & Hdom & Hends)] Hok; [by left|].
  right. split; [done|]. split; [done|].
  exists (region_at (next wst) :: visited). simpl.
  pose proof (contract _ Hok) as [_ Hhi]%contains_iff.
  split; [|split].
  - intros R [->|HR]%elem_of_cons; [eauto | by apply Hlook].
  - intros i [->|Hi]%emplace_is_Some.
    + eexists. split; [apply list_elem_of_here | done].
    + destruct (Hdom i Hi) as (R & HR & Hid). exists R.
      split; [by apply list_elem_of_further | done].
  - intros R [->|HR]%elem_of_cons; [apply key_lt_irrefl|].
    destruct (key_lt (end_key (region_at (next wst))) (end_key R)) eqn:E; [|done].
    pose proof (key_lt_trans _ _ _ Hhi E) as Hc. by rewrite (Hends _ HR) in Hc.
Qed.

Lemma process_others_safe fuel end_ with_end :
  forall wst,
    key_empty (next wst) = true \/
    (key_lt (next wst) end_ = true /\ delete_end_key wst = false) ->
    walk_covered wst -> debug_check_holds wst ->
    walk_safe (process_others fuel end_ with_end wst).
Proof.
  unfold walk_safe, walk_covered.
  induction fuel as [|fuel IH]; intros wst Hentry Hcov Hdbg; simpl.
  - by destruct (key_empty (next wst)).
  - destruct (key_empty (next wst)) eqn:Ee; [done|].
    destruct Hentry as [|[Hlt Hdek]]; [done|].
    assert (key_eq (next wst) end_ = false) as ->.
    { apply key_eq_false. intros E. rewrite E, key_lt_irrefl in Hlt. done. }
    rewrite Hdek. unfold lookup. simpl.
    pose proof (debug_check_passes wst Hdbg) as Hpass.
    pose proof (fun td dek => debug_check_next wst td dek Hdbg) as Hnext.
    unfold lookup_ok, region_at in Hpass, Hnext.
    destruct (LookupRegionByKey (next wst)) as [got tmp]. simpl in *.
    destruct (IsOK got); simpl; [|done].
    rewrite Hpass by done.
    destruct (key_lt end_ (end_key tmp)) eqn:E1; simpl; [by apply covered_step|].
    destruct (key_lt (end_key tmp) end_) eqn:E2.
    + match goal with
      | |- context [process_others fuel end_ with_end ?w] =>
          specialize (IH w); destruct (process_others fuel end_ with_end w) as [r t]
      end.
      simpl in *. apply IH; [by right | by apply covered_step | by apply Hnext].
    + rewrite (key_lt_total _ _ E1 E2).
      assert (key_eq (end_key tmp) (end_key tmp) = true) as -> by (by apply key_eq_true).
      simpl. by apply covered_step.
Qed.

Lemma DeleteRange_walk_safe fuel start end_ ws we :
  NDEBUG = true \/ (lookup_contains /\ region_ids_unique) ->
  key_lt start end_ = true ->
  walk_safe (DeleteRange_walk fuel start end_ ws we).
Proof.
  intros Hmode Hlt.
  assert (Hend : key_eq "" end_ = false).
  { apply key_eq_false. intros <-. by rewrite key_lt_empty in Hlt. }
  assert (Hcov0 : forall (r : Region) (c : DeleteRangeContext) j,
            is_Some (emplace (RegionId r) r ∅ !! j)
            <-> is_Some (push_back (RegionId r) c ∅ !! j)).
  { intros r c. apply covered_step. intros j. rewrite !lookup_empty.
    split; by intros [? ?]. }
  assert (Hdbg : forall td dek,
            lookup_ok start ->
            debug_check_holds
              {| region_id_to_region :=
                   emplace (RegionId (region_at start)) (region_at start) ∅;
                 to_delete := td; next := end_key (region_at start);
                 delete_end_key := dek |}).
  { intros td dek Hok. destruct Hmode as [Hn|[contract unique]]; [by left|].
    right. split; [done|]. split; [done|]. exists [region_at start]. simpl.
    split; [|split].
    - intros R ->%list_elem_of_singleton. eauto.
    - intros i [->|Hi]%emplace_is_Some.
      + eexists. split; [apply list_elem_of_here | done].
      + rewrite lookup_empty in Hi. by destruct Hi.
    - intros R ->%list_elem_of_singleton. apply key_lt_irrefl. }
  unfold DeleteRange_walk, lookup. simpl.
  unfold lookup_ok, region_at in Hdbg.
  destruct (LookupRegionByKey start) as [got tmp]. simpl in *.
  destruct (IsOK got); simpl; [|done].
  unfold process_start.
  destruct (key_lt end_ (end_key tmp)) eqn:E1; simpl.
  { rewrite Hend, process_others_done by done.
    unfold walk_safe, walk_covered. simpl. apply Hcov0. }
  destruct (key_lt (end_key tmp) end_) eqn:E2; simpl.
  { assert (key_eq (end_key tmp) end_ = false) as ->.
    { apply key_eq_false. intros E. rewrite E, key_lt_irrefl in E2. done. }
    match goal with
    | |- context [process_others fuel end_ we ?w] =>
        pose proof (process_others_safe fuel end_ we w) as Hs;
        destruct (process_others fuel end_ we w) as [r t]
    end.
    unfold walk_safe in *. simpl in *.
    apply Hs; [by right | exact (Hcov0 _ _) | by apply Hdbg]. }
  rewrite (key_lt_total _ _ E1 E2).
  assert (key_eq (end_key tmp) (end_key tmp) = true) as -> by (by apply key_eq_true).
  simpl. rewrite (key_lt_total _ _ E1 E2) in Hend. rewrite Hend.
  rewrite process_others_done by done.
  unfold walk_safe, walk_covered. simpl. apply Hcov0.
Qed.

Lemma ProcessSubBatchDeleteRange_range ctx l r :
  ProcessSubBatchDeleteRange (new_SubBatchState (make_delete_range_rpc ctx l) r)
  = (Val (processed (new_SubBatchState (make_delete_range_rpc ctx l) r)),
     [call_of (new_SubBatchState (make_delete_range_rpc ctx l) r)]).
Proof.
  unfold ProcessSubBatchDeleteRange, processed, controller_Call, call_of. simpl.
  by destruct (Call _ _).
Qed.

Lemma DeleteRange_build_safe wst :
  walk_covered wst ->
  exists subs,
    DeleteRange_build wst = (Val subs, []) /\
    forall s, s ∈ subs ->
      exists ctx l r, s = new_SubBatchState (make_delete_range_rpc ctx l) r.
Proof.
  intros Hcov. unfold DeleteRange_build. rewrite sizes_checked by done.
  unfold build_sub_batches.
  destruct (mapM_silent (build_sub_batch make_delete_range_rpc (region_id_to_region wst))
              (iterate _ (to_delete wst))) as (subs & Hrun & HF).
  { intros [i cs] Hin%elem_of_iterate. unfold build_sub_batch.
    destruct (proj2 (Hcov i)) as [r ->]; [by eexists | eauto]. }
  exists subs. split; [done|]. intros s Hs.
  destruct (Forall2_elem_r _ _ _ _ HF Hs) as ([i cs] & _ & Hb).
  unfold build_sub_batch in Hb.
  destruct (region_id_to_region wst !! i) as [r|]; [|done].
  injection Hb as <-. eauto.
Qed.

(** X9. In a build with [NDEBUG], and in every build when the meta cache
    obeys the lookup contract with unique region ids, no [CHECK], [DCHECK]
    or [DCHECK_EQ] of [DeleteRange] fails, for every input and whatever the
    stores answer: the call returns a status (or, in this model, the walk is
    still running when the fuel is spent).  Without either, the debug check
    of the loop can fail ([DeleteRange_revisited_region_id] below). *)
Theorem DeleteRange_never_aborts :
  forall fuel start end_ ws we dc,
    NDEBUG = true \/ (lookup_contains /\ region_ids_unique) ->
    (exists st count log, DeleteRange fuel start end_ ws we dc = Finished st count log) \/
    (exists log, DeleteRange fuel start end_ ws we dc = Diverged log).
Proof.
  intros fuel start end_ ws we dc Hmode.
  unfold DeleteRange, DeleteRange_body.
  destruct (key_lt start end_) eqn:Hlt; simpl; [|left; eauto].
  pose proof (DeleteRange_walk_safe fuel start end_ ws we Hmode Hlt) as Hsafe.
  unfold DeleteRange_dispatch, walk_safe in *.
  destruct (DeleteRange_walk fuel start end_ ws we) as [[wst| st | f |] t];
    simpl in *; [| left; eauto | done | right; eauto].
  destruct (DeleteRange_build_safe wst Hsafe) as (subs & Hb & Hshape).
  rewrite Hb. simpl.
  rewrite (mapM_pure ProcessSubBatchDeleteRange processed (fun s => [call_of s])).
  2:{ intros s (ctx & l & r & ->)%Hshape. apply ProcessSubBatchDeleteRange_range. }
  simpl. unfold process_end_key.
  destruct (delete_end_key wst).
  - destruct (Delete_run end_) as (ds & plog & -> & _). simpl.
    destruct (IsOK ds); unfold ret; simpl;
      destruct (fold_left count_step _ _); simpl; left; eauto.
  - unfold ret. simpl. destruct (fold_left count_step _ _). simpl. left; eauto.
Qed.

End Operations.


(** *** The sample cluster satisfies the assumptions *)

Lemma sample_iterate_perm (A : Type) (m : gmap Z A) : sample_iterate A m ≡ₚ map_to_list m.
Proof. reflexivity. Qed.

Lemma cluster_lookup_ok regions k :
  lookup_ok (cluster_lookup regions) k ->
  exists r, find (fun r => contains r k) regions = Some r /\
            cluster_lookup regions k = (Ok, r).
Proof.
  unfold lookup_ok, cluster_lookup.
  destruct (find _ regions) as [r|]; [eauto | done].
Qed.

Lemma cluster_lookup_contains regions : lookup_contains (cluster_lookup regions).
Proof.
  intros k (r & Hfind & Hl)%cluster_lookup_ok. unfold region_at. rewrite Hl. simpl.
  by apply find_some in Hfind as [_ ?].
Qed.

Lemma cluster_lookup_within regions : regions_within (cluster_lookup regions) regions.
Proof.
  intros k (r & Hfind & Hl)%cluster_lookup_ok. unfold region_at. rewrite Hl. simpl.
  apply find_some in Hfind as [? _]. by apply list_elem_of_In.
Qed.

Lemma cluster_lookup_ids_unique regions :
  NoDup (map RegionId regions) -> region_ids_unique (cluster_lookup regions).
Proof.
  intros Hnd k1 k2 (r1 & Hf1 & Hl1)%cluster_lookup_ok (r2 & Hf2 & Hl2)%cluster_lookup_ok.
  unfold region_at. rewrite Hl1, Hl2. simpl.
  apply find_some in Hf1 as [H1 _]. apply find_some in Hf2 as [H2 _].
  apply list_elem_of_In in H1, H2. by apply (NoDup_map_inj RegionId regions).
Qed.

Lemma cluster_lookup_never_invalid_argument regions k :
  IsInvalidArgument (cluster_lookup regions k).1 = false.
Proof. unfold cluster_lookup. by destruct (find _ regions). Qed.

Lemma sample_store_key_states_match : key_states_match sample_store.
Proof. intros reg [] _; simpl; by rewrite ?length_map. Qed.

Lemma flaky_store_key_states_match : key_states_match flaky_store.
Proof.
  intros reg r. unfold flaky_store.
  destruct r; try done; destruct (RegionId reg =? 2); simpl; try done;
    intros _; by rewrite length_map.
Qed.

Lemma flaky_store_never_invalid_argument reg r :
  IsInvalidArgument (flaky_store reg r).1 = false.
Proof. unfold flaky_store. by destruct r; try done; destruct (RegionId reg =? 2). Qed.

Lemma sample_cluster_ids : NoDup (map RegionId sample_cluster).
Proof. by apply (bool_decide_unpack (NoDup (map RegionId sample_cluster))). Qed.

(** *** The statements at work on the sample cluster *)

Lemma DeleteRange_walk_follows_case_analysis_witness :
  (exists st log,
     DeleteRange_walk false sample_lookup 3 "c" "p" true true = (Return st, log) /\
     lookup_failure sample_lookup st /\ only_lookups log) \/
  (exists wst log emitted,
     DeleteRange_walk false sample_lookup 3 "c" "p" true true = (Val wst, log) /\
     only_lookups log /\
     spec_walk sample_lookup "p" true "c" true emitted (delete_end_key wst) /\
     to_delete wst = fold_left push_emitted emitted ∅ /\
     region_id_to_region wst = fold_left emplace_emitted emitted ∅ /\
     NoDup (map fst emitted) /\
     NoDup (map emitted_id emitted)).
Proof.
  apply (DeleteRange_walk_follows_case_analysis false sample_lookup sample_cluster
           3 "c" "p" true true).
  - apply cluster_lookup_contains.
  - apply cluster_lookup_ids_unique, sample_cluster_ids.
  - apply cluster_lookup_within.
  - reflexivity.
  - simpl. lia.
Defined.

Lemma DeleteRange_covers_the_range_within_regions_witness :
  (exists st log,
     DeleteRange_walk false sample_lookup 3 "c" "p" true true = (Return st, log) /\
     lookup_failure sample_lookup st) \/
  (exists wst log subs,
     DeleteRange_walk false sample_lookup 3 "c" "p" true true = (Val wst, log) /\
     DeleteRange_build false sample_iterate wst = (Val subs, []) /\
     (forall k,
        (Exists (fun sub => sub_covers sub k) subs \/
         (delete_end_key wst = true /\ k = "p")) <->
        covers {| range_start_key := "c"; range_end_key := "p";
                  with_start := true; with_end := true |} k) /\
     (forall sub k, sub ∈ subs -> sub_covers sub k -> contains (region sub) k = true) /\
     NoDup (map (fun sub => RegionId (region sub)) subs) /\
     (delete_end_key wst = true ->
      true = true /\ exists sub, sub ∈ subs /\ end_key (region sub) = "p") /\
     (exists result count log',
        DeleteRange false sample_lookup sample_store sample_iterate 3 "c" "p" true true 0
        = Finished result count log' /\
        (point_deletes log' <= 1)%nat /\
        (delete_end_key wst = false -> point_deletes log' = 0%nat))).
Proof.
  apply (DeleteRange_covers_the_range_within_regions false sample_lookup sample_store
           sample_iterate sample_iterate_perm sample_cluster 3 "c" "p" true true 0).
  - apply cluster_lookup_contains.
  - apply cluster_lookup_ids_unique, sample_cluster_ids.
  - apply cluster_lookup_within.
  - reflexivity.
  - simpl. lia.
Defined.

Lemma batch_status_is_first_failure_witness :
  exists subs log st out,
    BatchGet_dispatch sample_lookup flaky_store sample_iterate ["b"; "h"; "c"; "q"]
    = (Val subs, log) /\
    BatchGet sample_lookup flaky_store sample_iterate ["b"; "h"; "c"; "q"] []
    = Finished st out log /\
    aggregate_of subs st /\ out = merged result_kvs subs.
Proof.
  apply (proj1 (batch_status_is_first_failure sample_lookup flaky_store sample_iterate
                  sample_iterate_perm flaky_store_key_states_match)).
  - discriminate.
  - repeat constructor.
Defined.

Lemma batch_sub_requests_partition_inputs_witness :
  exists subs,
    BatchCompareAndSet_build sample_lookup sample_iterate
      [{| key := "b"; value := "1" |}; {| key := "h"; value := "2" |};
       {| key := "c"; value := "3" |}]
      ["x"; "y"; "z"]
    = (Val subs, map EvLookup ["b"; "h"; "c"]) /\
    partitioned sample_lookup (fun p : KVPair * string => key p.1)
      (fun ctx l => KvBatchCompareAndSetRpc ctx (map fst l) (map snd l))
      [({| key := "b"; value := "1" |}, "x"); ({| key := "h"; value := "2" |}, "y");
       ({| key := "c"; value := "3" |}, "z")]
      subs.
Proof.
  apply (proj2 (proj2 (proj2 (proj2
           (batch_sub_requests_partition_inputs sample_lookup sample_iterate
              sample_iterate_perm))))).
  - reflexivity.
  - repeat constructor.
Defined.

Lemma BatchCompareAndSet_invalid_argument_iff_size_mismatch_witness :
  BatchCompareAndSet sample_lookup flaky_store sample_iterate
    [{| key := "k1"; value := "v1" |}] [] []
  = Finished (InvalidArgument "kvs size:1 must equal expected_values size:0") [] [].
Proof.
  apply (proj1 (BatchCompareAndSet_invalid_argument_iff_size_mismatch
                  sample_lookup flaky_store sample_iterate
                  (cluster_lookup_never_invalid_argument sample_cluster)
                  flaky_store_never_invalid_argument
                  [{| key := "k1"; value := "v1" |}] [] [])).
  simpl. lia.
Defined.

Lemma batch_aborts_on_failed_lookup_witness :
  aborted_by_lookup sample_lookup ["b"; "h"; "zz"; "q"]
    (BatchGet_build sample_lookup sample_iterate ["b"; "h"; "zz"; "q"])
    (BatchGet sample_lookup flaky_store sample_iterate ["b"; "h"; "zz"; "q"]
       [{| key := "old"; value := "kept" |}])
    [{| key := "old"; value := "kept" |}].
Proof.
  apply (proj1 (batch_aborts_on_failed_lookup sample_lookup flaky_store sample_iterate)).
  do 2 apply Exists_cons_tl. apply Exists_cons_hd.
  unfold lookup_ok. simpl. discriminate.
Defined.

Lemma batch_on_empty_input_reads_missing_sub_batch_witness :
  BatchGet sample_lookup sample_store sample_iterate [] [] = Crashed InvalidAccess [] /\
  BatchDelete sample_lookup sample_store sample_iterate [] = Crashed InvalidAccess [].
Proof.
  pose proof (batch_on_empty_input_reads_missing_sub_batch sample_lookup sample_store
                sample_iterate sample_iterate_perm) as (Hget & _ & _ & Hdel & _).
  split; [apply Hget | exact Hdel].
Defined.

(** Two of the end-to-end scenarios of the design: a range over three
    regions with an inclusive end on a region boundary takes two range
    deletes and the point delete of the end; a range that ends on the
    boundary with an exclusive end takes one range delete and nothing else. *)
Example DeleteRange_three_regions_inclusive_end :
  exists log,
    DeleteRange false sample_lookup sample_store sample_iterate 3 "c" "p" true true 0
    = Finished Ok 5 log /\ point_deletes log = 1%nat /\ length log = 6%nat.
Proof. eexists. split; [vm_compute; reflexivity | split; reflexivity]. Qed.

Example DeleteRange_boundary_exclusive_end :
  DeleteRange false sample_lookup sample_store sample_iterate 3 "a" "g" true false 0
  = Finished Ok 2
      [EvLookup "a";
       EvCall R0
         (KvDeleteRangeRpc (FillRpcContext 1 sample_epoch)
            {| range_start_key := "a"; range_end_key := "g";
               with_start := true; with_end := false |})].
Proof. vm_compute. reflexivity. Qed.

(** Two regions under one id: a build with the debug checks aborts at the
    second lookup; a build with [NDEBUG] goes on, keeps the first region and
    the last range recorded for the id, and sends that one request. *)
Example DeleteRange_revisited_region_id :
  DeleteRange false twin_lookup sample_store sample_iterate 3 "c" "k" true true 0
  = Crashed CheckFailed [EvLookup "c"; EvLookup "g"] /\
  DeleteRange true twin_lookup sample_store sample_iterate 3 "c" "k" true true 0
  = Finished Ok 2
      [EvLookup "c"; EvLookup "g";
       EvCall R0
         (KvDeleteRangeRpc (FillRpcContext 1 sample_epoch)
            {| range_start_key := "g"; range_end_key := "k";
               with_start := true; with_end := true |})].
Proof. split; vm_compute; reflexivity. Qed.

(** A walk that runs out of fuel is reported as such, not as a result. *)
Example DeleteRange_out_of_fuel :
  exists log,
    DeleteRange false sample_lookup sample_store sample_iterate 1 "c" "q" true true 0
    = Diverged log.
Proof. eexists. vm_compute. reflexivity. Qed.

(** C5, as first stated, fails: with the point delete of ["p"] timing out and
    the sub-batch of region 2 failing with a network error, the call returns
    the time-out, not the first sub-batch failure; the count of the
    sub-batch that succeeded is reported all the same. *)
Lemma DeleteRange_returns_point_delete_failure_first :
  exists wst subs log log',
    DeleteRange_dispatch false sample_lookup flaky_store sample_iterate 3 "c" "p" true true
    = (Val (wst, subs), log) /\
    first_non_ok subs = Network /\
    DeleteRange false sample_lookup flaky_store sample_iterate 3 "c" "p" true true 0
    = Finished Timeout 2 log'.
Proof.
  eexists _, _, _, _. split; [vm_compute; reflexivity|].
  split; vm_compute; reflexivity.
Qed.

Lemma DeleteRange_count_and_status_witness :
  exists wst subs log,
    DeleteRange_dispatch false sample_lookup flaky_store sample_iterate 3 "c" "p" true true
    = (Val (wst, subs), log) /\
    exists ds plog count,
      (if delete_end_key wst then Delete sample_lookup flaky_store "p" = (Val ds, plog)
       else ds = Ok /\ plog = []) /\
      DeleteRange false sample_lookup flaky_store sample_iterate 3 "c" "p" true true 0
      = Finished (if IsOK ds then first_non_ok subs else ds) count (log ++ plog) /\
      count = wrap64 (ok_delete_count subs
                      + (if delete_end_key wst && IsOK ds then 1 else 0)) /\
      (in_int64 (ok_delete_count subs
                 + (if delete_end_key wst && IsOK ds then 1 else 0)) ->
       count = ok_delete_count subs
               + (if delete_end_key wst && IsOK ds then 1 else 0)) /\
      aggregate_of subs (first_non_ok subs).
Proof.
  eexists _, _, _. split; [vm_compute; reflexivity|].
  apply (DeleteRange_count_and_status false sample_lookup flaky_store sample_iterate
           3 "c" "p" true true 0).
  - reflexivity.
  - vm_compute. reflexivity.
Defined.

(** C8, as first stated, fails: an empty [start] below a non-empty [end]
    is not rejected; the region containing the empty key is looked up and the
    range delete is sent to it. *)
Lemma DeleteRange_accepts_empty_start :
  key_empty "" = true /\
  DeleteRange false open_lookup sample_store sample_iterate 3 "" "b" true true 7
  = Finished Ok 2
      [EvLookup "";
       EvCall open_region
         (KvDeleteRangeRpc (FillRpcContext 1 sample_epoch)
            {| range_start_key := ""; range_end_key := "b";
               with_start := true; with_end := true |})].
Proof. split; vm_compute; reflexivity. Qed.

(** Witnesses of the properties of the batch operations and of the walk. *)
Lemma BatchDelete_of_one_key_is_Delete_witness :
  exists st log,
    Delete sample_lookup flaky_store "h" = (Val st, log) /\
    BatchDelete sample_lookup flaky_store sample_iterate ["h"] = Finished st tt log.
Proof.
  apply (BatchDelete_of_one_key_is_Delete sample_lookup flaky_store sample_iterate
           sample_iterate_perm "h").
Defined.

Lemma batch_sends_every_sub_request_once_witness :
  exists subs calls st out,
    BatchGet_build sample_lookup sample_iterate ["b"; "h"; "c"; "q"]
    = (Val subs, map EvLookup ["b"; "h"; "c"; "q"]) /\
    BatchGet sample_lookup flaky_store sample_iterate ["b"; "h"; "c"; "q"] []
    = Finished st out (map EvLookup ["b"; "h"; "c"; "q"] ++ calls) /\
    calls ≡ₚ map call_of subs.
Proof.
  apply (proj1 (batch_sends_every_sub_request_once sample_lookup flaky_store
                  sample_iterate sample_iterate_perm flaky_store_key_states_match)).
  - discriminate.
  - repeat constructor.
Defined.

Lemma batch_finishes_iff_input_not_empty_witness :
  exists st out log,
    BatchPutIfAbsent sample_lookup flaky_store sample_iterate
      [{| key := "b"; value := "1" |}; {| key := "q"; value := "2" |}] []
    = Finished st out log.
Proof.
  apply (proj2 (proj1 (proj2 (proj2
           (batch_finishes_iff_input_not_empty sample_lookup flaky_store
              sample_iterate sample_iterate_perm))) _ [])).
  split; [discriminate|].
  intros subs log0 H. vm_compute in H. injection H as <- <-. repeat constructor.
Defined.

(** A store that answers OK to a conditional write without a key state
    fails the [CHECK_EQ] of the processing function. *)
Example BatchPutIfAbsent_short_answer :
  BatchPutIfAbsent sample_lookup short_store sample_iterate
    [{| key := "b"; value := "1" |}] []
  = Crashed CheckFailed
      [EvLookup "b";
       EvCall R0 (KvBatchPutIfAbsentRpc (FillRpcContext 1 sample_epoch)
                    [{| key := "b"; value := "1" |}] true)].
Proof. vm_compute. reflexivity. Qed.

Lemma DeleteRange_sends_nothing_before_the_walk_is_done_witness :
  lookup_failure sample_lookup RegionNotFound /\
  DeleteRange false sample_lookup sample_store sample_iterate 3 "x" "zz" true true 7
  = Finished RegionNotFound 7 [EvLookup "x"; EvLookup "z"].
Proof.
  exact (proj2 (DeleteRange_sends_nothing_before_the_walk_is_done false sample_lookup
                  sample_store sample_iterate 3 "x" "zz" true true 7)
           RegionNotFound eq_refl eq_refl).
Defined.

Lemma DeleteRange_never_aborts_witness :
  (exists st count log,
     DeleteRange false sample_lookup flaky_store sample_iterate 3 "c" "p" true true 0
     = Finished st count log) \/
  (exists log,
     DeleteRange false sample_lookup flaky_store sample_iterate 3 "c" "p" true true 0
     = Diverged log).
Proof.
  apply (DeleteRange_never_aborts false sample_lookup flaky_store sample_iterate
           sample_iterate_perm 3 "c" "p" true true 0).
  right. split; [apply cluster_lookup_contains|].
  apply cluster_lookup_ids_unique, sample_cluster_ids.
Defined.

End RawKV.

(** * The id selector of the raw IVF-PQ index
      (src/vector/vector_index_raw_ivf_pq.h) *)

Module RawIvfPqIDSelector.

(** [VectorIndex::FilterFunctor]: the selector uses its one method, [Check],
    and only its answer. *)
Record FilterFunctor : Type := { filter_check : Z -> bool }.

(** The loop [for (const auto& filter : filters_)], which returns [false]
    at the first filter that rejects the id. *)
Fixpoint for_each_filter (filters_ : list FilterFunctor) (id : Z) : bool :=
  match filters_ with
  | [] => true
  | filter :: rest =>
      if negb (filter_check filter id) then false else for_each_filter rest id
  end.

(** [RawIvfPqIDSelector::is_member] (lines 50-61). *)
Definition is_member (filters_ : list FilterFunctor) (id : Z) : bool :=
  match filters_ with
  | [] => true
  | _ => for_each_filter filters_ id
  end.

Definition accepts (id : Z) (f : FilterFunctor) : Prop := filter_check f id = true.

Lemma is_member_loop filters_ id :
  is_member filters_ id = for_each_filter filters_ id.
Proof. by destruct filters_. Qed.

Lemma for_each_filter_app fs gs id :
  for_each_filter (fs ++ gs) id = for_each_filter fs id && for_each_filter gs id.
Proof.
  induction fs as [|f fs IH]; simpl; [done|].
  by destruct (filter_check f id).
Qed.

(** X10. An id is a member exactly when every filter of the selector accepts
    it; in particular a selector without filters selects every id. *)
Theorem is_member_iff_every_filter_accepts :
  forall filters_ id,
    is_member filters_ id = true <-> Forall (accepts id) filters_.
Proof.
  intros filters_ id. rewrite is_member_loop.
  induction filters_ as [|f fs IH]; simpl.
  - split; [constructor | done].
  - unfold accepts at 1. rewrite Forall_cons, <- IH.
    destruct (filter_check f id); simpl; intuition congruence.
Qed.

(** X11. A selector built from two lists of filters selects what both
    selectors select, so adding filters only narrows the selection and the
    order in which the two lists are joined does not matter. *)
Theorem is_member_of_joined_filters :
  forall fs gs id,
    is_member (fs ++ gs) id = is_member fs id && is_member gs id /\
    is_member (fs ++ gs) id = is_member (gs ++ fs) id.
Proof.
  intros fs gs id. rewrite !is_member_loop, !for_each_filter_app.
  split; [done | apply andb_comm].
Qed.

Example is_member_rejects_at_first_failing_filter :
  is_member [ {| filter_check := fun id => (0 <=? id)%Z |};
              {| filter_check := fun id => (id <? 10)%Z |} ] 12 = false /\
  is_member [ {| filter_check := fun id => (0 <=? id)%Z |};
              {| filter_check := fun id => (id <? 10)%Z |} ] 7 = true.
Proof. split; reflexivity. Qed.

End RawIvfPqIDSelector.
